(** * GATE marks calculator: a shallow embedding of [gate_calculator.py]

    The development follows the source file top to bottom:
    - [Text]: Python [str] values as sequences of code points, with the
      classifications of the Unicode database that the program relies on
      ([str.isspace], [str.isdecimal], [str.isdigit], [int]);
    - [Re]: the fragment of Python's [re] module used by the program, as a
      backtracking matcher with capture groups;
    - [Gate]: the records and the functions of the program. *)

From Stdlib Require Import ZArith NArith List Ascii String Floats Lia.
From stdpp Require Import base option list gmap sets sorting.

Local Open Scope N_scope.

(* ===================================================================== *)
(** ** Python strings *)
(* ===================================================================== *)

Module Text.

(** A Python [str] is a sequence of Unicode code points. *)
Definition char : Type := N.
Definition str : Type := list char.

(** [u "abc"] is the [str] with the code points of an ASCII literal. *)
Definition u (s : string) : str := map N_of_ascii (list_ascii_of_string s).

Definition in_range (lo hi c : char) : bool := (lo <=? c) && (c <=? hi).

(** [str.isspace] for one character, which is also the regex class [\s] on
    [str] patterns (Unicode 14.0, as shipped with CPython 3.11). *)
Definition isspace (c : char) : bool :=
  in_range 9 13 c || in_range 28 32 c || (c =? 133) || (c =? 160)
  || (c =? 5760) || in_range 8192 8202 c || (c =? 8232) || (c =? 8233)
  || (c =? 8239) || (c =? 8287) || (c =? 12288).

(** Code points of the digit zero of every decimal script (general category
    Nd); the digits of a script are the ten code points from its zero. *)
Definition decimal_zeros : list char :=
  [48; 1632; 1776; 1984; 2406; 2534; 2662; 2790; 2918; 3046; 3174; 3302;
   3430; 3558; 3664; 3792; 3872; 4160; 4240; 6112; 6160; 6470; 6608; 6784;
   6800; 6992; 7088; 7232; 7248; 42528; 43216; 43264; 43472; 43504; 43600;
   44016; 65296; 66720; 68912; 69734; 69872; 69942; 70096; 70384; 70736;
   70864; 71248; 71360; 71472; 71904; 72016; 72784; 73040; 73120; 92768;
   92864; 93008; 120782; 120792; 120802; 120812; 120822; 123200; 123632;
   125264; 130032].

(** The decimal value of a character, when it has one. *)
Definition decimal_value (c : char) : option N :=
  match List.find (fun z => in_range z (z + 9) c) decimal_zeros with
  | Some z => Some (c - z)
  | None => None
  end.

(** [str.isdecimal] for one character, which is also the regex class [\d]. *)
Definition isdecimal (c : char) : bool :=
  match decimal_value c with Some _ => true | None => false end.

(** Characters that are digits without being decimals (superscripts,
    circled digits and the like): [str.isdigit] holds, [int] rejects them. *)
Definition other_digit_ranges : list (char * char) :=
  [(178, 179); (185, 185); (4969, 4977); (6618, 6618); (8304, 8304);
   (8308, 8313); (8320, 8329); (9312, 9320); (9332, 9340); (9352, 9360);
   (9450, 9450); (9461, 9469); (9471, 9471); (10102, 10110); (10112, 10120);
   (10122, 10130); (68160, 68163); (69216, 69224); (69714, 69722);
   (127232, 127242)].

Definition isdigit_char (c : char) : bool :=
  isdecimal c || existsb (fun r => in_range (fst r) (snd r) c) other_digit_ranges.

(** [s.isdigit()]: every character is a digit and there is at least one. *)
Definition isdigit (s : str) : bool :=
  match s with [] => false | _ => forallb isdigit_char s end.

(** CPython's default limit on the number of digits that [int] converts
    ([sys.int_info.default_max_str_digits]). *)
Definition int_max_str_digits : nat := 4300.

Definition digits_value (ds : list N) : N :=
  fold_left (fun acc d => 10 * acc + d) ds 0.

(** [int(s)] for the strings the program passes to it: strings of digit
    characters (after [isdigit], or matched by [\d+]).  [None] stands for
    [ValueError], raised for a digit that is not a decimal and for a
    numeral longer than the conversion limit. *)
Definition int (s : str) : option Z :=
  match s with
  | [] => None
  | _ =>
    ds ← mapM decimal_value s;
    if decide (length s ≤ int_max_str_digits)%nat
    then Some (Z.of_N (digits_value ds)) else None
  end.

(** ASCII letters. *)
Definition is_ascii_upper (c : char) : bool := in_range 65 90 c.
Definition is_ascii_lower (c : char) : bool := in_range 97 122 c.
Definition ascii_lower (c : char) : char := if is_ascii_upper c then c + 32 else c.
Definition ascii_upper (c : char) : char := if is_ascii_lower c then c - 32 else c.

(** The simple uppercase mappings of the Unicode database, as runs
    [(first, last, step, delta)]: the characters [first], [first + step], ...,
    [last] map to themselves plus [delta]. *)
Definition upper_runs : list (Z * Z * Z * Z) :=
  [(97, 122, 1, -32); (181, 181, 1, 743); (224, 246, 1, -32);
   (248, 254, 1, -32); (255, 255, 1, 121); (257, 303, 2, -1);
   (305, 305, 1, -232); (307, 311, 2, -1); (314, 328, 2, -1);
   (331, 375, 2, -1); (378, 382, 2, -1); (383, 383, 1, -300);
   (384, 384, 1, 195); (387, 389, 2, -1); (392, 392, 1, -1);
   (396, 396, 1, -1); (402, 402, 1, -1); (405, 405, 1, 97);
   (409, 409, 1, -1); (410, 410, 1, 163); (414, 414, 1, 130);
   (417, 421, 2, -1); (424, 424, 1, -1); (429, 429, 1, -1);
   (432, 432, 1, -1); (436, 438, 2, -1); (441, 441, 1, -1);
   (445, 445, 1, -1); (447, 447, 1, 56); (453, 453, 1, -1);
   (454, 454, 1, -2); (456, 456, 1, -1); (457, 457, 1, -2);
   (459, 459, 1, -1); (460, 460, 1, -2); (462, 476, 2, -1);
   (477, 477, 1, -79); (479, 495, 2, -1); (498, 498, 1, -1);
   (499, 499, 1, -2); (501, 501, 1, -1); (505, 543, 2, -1);
   (547, 563, 2, -1); (572, 572, 1, -1); (575, 576, 1, 10815);
   (578, 578, 1, -1); (583, 591, 2, -1); (592, 592, 1, 10783);
   (593, 593, 1, 10780); (594, 594, 1, 10782); (595, 595, 1, -210);
   (596, 596, 1, -206); (598, 599, 1, -205); (601, 601, 1, -202);
   (603, 603, 1, -203); (604, 604, 1, 42319); (608, 608, 1, -205);
   (609, 609, 1, 42315); (611, 611, 1, -207); (613, 613, 1, 42280);
   (614, 614, 1, 42308); (616, 616, 1, -209); (617, 617, 1, -211);
   (618, 618, 1, 42308); (619, 619, 1, 10743); (620, 620, 1, 42305);
   (623, 623, 1, -211); (625, 625, 1, 10749); (626, 626, 1, -213);
   (629, 629, 1, -214); (637, 637, 1, 10727); (640, 640, 1, -218);
   (642, 642, 1, 42307); (643, 643, 1, -218); (647, 647, 1, 42282);
   (648, 648, 1, -218); (649, 649, 1, -69); (650, 651, 1, -217);
   (652, 652, 1, -71); (658, 658, 1, -219); (669, 669, 1, 42261);
   (670, 670, 1, 42258); (837, 837, 1, 84); (881, 883, 2, -1);
   (887, 887, 1, -1); (891, 893, 1, 130); (940, 940, 1, -38);
   (941, 943, 1, -37); (945, 961, 1, -32); (962, 962, 1, -31);
   (963, 971, 1, -32); (972, 972, 1, -64); (973, 974, 1, -63);
   (976, 976, 1, -62); (977, 977, 1, -57); (981, 981, 1, -47);
   (982, 982, 1, -54); (983, 983, 1, -8); (985, 1007, 2, -1);
   (1008, 1008, 1, -86); (1009, 1009, 1, -80); (1010, 1010, 1, 7);
   (1011, 1011, 1, -116); (1013, 1013, 1, -96); (1016, 1016, 1, -1);
   (1019, 1019, 1, -1); (1072, 1103, 1, -32); (1104, 1119, 1, -80);
   (1121, 1153, 2, -1); (1163, 1215, 2, -1); (1218, 1230, 2, -1);
   (1231, 1231, 1, -15); (1233, 1327, 2, -1); (1377, 1414, 1, -48);
   (4304, 4346, 1, 3008); (4349, 4351, 1, 3008); (5112, 5117, 1, -8);
   (7296, 7296, 1, -6254); (7297, 7297, 1, -6253); (7298, 7298, 1, -6244);
   (7299, 7300, 1, -6242); (7301, 7301, 1, -6243); (7302, 7302, 1, -6236);
   (7303, 7303, 1, -6181); (7304, 7304, 1, 35266); (7545, 7545, 1, 35332);
   (7549, 7549, 1, 3814); (7566, 7566, 1, 35384); (7681, 7829, 2, -1);
   (7835, 7835, 1, -59); (7841, 7935, 2, -1); (7936, 7943, 1, 8);
   (7952, 7957, 1, 8); (7968, 7975, 1, 8); (7984, 7991, 1, 8);
   (8000, 8005, 1, 8); (8017, 8023, 2, 8); (8032, 8039, 1, 8);
   (8048, 8049, 1, 74); (8050, 8053, 1, 86); (8054, 8055, 1, 100);
   (8056, 8057, 1, 128); (8058, 8059, 1, 112); (8060, 8061, 1, 126);
   (8112, 8113, 1, 8); (8126, 8126, 1, -7205); (8144, 8145, 1, 8);
   (8160, 8161, 1, 8); (8165, 8165, 1, 7); (8526, 8526, 1, -28);
   (8560, 8575, 1, -16); (8580, 8580, 1, -1); (9424, 9449, 1, -26);
   (11312, 11359, 1, -48); (11361, 11361, 1, -1); (11365, 11365, 1, -10795);
   (11366, 11366, 1, -10792); (11368, 11372, 2, -1); (11379, 11379, 1, -1);
   (11382, 11382, 1, -1); (11393, 11491, 2, -1); (11500, 11502, 2, -1);
   (11507, 11507, 1, -1); (11520, 11557, 1, -7264); (11559, 11559, 1, -7264);
   (11565, 11565, 1, -7264); (42561, 42605, 2, -1); (42625, 42651, 2, -1);
   (42787, 42799, 2, -1); (42803, 42863, 2, -1); (42874, 42876, 2, -1);
   (42879, 42887, 2, -1); (42892, 42892, 1, -1); (42897, 42899, 2, -1);
   (42900, 42900, 1, 48); (42903, 42921, 2, -1); (42933, 42947, 2, -1);
   (42952, 42954, 2, -1); (42961, 42961, 1, -1); (42967, 42969, 2, -1);
   (42998, 42998, 1, -1); (43859, 43859, 1, -928); (43888, 43967, 1, -38864);
   (65345, 65370, 1, -32); (66600, 66639, 1, -40); (66776, 66811, 1, -40);
   (66967, 66977, 1, -39); (66979, 66993, 1, -39); (66995, 67001, 1, -39);
   (67003, 67004, 1, -39); (68800, 68850, 1, -64); (71872, 71903, 1, -32);
   (93792, 93823, 1, -32); (125218, 125251, 1, -34)]%Z.

(** The characters whose uppercase form has more than one character. *)
Definition upper_special : list (N * list N) :=
  [(223, [83; 83]); (329, [700; 78]); (496, [74; 780]);
   (912, [921; 776; 769]); (944, [933; 776; 769]); (1415, [1333; 1362]);
   (7830, [72; 817]); (7831, [84; 776]); (7832, [87; 778]);
   (7833, [89; 778]); (7834, [65; 702]); (8016, [933; 787]);
   (8018, [933; 787; 768]); (8020, [933; 787; 769]); (8022, [933; 787; 834]);
   (8064, [7944; 921]); (8065, [7945; 921]); (8066, [7946; 921]);
   (8067, [7947; 921]); (8068, [7948; 921]); (8069, [7949; 921]);
   (8070, [7950; 921]); (8071, [7951; 921]); (8072, [7944; 921]);
   (8073, [7945; 921]); (8074, [7946; 921]); (8075, [7947; 921]);
   (8076, [7948; 921]); (8077, [7949; 921]); (8078, [7950; 921]);
   (8079, [7951; 921]); (8080, [7976; 921]); (8081, [7977; 921]);
   (8082, [7978; 921]); (8083, [7979; 921]); (8084, [7980; 921]);
   (8085, [7981; 921]); (8086, [7982; 921]); (8087, [7983; 921]);
   (8088, [7976; 921]); (8089, [7977; 921]); (8090, [7978; 921]);
   (8091, [7979; 921]); (8092, [7980; 921]); (8093, [7981; 921]);
   (8094, [7982; 921]); (8095, [7983; 921]); (8096, [8040; 921]);
   (8097, [8041; 921]); (8098, [8042; 921]); (8099, [8043; 921]);
   (8100, [8044; 921]); (8101, [8045; 921]); (8102, [8046; 921]);
   (8103, [8047; 921]); (8104, [8040; 921]); (8105, [8041; 921]);
   (8106, [8042; 921]); (8107, [8043; 921]); (8108, [8044; 921]);
   (8109, [8045; 921]); (8110, [8046; 921]); (8111, [8047; 921]);
   (8114, [8122; 921]); (8115, [913; 921]); (8116, [902; 921]);
   (8118, [913; 834]); (8119, [913; 834; 921]); (8124, [913; 921]);
   (8130, [8138; 921]); (8131, [919; 921]); (8132, [905; 921]);
   (8134, [919; 834]); (8135, [919; 834; 921]); (8140, [919; 921]);
   (8146, [921; 776; 768]); (8147, [921; 776; 769]); (8150, [921; 834]);
   (8151, [921; 776; 834]); (8162, [933; 776; 768]); (8163, [933; 776; 769]);
   (8164, [929; 787]); (8166, [933; 834]); (8167, [933; 776; 834]);
   (8178, [8186; 921]); (8179, [937; 921]); (8180, [911; 921]);
   (8182, [937; 834]); (8183, [937; 834; 921]); (8188, [937; 921]);
   (64256, [70; 70]); (64257, [70; 73]); (64258, [70; 76]);
   (64259, [70; 70; 73]); (64260, [70; 70; 76]); (64261, [83; 84]);
   (64262, [83; 84]); (64275, [1348; 1350]); (64276, [1348; 1333]);
   (64277, [1348; 1339]); (64278, [1358; 1350]); (64279, [1348; 1341])].

(** [s.upper()]: every character is replaced by its uppercase form, which
    does not depend on the characters around it. *)
Definition upper_char (c : char) : str :=
  match List.find (λ e, fst e =? c) upper_special with
  | Some e => snd e
  | None =>
    let z := Z.of_N c in
    match List.find (λ r, let '(a, b, step, _) := r in
                          (a <=? z)%Z && (z <=? b)%Z
                          && ((z - a) mod step =? 0)%Z) upper_runs with
    | Some (_, _, _, delta) => [Z.to_N (z + delta)]
    | None => [c]
    end
  end.
Definition upper (s : str) : str := flat_map upper_char s.

(** [s.strip()]: whitespace removed at both ends. *)
Fixpoint lstrip (s : str) : str :=
  match s with
  | c :: t => if isspace c then lstrip t else s
  | [] => []
  end.
Definition rstrip (s : str) : str := rev (lstrip (rev s)).
Definition strip (s : str) : str := rstrip (lstrip s).

(** [s.split(sep)] for a one-character separator. *)
Fixpoint split_on (sep : char) (s : str) : list str :=
  match s with
  | [] => [[]]
  | c :: t =>
    if c =? sep then [] :: split_on sep t
    else match split_on sep t with
         | w :: ws => (c :: w) :: ws
         | [] => [[c]]
         end
  end.

(** [sep.join(parts)]. *)
Fixpoint join (sep : str) (parts : list str) : str :=
  match parts with
  | [] => []
  | [p] => p
  | p :: ps => p ++ sep ++ join sep ps
  end.

(** [s[a:b]] for indices [0 <= a], [0 <= b]: out-of-range indices are
    clamped and [b < a] gives the empty string. *)
Definition slice (a b : nat) (s : str) : str := take (b - a) (drop a s).

(** Comparison of strings, code point by code point, as [<] on [str]. *)
Fixpoint str_ltb (a b : str) : bool :=
  match a, b with
  | [], [] => false
  | [], _ :: _ => true
  | _ :: _, [] => false
  | x :: a', y :: b' => (x <? y) || ((x =? y) && str_ltb a' b')
  end.
Definition str_leb (a b : str) : bool := negb (str_ltb b a).

End Text.

(* ===================================================================== *)
(** ** The fragment of Python's [re] module used by the program *)
(* ===================================================================== *)

Module Re.
Import Text.

(** Patterns.  [Chr p] matches one character satisfying [p]; [Grp i r] is
    the capturing group number [i]; [Eos] is [$] without [re.MULTILINE]. *)
Inductive regex : Type :=
| Eps
| Chr (p : char → bool)
| Cat (r1 r2 : regex)
| Alt (r1 r2 : regex)
| Star (r : regex)
| Grp (i : nat) (r : regex)
| Eos.

(** The state of a match attempt: the position reached, the text that
    remains from there on, and the spans captured so far (most recent first). *)
Record mstate : Type := MState {
  pos : nat;
  rest : str;
  caps : list (nat * (nat * nat))
}.

Definition advance (st : mstate) (t : str) : mstate :=
  {| pos := S (pos st); rest := t; caps := caps st |}.

Definition set_cap (i : nat) (from : nat) (st : mstate) : mstate :=
  {| pos := pos st; rest := rest st; caps := (i, (from, pos st)) :: caps st |}.

Definition cont : Type := mstate → option mstate.

(** Greedy repetition: take one more iteration of [body] when it consumes
    something, fall back to the continuation otherwise.  The bound [n] is
    the number of characters left plus one, so it is never the reason to
    stop.  (All starred sub-patterns of the program consume a character.) *)
Fixpoint star_loop (body : mstate → cont → option mstate) (n : nat)
    (st : mstate) (k : cont) : option mstate :=
  match n with
  | O => k st
  | S n' =>
    match body st (λ st', if (pos st <? pos st')%nat
                          then star_loop body n' st' k else None) with
    | Some res => Some res
    | None => k st
    end
  end.

(** Where [$] matches: at the end of the text, and before a newline that
    ends the text. *)
Definition at_end (s : str) : bool :=
  match s with
  | [] => true
  | [c] => c =? 10
  | _ => false
  end.

(** The backtracking matcher, in continuation-passing style: alternatives
    are tried left to right and repetition is greedy, as in [re]. *)
Fixpoint rmatch (r : regex) (st : mstate) (k : cont) : option mstate :=
  match r with
  | Eps => k st
  | Chr p =>
    match rest st with
    | c :: t => if p c then k (advance st t) else None
    | [] => None
    end
  | Cat r1 r2 => rmatch r1 st (λ st', rmatch r2 st' k)
  | Alt r1 r2 =>
    match rmatch r1 st k with
    | Some res => Some res
    | None => rmatch r2 st k
    end
  | Star r1 => star_loop (rmatch r1) (S (length (rest st))) st k
  | Grp i r1 => rmatch r1 st (λ st', k (set_cap i (pos st) st'))
  | Eos => if at_end (rest st) then k st else None
  end.

(** A match object: [start()], [end()] and the spans of its groups. *)
Record rmatch_obj : Type := Match {
  m_start : nat;
  m_end : nat;
  m_caps : list (nat * (nat * nat))
}.

(** One attempt at position [p], where [s] is the text from [p] on. *)
Definition match_at (r : regex) (p : nat) (s : str) : option rmatch_obj :=
  match rmatch r {| pos := p; rest := s; caps := [] |} Some with
  | Some st => Some {| m_start := p; m_end := pos st; m_caps := caps st |}
  | None => None
  end.

(** [pattern.search]: the leftmost match. *)
Fixpoint search_from (r : regex) (p : nat) (s : str) : option rmatch_obj :=
  match match_at r p s with
  | Some m => Some m
  | None =>
    match s with
    | [] => None
    | _ :: t => search_from r (S p) t
    end
  end.

Definition search (r : regex) (text : str) : option rmatch_obj :=
  search_from r 0 text.

(** [pattern.finditer]: successive non-overlapping matches, left to right.
    [skip] counts the characters still covered by the previous match. *)
Fixpoint scan (r : regex) (p : nat) (s : str) (skip : nat) : list rmatch_obj :=
  match skip with
  | S skip' =>
    match s with
    | [] => []
    | _ :: t => scan r (S p) t skip'
    end
  | O =>
    match match_at r p s with
    | Some m =>
      m :: match s with
           | [] => []
           | _ :: t => scan r (S p) t (m_end m - p - 1)
           end
    | None =>
      match s with
      | [] => []
      | _ :: t => scan r (S p) t 0
      end
    end
  end.

Definition finditer (r : regex) (text : str) : list rmatch_obj :=
  scan r 0 text 0.

(** [m.group(i)]: the text of group [i], [None] when it took no part. *)
Definition group (text : str) (m : rmatch_obj) (i : nat) : option str :=
  match List.find (λ c, Nat.eqb (fst c) i) (m_caps m) with
  | Some (_, (a, b)) => Some (slice a b text)
  | None => None
  end.

(** [m.group(0)]. *)
Definition group0 (text : str) (m : rmatch_obj) : str :=
  slice (m_start m) (m_end m) text.

(** The entry of [findall] for a group: the empty string when unset. *)
Definition group_or_empty (text : str) (m : rmatch_obj) (i : nat) : str :=
  default [] (group text m i).

(** *** Pattern syntax *)

Definition lit1 (c : char) : regex := Chr (N.eqb c).

(** A literal character under [re.IGNORECASE]: both cases of an ASCII
    letter, and the non-ASCII characters that fold to it. *)
Definition ieq (c x : char) : bool :=
  let l := ascii_lower c in
  (ascii_lower x =? l)
  || ((l =? 107) && (x =? 8490))
  || ((l =? 115) && (x =? 383))
  || ((l =? 105) && ((x =? 304) || (x =? 305))).
Definition ilit1 (c : char) : regex := Chr (ieq c).

Fixpoint seq_of (f : char → regex) (s : str) : regex :=
  match s with
  | [] => Eps
  | [c] => f c
  | c :: t => Cat (f c) (seq_of f t)
  end.

(** A literal word, case-sensitive and case-insensitive. *)
Definition lit (s : string) : regex := seq_of lit1 (u s).
Definition ilit (s : string) : regex := seq_of ilit1 (u s).

Definition Plus (r : regex) : regex := Cat r (Star r).
Definition Opt (r : regex) : regex := Alt r Eps.

(** [\s*], [\s+], [\d+]. *)
Definition ws : regex := Star (Chr isspace).
Definition ws1 : regex := Plus (Chr isspace).
Definition digits : regex := Plus (Chr isdecimal).

Fixpoint cats (rs : list regex) : regex :=
  match rs with
  | [] => Eps
  | [r] => r
  | r :: rs' => Cat r (cats rs')
  end.

(** *** What a successful attempt means

    [run r st st'] holds when [r] can take the matcher from [st] to [st'];
    [lang r w] is the set of texts that [r] can consume (a group consumes
    what its body does, and [$] consumes nothing). *)

Inductive run : regex → mstate → mstate → Prop :=
| run_eps st : run Eps st st
| run_chr p c t st :
    rest st = c :: t → p c = true → run (Chr p) st (advance st t)
| run_cat r1 r2 st st1 st2 :
    run r1 st st1 → run r2 st1 st2 → run (Cat r1 r2) st st2
| run_alt_l r1 r2 st st' : run r1 st st' → run (Alt r1 r2) st st'
| run_alt_r r1 r2 st st' : run r2 st st' → run (Alt r1 r2) st st'
| run_star_stop r st : run (Star r) st st
| run_star_more r st st1 st2 :
    run r st st1 → run (Star r) st1 st2 → run (Star r) st st2
| run_grp i r st st' : run r st st' → run (Grp i r) st (set_cap i (pos st) st')
| run_eos st : at_end (rest st) = true → run Eos st st.

Fixpoint lang (r : regex) (w : str) : Prop :=
  match r with
  | Eps => w = []
  | Chr p => ∃ c, w = [c] ∧ p c = true
  | Cat r1 r2 => ∃ w1 w2, w = w1 ++ w2 ∧ lang r1 w1 ∧ lang r2 w2
  | Alt r1 r2 => lang r1 w ∨ lang r2 w
  | Star r1 => ∃ ws, w = concat ws ∧ Forall (lang r1) ws
  | Grp _ r1 => lang r1 w
  | Eos => w = []
  end.

(** The state of an attempt is anchored in the text when what remains is
    the text from the current position on. *)
Definition anchored (text : str) (st : mstate) : Prop :=
  drop (pos st) text = rest st.

(** The group numbers that occur in a pattern. *)
Fixpoint groups (r : regex) : list nat :=
  match r with
  | Eps | Chr _ | Eos => []
  | Cat r1 r2 | Alt r1 r2 => groups r1 ++ groups r2
  | Star r1 => groups r1
  | Grp i r1 => i :: groups r1
  end.

(** Matches in text order without overlap, between [lo] and [hi]. *)
Fixpoint chained (lo hi : nat) (ms : list rmatch_obj) : Prop :=
  match ms with
  | [] => True
  | m :: ms' =>
    (lo ≤ m_start m ∧ m_start m ≤ m_end m ∧ m_end m ≤ hi)%nat
    ∧ chained (m_end m) hi ms'
  end.

End Re.

(* ===================================================================== *)
(** ** Python floats: [float(str)] and [str(float)] *)
(* ===================================================================== *)

Module PyFloat.
Import Text.

(** The quotient [a / b] of two positive integers, rounded to the nearest
    binary64 value (ties to even). *)
Definition round_quotient (neg : bool) (a b : positive) : float :=
  SF2Prim (SFdiv prec emax (S754_finite neg a 0) (S754_finite false b 0)).

(** The binary64 value nearest to [(-1)^neg * m * 10^q]. *)
Definition of_decimal (neg : bool) (m : N) (q : Z) : float :=
  match m with
  | N0 => if neg then neg_zero else zero
  | Npos p =>
    match q with
    | Zneg k => round_quotient neg p (10 ^ k)%positive
    | Z0 => round_quotient neg p 1
    | Zpos k => round_quotient neg (p * 10 ^ k)%positive 1
    end
  end.

Definition split_sign (s : str) : bool * str :=
  match s with
  | c :: t =>
    if c =? 45 then (true, t) else if c =? 43 then (false, t) else (false, s)
  | [] => (false, [])
  end.

Definition digits_of (s : str) : option (list N) :=
  match s with
  | [] => None
  | _ => mapM decimal_value s
  end.

(** [float(s)] on the numerals that the program captures before it calls
    [float]: an optional sign, digits, and optionally a point and digits.
    [None] stands for [ValueError]. *)
Definition float_of_body (neg : bool) (body : str) : option float :=
  match split_on 46 body with
  | [ip] =>
    ds ← digits_of ip;
    Some (of_decimal neg (digits_value ds) 0)
  | [ip; fp] =>
    ds ← digits_of ip;
    fs ← digits_of fp;
    Some (of_decimal neg (digits_value (ds ++ fs)) (- Z.of_nat (length fs)))
  | _ => None
  end.
Definition float_of_str (s : str) : option float :=
  let '(neg, body) := split_sign s in float_of_body neg body.

(** *** [str(x)]: the shortest decimal numeral that reads back as [x] *)

Fixpoint uint_digits (d : Decimal.uint) : list N :=
  match d with
  | Decimal.Nil => []
  | Decimal.D0 d' => 0 :: uint_digits d'
  | Decimal.D1 d' => 1 :: uint_digits d'
  | Decimal.D2 d' => 2 :: uint_digits d'
  | Decimal.D3 d' => 3 :: uint_digits d'
  | Decimal.D4 d' => 4 :: uint_digits d'
  | Decimal.D5 d' => 5 :: uint_digits d'
  | Decimal.D6 d' => 6 :: uint_digits d'
  | Decimal.D7 d' => 7 :: uint_digits d'
  | Decimal.D8 d' => 8 :: uint_digits d'
  | Decimal.D9 d' => 9 :: uint_digits d'
  end.

(** The decimal digits of a natural number, most significant first. *)
Definition N_digits (n : N) : list N :=
  match n with
  | N0 => [0]
  | Npos p => uint_digits (Pos.to_uint p)
  end.

Definition digit_chars (ds : list N) : str := map (λ d, 48 + d) ds.

(** [pow10_floor num den] is the integer [p] with
    [10^p <= num / den < 10^(p+1)], for a positive fraction; below 1 the
    fraction is scaled up by ten until it reaches 1 (the smallest binary64
    value is above [10^-324]). *)
Fixpoint scale_up (fuel : nat) (num den : Z) (j : Z) : Z :=
  match fuel with
  | O => j
  | S fuel' =>
    if (den <=? num)%Z then j else scale_up fuel' (10 * num) den (j - 1)
  end.
Definition pow10_floor (num den : Z) : Z :=
  if (den <=? num)%Z
  then Z.of_nat (length (N_digits (Z.to_N (num / den)))) - 1
  else scale_up 400 num den 0.

(** The candidates with [n] digits around [num / den]: the fraction is
    scaled by [10^-q] and cut to an integer; [lower] and [lower + 1] are
    tried, and the nearer one that reads back as [x] is kept (the even one
    when both are as near). *)
Definition candidate (x : float) (num den : Z) (p10 : Z) (n : nat)
    : option (N * Z) :=
  let q := (p10 - (Z.of_nat n - 1))%Z in
  let '(snum, sden) :=
    if (0 <=? q)%Z then (num, den * 10 ^ q)%Z else (num * 10 ^ (- q), den)%Z in
  let lower := (snum / sden)%Z in
  let rem := (snum mod sden)%Z in
  let ok c := PrimFloat.eqb (of_decimal false (Z.to_N c) q) x in
  let lo_ok := ok lower in
  let hi_ok := negb (rem =? 0)%Z && ok (lower + 1)%Z in
  if lo_ok && hi_ok
  then match (2 * rem ?= sden)%Z with
       | Lt => Some (Z.to_N lower, q)
       | Gt => Some (Z.to_N (lower + 1), q)
       | Eq => Some (Z.to_N (if Z.even lower then lower else lower + 1), q)
       end
  else if lo_ok then Some (Z.to_N lower, q)
  else if hi_ok then Some (Z.to_N (lower + 1), q)
  else None.

Fixpoint shortest_from (x : float) (num den p10 : Z) (n fuel : nat)
    : N * Z :=
  match fuel with
  | O => (0, 0%Z)
  | S fuel' =>
    match candidate x num den p10 n with
    | Some c => c
    | None => shortest_from x num den p10 (S n) fuel'
    end
  end.

Fixpoint strip_zeros_rev (ds : list N) : list N :=
  match ds with
  | 0 :: t => strip_zeros_rev t
  | _ => ds
  end.

(** The digits and the position of the decimal point of the shortest
    numeral: [x = 0.d1 d2 ... dn * 10^decpt]. *)
Definition shortest_digits (m : positive) (e : Z) : list N * Z :=
  let '(num, den) :=
    match e with
    | Zneg k => (Zpos m, Zpos (2 ^ k))
    | _ => (Zpos m * 2 ^ e, 1)%Z
    end in
  let x := SF2Prim (S754_finite false m e) in
  let p10 := pow10_floor num den in
  let '(c, q) := shortest_from x num den p10 1 17 in
  let ds := N_digits c in
  let decpt := (Z.of_nat (length ds) + q)%Z in
  let ds' := rev (strip_zeros_rev (rev ds)) in
  (match ds' with [] => [0] | _ => ds' end, decpt).

(** The layout of [repr]: plain notation when the decimal point falls
    within [-4 < decpt <= 16], exponent notation outside. *)
Definition format_repr (ds : list N) (decpt : Z) : str :=
  let n := Z.of_nat (length ds) in
  if ((-4 <? decpt) && (decpt <=? 16))%Z then
    if (decpt <=? 0)%Z then
      u "0." ++ digit_chars (repeat 0 (Z.to_nat (- decpt))) ++ digit_chars ds
    else if (n <=? decpt)%Z then
      digit_chars ds ++ digit_chars (repeat 0 (Z.to_nat (decpt - n))) ++ u ".0"
    else
      digit_chars (take (Z.to_nat decpt) ds) ++ u "."
      ++ digit_chars (drop (Z.to_nat decpt) ds)
  else
    let ex := (decpt - 1)%Z in
    let exd := N_digits (Z.to_N (Z.abs ex)) in
    let exd := match exd with [d] => [0; d] | _ => exd end in
    digit_chars (take 1 ds)
    ++ match drop 1 ds with [] => [] | t => u "." ++ digit_chars t end
    ++ u "e" ++ (if (ex <? 0)%Z then u "-" else u "+") ++ digit_chars exd.

(** [str(x)] for a float. *)
Definition str_of_float (x : float) : str :=
  match Prim2SF x with
  | S754_nan => u "nan"
  | S754_infinity s => if s then u "-inf" else u "inf"
  | S754_zero s => if s then u "-0.0" else u "0.0"
  | S754_finite s m e =>
    let '(ds, decpt) := shortest_digits m e in
    (if s then u "-" else []) ++ format_repr ds decpt
  end.

End PyFloat.

(* ===================================================================== *)
(** ** The program *)
(* ===================================================================== *)

Module Gate.
Import Text Re PyFloat.

#[global] Instance str_eq_dec : EqDecision str := list_eq_dec.
#[global] Instance str_countable : Countable str := list_countable.

(** The [ValueError]s of the program, by origin. *)
Inductive error : Type :=
| IntError (s : str)
| FloatError (s : str)
| IndexError (i : nat)
| InsufficientResponses (n_responses n_key : nat).

Inductive result (A : Type) : Type :=
| Ok (a : A)
| Raise (e : error).
Arguments Ok {A} a.
Arguments Raise {A} e.

Definition bind {A B : Type} (r : result A) (k : A → result B) : result B :=
  match r with
  | Ok a => k a
  | Raise e => Raise e
  end.

Notation "'let*' x ':=' r 'in' k" := (bind r (λ x, k))
  (at level 10, x pattern, r at level 100, k at level 200).

Definition py_int (s : str) : result Z :=
  match int s with
  | Some n => Ok n
  | None => Raise (IntError s)
  end.

Definition py_float (s : str) : result float :=
  match float_of_str s with
  | Some x => Ok x
  | None => Raise (FloatError s)
  end.

(** A loop whose body may raise. *)
Fixpoint for_each {A S : Type} (body : S → A → result S) (s : S) (xs : list A)
    : result S :=
  match xs with
  | [] => Ok s
  | x :: xs' => let* s' := body s x in for_each body s' xs'
  end.

(** The body of a loop that appends one result per element. *)
Definition collect {A B : Type} (f : A → result B) (rows : list B) (x : A)
    : result (list B) :=
  let* row := f x in Ok (rows ++ [row]).

(** *** Records *)

Module AnswerKeyEntry.
Record t : Type := mk {
  q_no : Z;
  q_type : str;
  section : str;
  key_raw : str
}.
End AnswerKeyEntry.

Module ResponseQuestion.
Record t : Type := mk {
  question_id : Z;
  q_type : str;
  status : str;
  chosen_labels : list str;
  given_answer : option float;
  option_map : gmap str str
}.
End ResponseQuestion.

Module EvaluationRow.
Record t : Type := mk {
  q_no : Z;
  question_id : Z;
  q_type : str;
  status : str;
  student_answer : str;
  correct_answer : str;
  marks : float;
  max_marks : float
}.
End EvaluationRow.

(** *** Helpers of the Python runtime *)

(** [needle in hay], for strings. *)
Fixpoint is_prefix (p s : str) : bool :=
  match p, s with
  | [], _ => true
  | _ :: _, [] => false
  | a :: p', b :: s' => (a =? b) && is_prefix p' s'
  end.
Fixpoint contains (needle hay : str) : bool :=
  is_prefix needle hay
  || match hay with
     | [] => false
     | _ :: t => contains needle t
     end.

(** [re.sub(pattern, repl, text)] for a pattern without empty matches. *)
Fixpoint sub_pieces (repl text : str) (ms : list rmatch_obj) (from : nat) : str :=
  match ms with
  | [] => drop from text
  | m :: ms' => slice from (m_start m) text ++ repl ++ sub_pieces repl text ms' (m_end m)
  end.
Definition re_sub (r : regex) (repl text : str) : str :=
  sub_pieces repl text (finditer r text) 0.

(** [sorted(xs, key=...)]: Python's sort is stable, so any stable sort
    gives the same list; this one inserts from the right. *)
Fixpoint insert_by {A : Type} (le : A → A → bool) (x : A) (l : list A) : list A :=
  match l with
  | [] => [x]
  | y :: t => if le x y then x :: l else y :: insert_by le x t
  end.
Definition sort_by {A : Type} (le : A → A → bool) (l : list A) : list A :=
  foldr (insert_by le) [] l.

(** *** [normalize_space] *)

(** The guard [value or (empty string)] is the identity on a [str]. *)
Definition normalize_space (value : str) : str :=
  strip (re_sub ws1 (u " ") value).

(** *** [parse_answer_key] *)

(** What [pdfplumber] hands over: pages of tables of rows of cells, a cell
    being a string or [None]. *)
Definition cell : Type := option str.
Definition row : Type := list cell.
Definition table : Type := list row.
Definition key_document : Type := list (list table).

Definition cell_text (c : option cell) : str :=
  normalize_space (default [] (default None c)).

Definition header_ok (header : list str) : bool :=
  negb ((length header <? 4)%nat
        || negb (contains (u "Q. No.") (default [] (header !! 0%nat)))
        || negb (contains (u "Q. Type") (default [] (header !! 1%nat)))).

(** The body of the loop over the rows of an accepted table. *)
Definition scan_row (entries : list AnswerKeyEntry.t) (r : row)
    : result (list AnswerKeyEntry.t) :=
  if (length r <? 4)%nat then Ok entries
  else
    let q_no_txt := cell_text (r !! 0%nat) in
    let q_type := cell_text (r !! 1%nat) in
    let section := cell_text (r !! 2%nat) in
    let key_raw := cell_text (r !! 3%nat) in
    if negb (isdigit q_no_txt) then Ok entries
    else
      let* n := py_int q_no_txt in
      Ok (entries ++ [AnswerKeyEntry.mk n (upper q_type) section key_raw]).

Definition scan_table (entries : list AnswerKeyEntry.t) (tb : table)
    : result (list AnswerKeyEntry.t) :=
  match tb with
  | [] | [_] => Ok entries
  | head :: rows =>
    let header := map (λ c, normalize_space (default [] c)) head in
    if header_ok header then for_each scan_row entries rows else Ok entries
  end.

Definition entry_le (a b : AnswerKeyEntry.t) : bool :=
  (AnswerKeyEntry.q_no a <=? AnswerKeyEntry.q_no b)%Z.

Definition parse_answer_key (pdf : key_document) : result (list AnswerKeyEntry.t) :=
  let* entries := for_each (for_each scan_table) [] pdf in
  Ok (sort_by entry_le entries).

(** *** [parse_mark_scheme] *)

Definition _mark_word_to_value (word : str) : option float :=
  let word := upper word in
  if decide (word = u "ONE") then Some 1%float
  else if decide (word = u "TWO") then Some 2%float
  else None.

Definition en_dash : char := 8211.
Definition hyphen : char := 45.

(** [Q\.\s*(\d+)\s*[–-]\s*Q\.\s*(\d+)\s*Carry\s*(ONE|TWO)\s*mark\s*Each]
    under [re.IGNORECASE]. *)
Definition band_pattern : regex :=
  cats [ilit "Q"; lit "."; ws; Grp 1 digits; ws;
        Chr (λ c, (c =? en_dash) || (c =? hyphen)); ws;
        ilit "Q"; lit "."; ws; Grp 2 digits; ws;
        ilit "Carry"; ws; Grp 3 (Alt (ilit "ONE") (ilit "TWO")); ws;
        ilit "mark"; ws; ilit "Each"].

(** [pattern.findall(text)] for the three groups of [band_pattern]. *)
Definition findall3 (r : regex) (text : str) : list (str * str * str) :=
  map (λ m, (group_or_empty text m 1, group_or_empty text m 2,
             group_or_empty text m 3)) (finditer r text).

(** [for q_no in range(start_q, end_q + 1): marks[q_no] = mark_val]. *)
Definition assign_range (marks : gmap Z float) (start_q end_q : Z) (v : float)
    : gmap Z float :=
  fold_left (λ m q_no, <[q_no := v]> m) (seqZ start_q (end_q + 1 - start_q)) marks.

(** The body of the loop over the matches of a page. *)
Definition scan_band (marks : gmap Z float) (mt : str * str * str)
    : result (gmap Z float) :=
  let '(start_txt, end_txt, mark_word) := mt in
  let* start_q := py_int start_txt in
  let* end_q := py_int end_txt in
  match _mark_word_to_value mark_word with
  | None => Ok marks
  | Some mark_val => Ok (assign_range marks start_q end_q mark_val)
  end.

(** The body of the loop over the pages; [page] is [page.extract_text()]. *)
Definition scan_page (marks : gmap Z float) (page : option str)
    : result (gmap Z float) :=
  let text := default [] page in
  for_each scan_band marks (findall3 band_pattern text).

Definition fallback_mark (q_no : Z) : float :=
  if ((q_no <=? 5) || ((11 <=? q_no) && (q_no <=? 35)))%Z then 1%float else 2%float.

Definition fill_missing (marks : gmap Z float) (total_questions : Z) : gmap Z float :=
  fold_left (λ m q_no, match m !! q_no with
                       | Some _ => m
                       | None => <[q_no := fallback_mark q_no]> m
                       end)
            (seqZ 1 (total_questions + 1 - 1)) marks.

Definition parse_mark_scheme (pdf : list (option str)) (total_questions : Z)
    : result (gmap Z float) :=
  let* marks := for_each scan_page ∅ pdf in
  if (Z.of_nat (size marks) <? total_questions)%Z
  then Ok (fill_missing marks total_questions)
  else Ok marks.

(** *** [_extract_option_map_from_text] *)

Definition not_space (c : char) : bool := negb (isspace c).
Definition in_a_d (c : char) : bool := in_range 97 100 c || in_range 65 68 c.

(** [{label}\s*\.\s*IMG_SRC:([^\s]+)] under [re.IGNORECASE]. *)
Definition option_pattern (label : string) : regex :=
  cats [ilit label; ws; lit "."; ws; ilit "IMG_SRC"; lit ":";
        Grp 1 (Plus (Chr not_space))].

(** [IMG_SRC:([^\s]+[a-dA-D]\.png)] under [re.IGNORECASE]. *)
Definition fallback_url_pattern : regex :=
  cats [ilit "IMG_SRC"; lit ":";
        Grp 1 (cats [Plus (Chr not_space); Chr in_a_d; lit "."; ilit "png"])].

Definition option_labels : list string := ["A"; "B"; "C"; "D"]%string.

Fixpoint unique_in_order (seen : gset str) (urls : list str) : list str :=
  match urls with
  | [] => []
  | url :: rest =>
    if decide (url ∈ seen) then unique_in_order seen rest
    else url :: unique_in_order ({[url]} ∪ seen) rest
  end.

Definition _extract_option_map_from_text (block_text : str) : gmap str str :=
  let option_map :=
    fold_left (λ om label,
                 match search (option_pattern label) block_text with
                 | Some m => <[u label := group_or_empty block_text m 1]> om
                 | None => om
                 end) option_labels ∅ in
  if decide (size option_map = 4%nat) then option_map
  else
    let fallback_urls :=
      map (λ m, group_or_empty block_text m 1)
          (finditer fallback_url_pattern block_text) in
    let unique_urls := unique_in_order ∅ fallback_urls in
    match unique_urls with
    | a :: b :: c :: d :: _ =>
      <[u "D" := d]> (<[u "C" := c]> (<[u "B" := b]> (<[u "A" := a]> ∅)))
    | _ => option_map
    end.

(** *** [parse_response_sheet], from the flattened text on *)

(** [_parse_float]. *)
Definition _parse_float (value : str) : option float := float_of_str value.

Definition status_phrases : regex :=
  Alt (ilit "Not Attempted and Marked For Review")
      (Alt (ilit "Marked For Review")
           (Alt (ilit "Not Answered") (ilit "Answered"))).

(** The anchor of a question:
    [Question\s*Type\s*:\s*(MCQ|MSQ|NAT)\s*Question\s*ID\s*:\s*(\d+)\s*Status\s*:\s*(...)]
    under [re.IGNORECASE]. *)
Definition start_pattern : regex :=
  cats [ilit "Question"; ws; ilit "Type"; ws; lit ":"; ws;
        Grp 1 (Alt (ilit "MCQ") (Alt (ilit "MSQ") (ilit "NAT"))); ws;
        ilit "Question"; ws; ilit "ID"; ws; lit ":"; ws; Grp 2 digits; ws;
        ilit "Status"; ws; lit ":"; ws; Grp 3 status_phrases].

(** The two spans of the anchor [start], number [index] among [starts]. *)
Record spans : Type := Spans {
  metadata_text : str;
  content_text : str
}.

Definition spans_at (flat_text : str) (starts : list rmatch_obj)
    (index : nat) (start : rmatch_obj) : spans :=
  let next_start :=
    match starts !! (index + 1)%nat with
    | Some nxt => m_start nxt
    | None => length flat_text
    end in
  let prev_end :=
    match index with
    | O => 0%nat
    | S i => match starts !! i with Some prv => m_end prv | None => 0%nat end
    end in
  {| metadata_text := slice (m_start start) next_start flat_text;
     content_text := slice prev_end (m_start start) flat_text |}.

Definition anchor_spans (flat_text : str) : list (rmatch_obj * spans) :=
  let starts := finditer start_pattern flat_text in
  imap (λ index start, (start, spans_at flat_text starts index start)) starts.

(** [Chosen\s*Option\s*:\s*(...)] where the group is [[A-D]] followed by
    any number of [\s*,\s*[A-D]], ignoring case. *)
Definition chosen_pattern : regex :=
  cats [ilit "Chosen"; ws; ilit "Option"; ws; lit ":"; ws;
        Grp 1 (Cat (Chr in_a_d)
                   (Star (cats [ws; lit ","; ws; Chr in_a_d])))].

Definition sign_char (c : char) : bool := (c =? 45) || (c =? 43).

(** [[-+]?\d+(?:\.\d+)?]. *)
Definition numeral : regex :=
  cats [Opt (Chr sign_char); digits; Opt (Cat (lit ".") digits)].

(** [Given\s*Answer\s*:\s*([-+]?\d+(?:\.\d+)?)], ignoring case. *)
Definition given_pattern : regex :=
  cats [ilit "Given"; ws; ilit "Answer"; ws; lit ":"; ws; Grp 1 numeral].

Definition is_choice_type (q_type : str) : bool :=
  bool_decide (q_type = u "MCQ") || bool_decide (q_type = u "MSQ").

(** The rest of the loop body: the record of one anchor. *)
Definition question_of_anchor (flat_text : str) (a : rmatch_obj * spans)
    : result ResponseQuestion.t :=
  let '(start, sp) := a in
  let q_type := upper (group_or_empty flat_text start 1) in
  let* question_id := py_int (group_or_empty flat_text start 2) in
  let status := group_or_empty flat_text start 3 in
  let chosen_labels :=
    if is_choice_type q_type then
      match search chosen_pattern (metadata_text sp) with
      | Some m =>
        map (λ part, upper (strip part))
            (filter (λ part, strip part ≠ [])
                    (split_on 44 (group_or_empty (metadata_text sp) m 1)))
      | None => []
      end
    else [] in
  let given_answer :=
    if bool_decide (q_type = u "NAT") then
      let answer_match :=
        match search given_pattern (content_text sp) with
        | Some m => Some (group_or_empty (content_text sp) m 1)
        | None =>
          match search given_pattern (metadata_text sp) with
          | Some m => Some (group_or_empty (metadata_text sp) m 1)
          | None => None
          end
        end in
      match answer_match with
      | Some txt => _parse_float txt
      | None => None
      end
    else None in
  let option_map :=
    if is_choice_type q_type
    then _extract_option_map_from_text (content_text sp) else ∅ in
  Ok (ResponseQuestion.mk question_id q_type status chosen_labels
                          given_answer option_map).

(** [flat_text] is [normalize_space(soup.get_text(" "))], after every image
    element was replaced by the token [IMG_SRC:src]. *)
Definition parse_flat_text (flat_text : str) : result (list ResponseQuestion.t) :=
  if negb (contains (u "Question Type") flat_text) then Ok []
  else
    for_each (collect (question_of_anchor flat_text)) [] (anchor_spans flat_text).

Definition parse_response_sheet (text : str) : result (list ResponseQuestion.t) :=
  parse_flat_text (normalize_space text).

(** *** [_label_to_master_option], [parse_nat_range] *)

(** [([a-dA-D])\.png(?:\?|$)]. *)
Definition master_pattern : regex :=
  cats [Grp 1 (Chr in_a_d); lit "."; lit "png"; Alt (lit "?") Eos].

Definition _label_to_master_option (option_map : gmap str str) (label : str)
    : option str :=
  match option_map !! label with
  | None => None
  | Some url =>
    match search master_pattern url with
    | None => None
    | Some m => Some (upper (group_or_empty url m 1))
    end
  end.

(** [([-+]?\d+(?:\.\d+)?)\s*to\s*([-+]?\d+(?:\.\d+)?)], ignoring case. *)
Definition nat_range_pattern : regex :=
  cats [Grp 1 numeral; ws; ilit "to"; ws; Grp 2 numeral].

Definition parse_nat_range (key_raw : str) : result (option float * option float) :=
  match search nat_range_pattern key_raw with
  | None => Ok (None, None)
  | Some m =>
    let* lo := py_float (group_or_empty key_raw m 1) in
    let* hi := py_float (group_or_empty key_raw m 2) in
    Ok (Some lo, Some hi)
  end.

(** *** [evaluate] *)

Definition placeholder : str := u "--".

(** Truth value of an [Optional[str]]: [None] and the empty string are
    false. *)
Definition truthy (o : option str) : option str :=
  match o with
  | Some (c :: t) => Some (c :: t)
  | _ => None
  end.

Definition response_le (a b : ResponseQuestion.t) : bool :=
  (ResponseQuestion.question_id a <=? ResponseQuestion.question_id b)%Z.

(** The tolerance of the numeric comparison: the binary64 value of the
    literal [1e-9]. *)
Definition tolerance : float := 0x1.12e0be826d695p-30%float.

Definition score_mcq (key_raw : str) (response : ResponseQuestion.t)
    (max_marks : float) : str * float :=
  match ResponseQuestion.chosen_labels response with
  | [] => (placeholder, 0%float)
  | first :: _ =>
    match truthy (_label_to_master_option (ResponseQuestion.option_map response) first) with
    | Some mapped =>
      (mapped, if decide (mapped = key_raw) then max_marks
               else (- (max_marks / 3))%float)
    | None => (placeholder, 0%float)
    end
  end.

(** The set comprehension over the chosen labels. *)
Definition mapped_answers (response : ResponseQuestion.t) : gset str :=
  list_to_set
    (omap (λ label, truthy (_label_to_master_option
                              (ResponseQuestion.option_map response) label))
          (ResponseQuestion.chosen_labels response)).

(** The set comprehension over the items of the key. *)
Definition correct_set (key_raw : str) : gset str :=
  list_to_set
    (map (λ item, upper (strip item))
         (filter (λ item, strip item ≠ []) (split_on 59 key_raw))).

Definition score_msq (key_raw : str) (response : ResponseQuestion.t)
    (max_marks : float) : str * float :=
  let mapped := mapped_answers response in
  let student_answer :=
    if decide (mapped = ∅) then placeholder
    else join (u ";") (sort_by str_leb (elements mapped)) in
  (student_answer,
   if decide (mapped = correct_set key_raw) then max_marks else 0%float).

Definition in_tolerance (lo hi given : float) : bool :=
  ((lo - tolerance <=? given) && (given <=? hi + tolerance))%float.

Definition score_nat (key_raw : str) (response : ResponseQuestion.t)
    (max_marks : float) : result (str * float) :=
  let* range := parse_nat_range key_raw in
  let '(lo, hi) := range in
  match ResponseQuestion.given_answer response with
  | None => Ok (placeholder, 0%float)
  | Some given =>
    Ok (str_of_float given,
        match lo, hi with
        | Some lo, Some hi =>
          if in_tolerance lo hi given then max_marks else 0%float
        | _, _ => 0%float
        end)
  end.

(** The branches on the type of the question; any other type keeps the
    placeholder and no marks. *)
Definition score (q_type key_raw : str) (response : ResponseQuestion.t)
    (max_marks : float) : result (str * float) :=
  if decide (q_type = u "MCQ") then Ok (score_mcq key_raw response max_marks)
  else if decide (q_type = u "MSQ") then Ok (score_msq key_raw response max_marks)
  else if decide (q_type = u "NAT") then score_nat key_raw response max_marks
  else Ok (placeholder, 0%float).

(** The body of the loop over the key entries. *)
Definition evaluate_row (mark_scheme : gmap Z float)
    (sorted_responses : list ResponseQuestion.t)
    (index : nat) (key_entry : AnswerKeyEntry.t) : result EvaluationRow.t :=
  let* response :=
    match sorted_responses !! index with
    | Some r => Ok r
    | None => Raise (IndexError index)
    end in
  let max_marks := default 1%float (mark_scheme !! AnswerKeyEntry.q_no key_entry) in
  let q_type := AnswerKeyEntry.q_type key_entry in
  let key_raw := AnswerKeyEntry.key_raw key_entry in
  let* scored := score q_type key_raw response max_marks in
  let '(student_answer, earned) := scored in
  Ok {| EvaluationRow.q_no := AnswerKeyEntry.q_no key_entry;
        EvaluationRow.question_id := ResponseQuestion.question_id response;
        EvaluationRow.q_type := q_type;
        EvaluationRow.status := ResponseQuestion.status response;
        EvaluationRow.student_answer := student_answer;
        EvaluationRow.correct_answer := key_raw;
        EvaluationRow.marks := earned;
        EvaluationRow.max_marks := max_marks |}.

Definition evaluate (answer_key : list AnswerKeyEntry.t)
    (mark_scheme : gmap Z float)
    (response_questions : list ResponseQuestion.t)
    : result (list EvaluationRow.t) :=
  let sorted_responses := sort_by response_le response_questions in
  if (length sorted_responses <? length answer_key)%nat
  then Raise (InsufficientResponses (length sorted_responses) (length answer_key))
  else
    for_each (collect (λ ik, evaluate_row mark_scheme sorted_responses
                                          (fst ik) (snd ik)))
             [] (imap pair answer_key).

(** *** Notions used to state the properties *)

(** The mark table of the data model: every value is 1.0 or 2.0. *)
Definition mark_table (mark_scheme : gmap Z float) : Prop :=
  ∀ q_no v, mark_scheme !! q_no = Some v → v = 1%float ∨ v = 2%float.

(** [row] is row number [index] of a successful evaluation, computed from
    the key entry [key_entry] and the response [response] paired with it. *)
Definition paired (answer_key : list AnswerKeyEntry.t)
    (mark_scheme : gmap Z float) (response_questions : list ResponseQuestion.t)
    (rows : list EvaluationRow.t) (index : nat)
    (key_entry : AnswerKeyEntry.t) (response : ResponseQuestion.t)
    (row : EvaluationRow.t) : Prop :=
  evaluate answer_key mark_scheme response_questions = Ok rows
  ∧ answer_key !! index = Some key_entry
  ∧ sort_by response_le response_questions !! index = Some response
  ∧ rows !! index = Some row.

(** The marks available for a key entry. *)
Definition marks_for (mark_scheme : gmap Z float) (key_entry : AnswerKeyEntry.t)
    : float :=
  default 1%float (mark_scheme !! AnswerKeyEntry.q_no key_entry).

(** The reference set of a multi-select key in the words of the
    specification: split on [;], trim, uppercase, deduplicate. *)
Definition spec_reference_set (key_raw : str) : gset str :=
  list_to_set (map (λ item, upper (strip item)) (split_on 59 key_raw)).

(** The question numbers of a key document: the digit-only first cells of
    the rows that [parse_answer_key] accepts, in document order. *)
Definition row_number_cell (r : row) : list str :=
  if (length r <? 4)%nat then []
  else let q_no_txt := cell_text (r !! 0%nat) in
       if isdigit q_no_txt then [q_no_txt] else [].

Definition table_number_cells (tb : table) : list str :=
  match tb with
  | [] | [_] => []
  | head :: rows =>
    if header_ok (map (λ c, normalize_space (default [] c)) head)
    then flat_map row_number_cell rows else []
  end.

Definition question_number_cells (pdf : key_document) : list str :=
  flat_map (flat_map table_number_cells) pdf.

(** A loop body of the extractor appends one entry per cell that [cells]
    lists, with the number of the cell. *)
Definition appends_cells {X : Type}
    (body : list AnswerKeyEntry.t → X → result (list AnswerKeyEntry.t))
    (cells : X → list str) : Prop :=
  ∀ entries x numbers,
    Forall2 (λ c n, int c = Some n) (cells x) numbers →
    ∃ added, body entries x = Ok (entries ++ added)
             ∧ map AnswerKeyEntry.q_no added = numbers.

(** A valid key document: its question numbers are integers, each used
    once. *)
Definition valid_key_document (pdf : key_document) : Prop :=
  ∃ numbers : list Z,
    Forall2 (λ c n, int c = Some n) (question_number_cells pdf) numbers
    ∧ NoDup numbers.

(** The mark-band declarations of a question paper, in page order. *)
Definition band_declarations (pdf : list (option str)) : list (str * str * str) :=
  flat_map (λ page, findall3 band_pattern (default [] page)) pdf.

(** A declaration whose question numbers all lie in [1..total_questions]. *)
Definition band_within (total_questions : Z) (mt : str * str * str) : Prop :=
  ∀ start_q end_q,
    int mt.1.1 = Some start_q → int mt.1.2 = Some end_q →
    (start_q ≤ end_q → 1 ≤ start_q ∧ end_q ≤ total_questions)%Z.

(** A declaration whose two numerals [int] converts. *)
Definition band_readable (mt : str * str * str) : Prop :=
  is_Some (int mt.1.1) ∧ is_Some (int mt.1.2).

(** The question numbers [1..total_questions]. *)
Definition question_numbers (total_questions : Z) : gset Z :=
  list_to_set (seqZ 1 total_questions).

(** The spans of the anchors, content before metadata, one anchor after
    the other. *)
Definition spans_in_order (flat_text : str) : str :=
  flat_map (λ a, content_text a.2 ++ metadata_text a.2) (anchor_spans flat_text).

End Gate.

(* ===================================================================== *)
(** ** Sample documents *)
(* ===================================================================== *)

Module Samples.
Import Text Re PyFloat Gate.

(** The option images of a question whose displayed options A, B, C, D
    are the canonical options c, a, d, b. *)
Definition shuffled_options : gmap str str :=
  <[u "A" := u "https://cdn.example/q7/opt_c.png"]>
  (<[u "B" := u "https://cdn.example/q7/opt_a.png"]>
  (<[u "C" := u "https://cdn.example/q7/opt_d.png"]>
  (<[u "D" := u "https://cdn.example/q7/opt_b.png"]> ∅))).

Definition mcq_key : AnswerKeyEntry.t :=
  AnswerKeyEntry.mk 1 (u "MCQ") (u "GA") (u "B").
Definition msq_key : AnswerKeyEntry.t :=
  AnswerKeyEntry.mk 2 (u "MSQ") (u "CS") (u "A;C").
Definition nat_key : AnswerKeyEntry.t :=
  AnswerKeyEntry.mk 3 (u "NAT") (u "CS") (u "10 to 10.5").
(** A multi-select key with a trailing separator, and an empty one. *)
Definition msq_key_trailing : AnswerKeyEntry.t :=
  AnswerKeyEntry.mk 1 (u "MSQ") (u "CS") (u "A;").
Definition msq_key_empty : AnswerKeyEntry.t :=
  AnswerKeyEntry.mk 1 (u "MSQ") (u "CS") [].

Definition answer_key : list AnswerKeyEntry.t := [mcq_key; msq_key; nat_key].

Definition mark_scheme : gmap Z float :=
  <[1%Z := 1%float]> (<[2%Z := 2%float]> (<[3%Z := 2%float]> ∅)).

(** Displayed A is canonical c: a wrong answer to [mcq_key]. *)
Definition mcq_wrong : ResponseQuestion.t :=
  ResponseQuestion.mk 101 (u "MCQ") (u "Answered") [u "A"] None shuffled_options.
(** Displayed D is canonical b: the right answer to [mcq_key]. *)
Definition mcq_right : ResponseQuestion.t :=
  ResponseQuestion.mk 101 (u "MCQ") (u "Answered") [u "D"] None shuffled_options.
(** Displayed B and A are canonical a and c: the right answer to [msq_key]. *)
Definition msq_right : ResponseQuestion.t :=
  ResponseQuestion.mk 102 (u "MSQ") (u "Answered") [u "A"; u "B"] None
                      shuffled_options.
(** Displayed B alone is canonical a. *)
Definition msq_subset : ResponseQuestion.t :=
  ResponseQuestion.mk 102 (u "MSQ") (u "Answered") [u "B"] None shuffled_options.
Definition msq_superset : ResponseQuestion.t :=
  ResponseQuestion.mk 102 (u "MSQ") (u "Answered") [u "A"; u "B"; u "C"] None
                      shuffled_options.
(** The numeric answers 10.5000000005 and 10.6. *)
Definition nat_close : ResponseQuestion.t :=
  ResponseQuestion.mk 103 (u "NAT") (u "Answered") []
                      (Some 0x1.5000000044b83p+3%float) ∅.
Definition nat_far : ResponseQuestion.t :=
  ResponseQuestion.mk 103 (u "NAT") (u "Answered") []
                      (Some 0x1.5333333333333p+3%float) ∅.
Definition not_answered (question_id : Z) (q_type : string) : ResponseQuestion.t :=
  ResponseQuestion.mk question_id (u q_type) (u "Not Answered") [] None ∅.

(** Response records as the segmenter emits them, not sorted by id. *)
Definition responses : list ResponseQuestion.t := [nat_close; mcq_wrong; msq_right].

Definition rows : list EvaluationRow.t :=
  Eval vm_compute in
    match evaluate answer_key mark_scheme responses with
    | Ok rows => rows
    | Raise _ => []
    end.

(** A question paper with a band that runs past the last question, one
    with a band in the plural, and the same band in the singular. *)
Definition paper_long_band : list (option str) :=
  [Some (u "General Aptitude Q.1 - Q.12 Carry ONE mark Each")].
Definition paper_plural : list (option str) :=
  [Some (u "Q.1 - Q.5 Carry TWO marks Each")].
Definition paper_singular : list (option str) :=
  [Some (u "Q.1 - Q.5 Carry TWO mark Each")].
Definition paper_plain : list (option str) :=
  [Some (u "Q.1 - Q.5 Carry ONE mark Each"); None;
   Some (u "q.4-q.6 carry two mark each")].

(** A flattened response sheet with two anchors. *)
Definition two_anchors : str :=
  u "Q1 Question Type : MCQ Question ID : 101 Status : Answered Chosen Option : A Q2 Given Answer : 7 Question Type : NAT Question ID : 103 Status : Not Answered".

(** A key document: one page, one table. *)
Definition key_pdf : key_document :=
  [[ [ [Some (u "Q. No."); Some (u "Q. Type"); Some (u "Section"); Some (u "Key")];
       [Some (u "2"); Some (u "msq"); Some (u "CS"); Some (u "A;C")];
       [Some (u "1"); Some (u "MCQ"); Some (u "GA"); Some (u "B")];
       [None; Some (u "page 1"); None; None];
       [Some (u "3"); Some (u "NAT"); Some (u "CS"); Some (u "10 to 10.5")] ] ]].

End Samples.

(* ===================================================================== *)
(** ** The pipeline *)
(* ===================================================================== *)

Module Pipeline.
Import Text Re PyFloat Gate.

(** How a run ends without a result: the two [ValueError]s that [run]
    raises itself, and the ones that escape from the functions it calls. *)
Inductive failure : Type :=
| CouldNotParseAnswerKey
| CouldNotParseResponseSheet
| Uncaught (e : error).

Inductive outcome : Type :=
| Printed (rows : list EvaluationRow.t)
| Failed (f : failure).

Definition lift {A : Type} (r : result A) (k : A → outcome) : outcome :=
  match r with
  | Ok a => k a
  | Raise e => Failed (Uncaught e)
  end.

(** [run], from the documents as the libraries hand them over:
    [response_text] is the text of the fetched page, images replaced by
    their tokens; the outcome holds the rows that the print functions
    receive. *)
Definition run (answer_key_pdf : key_document)
    (question_paper_pdf : list (option str)) (response_text : str) : outcome :=
  lift (parse_answer_key answer_key_pdf) (λ answer_key,
  match answer_key with
  | [] => Failed CouldNotParseAnswerKey
  | _ =>
    lift (parse_mark_scheme question_paper_pdf (Z.of_nat (length answer_key)))
         (λ mark_scheme,
    lift (parse_response_sheet response_text) (λ responses,
    match responses with
    | [] => Failed CouldNotParseResponseSheet
    | _ => lift (evaluate answer_key mark_scheme responses) Printed
    end))
  end).

End Pipeline.

(* ===================================================================== *)
(** ** Notions for the properties of the parsers *)
(* ===================================================================== *)

Module Notions.
Import Text Re PyFloat Gate.

(** The rows of a key document that the extractor turns into entries, in
    document order: what each one gives, an entry or the error of [int]. *)
Definition row_result (r : row) : list (result AnswerKeyEntry.t) :=
  if (length r <? 4)%nat then []
  else
    let q_no_txt := cell_text (r !! 0%nat) in
    if isdigit q_no_txt
    then [bind (py_int q_no_txt) (λ n,
            Ok (AnswerKeyEntry.mk n (upper (cell_text (r !! 1%nat)))
                                  (cell_text (r !! 2%nat))
                                  (cell_text (r !! 3%nat))))]
    else [].

Definition table_results (tb : table) : list (result AnswerKeyEntry.t) :=
  match tb with
  | [] | [_] => []
  | head :: rows =>
    if header_ok (map (λ c, normalize_space (default [] c)) head)
    then flat_map row_result rows else []
  end.

Definition document_results (pdf : key_document)
    : list (result AnswerKeyEntry.t) :=
  flat_map (flat_map table_results) pdf.

(** The entries of a list of results, up to the first error. *)
Fixpoint sequence {A : Type} (rs : list (result A)) : result (list A) :=
  match rs with
  | [] => Ok []
  | Ok a :: rs' => bind (sequence rs') (λ l, Ok (a :: l))
  | Raise e :: _ => Raise e
  end.

(** Each accepted row gives the entry with the number of its first cell,
    or the error of [int] on that cell. *)
Definition result_of_cell (c : str) (r : result AnswerKeyEntry.t) : Prop :=
  match int c with
  | Some n => ∃ entry, r = Ok entry ∧ AnswerKeyEntry.q_no entry = n
  | None => r = Raise (IntError c)
  end.

(** The first question-number cell that [int] rejects, with the error
    that it raises. *)
Definition first_unreadable (cells : list str) (e : error) : Prop :=
  ∃ before cell after,
    cells = before ++ cell :: after
    ∧ Forall (λ c, is_Some (int c)) before
    ∧ int cell = None
    ∧ e = IntError cell.

(** A key document with a question number written with a superscript
    digit, between two ordinary rows. *)
Definition key_header : row :=
  [Some (u "Q. No."); Some (u "Q. Type"); Some (u "Section"); Some (u "Key")].
Definition superscript_key : key_document :=
  [[[key_header;
     [Some (u "1"); Some (u "MCQ"); Some (u "GA"); Some (u "B")];
     [Some [178]; Some (u "MCQ"); Some (u "GA"); Some (u "C")];
     [Some (u "3"); Some (u "NAT"); Some (u "GA"); Some (u "1 to 2")]]]].

(** A key document with two questions. *)
Definition small_key : key_document :=
  [[[key_header;
     [Some (u "1"); Some (u "MCQ"); Some (u "GA"); Some (u "B")];
     [Some (u "2"); Some (u "NAT"); Some (u "GA"); Some (u "5 to 9")]]]].

(** A key document that uses a question number twice. *)
Definition repeated_key : key_document :=
  [[[key_header;
     [Some (u "2"); Some (u "MCQ"); Some (u "GA"); Some (u "B")];
     [Some (u "1"); Some (u "MCQ"); Some (u "GA"); Some (u "C")];
     [Some (u "2"); Some (u "MSQ"); Some (u "CS"); Some (u "A;D")]]]].

(** [takes r st st']: from [st] the matcher's first choice for [r] leads to
    [st'], so that the attempt succeeds with whatever the rest of the
    pattern finds from there; [fails r st]: [r] matches nothing at [st]. *)
Definition takes (r : regex) (st st' : mstate) : Prop :=
  ∀ k res, k st' = Some res → rmatch r st k = Some res.
Definition fails (r : regex) (st : mstate) : Prop :=
  ∀ k, rmatch r st k = None.

(** The state after [w], read from [st]. *)
Definition after (st : mstate) (w t : str) : mstate :=
  {| pos := pos st + length w; rest := t; caps := caps st |}.

(** A text that does not go on with a character of the class [q]. *)
Definition stops (q : char → bool) (t : str) : Prop :=
  match t with
  | [] => True
  | c :: _ => q c = false
  end.

(** A text whose whitespace is single spaces, each followed by another
    character or by the end of the text. *)
Fixpoint loosely_spaced (s : str) : bool :=
  match s with
  | [] => true
  | c :: t =>
    (negb (isspace c)
     || ((c =? 32) && match t with
                      | [] => true
                      | c' :: _ => negb (isspace c')
                      end))
    && loosely_spaced t
  end.

(** A text in the form that [normalize_space] produces: its only
    whitespace is single spaces between other characters. *)
Fixpoint single_spaced (s : str) : bool :=
  match s with
  | [] => true
  | c :: t =>
    match t with
    | [] => negb (isspace c)
    | c' :: _ =>
      (negb (isspace c) || ((c =? 32) && negb (isspace c')))
      && single_spaced t
    end
  end.
Definition normalized (s : str) : bool :=
  match s with
  | [] => true
  | c :: _ => negb (isspace c) && single_spaced s
  end.

(** Every whitespace run replaced by one space: what
    [re.sub(r"\s+", " ", value)] computes ([after_space] tells that the
    space of the current run is already out). *)
Fixpoint collapse (after_space : bool) (s : str) : str :=
  match s with
  | [] => []
  | c :: t =>
    if isspace c
    then if after_space then collapse true t else 32 :: collapse true t
    else c :: collapse false t
  end.

(** An address: not empty and free of whitespace. *)
Definition address (url : str) : Prop :=
  url ≠ [] ∧ Forall (λ c, isspace c = false) url.

(** A letter between whitespace. *)
Definition padded_letter (part : str) : Prop :=
  ∃ s1 c s2, part = s1 ++ c :: s2
             ∧ Forall (λ x, isspace x = true) s1
             ∧ Forall (λ x, isspace x = true) s2
             ∧ in_a_d c = true.

(** The numeral that the record of an anchor is built from: the one in the
    content span if there is one, else the one in the metadata span. *)
Definition given_numeral (sp : spans) : option str :=
  match search given_pattern (content_text sp) with
  | Some m => Some (group_or_empty (content_text sp) m 1)
  | None =>
    match search given_pattern (metadata_text sp) with
    | Some m => Some (group_or_empty (metadata_text sp) m 1)
    | None => None
    end
  end.

(** [w] is the word [word] in some mix of cases. *)
Definition folds_to (word : string) (w : str) : Prop :=
  Forall2 (λ c x, ieq c x = true) (u word) w.

(** A string of whitespace, and a numeral of decimal digits. *)
Definition blank (s : str) : Prop := Forall (λ c, isspace c = true) s.
Definition decimals (s : str) : Prop :=
  s ≠ [] ∧ Forall (λ c, isdecimal c = true) s.

(** A declaration of a mark band in the singular, with any whitespace
    between its parts and in any mix of cases. *)
Record band_text : Type := BandText {
  q_start : str; gap1 : str; start_txt : str; gap2 : str; dash : char;
  gap3 : str; q_end : str; gap4 : str; end_txt : str; gap5 : str;
  carry : str; gap6 : str; mark_word : str; gap7 : str; mark : str;
  gap8 : str; each : str
}.

Definition band_text_ok (d : band_text) : Prop :=
  folds_to "Q" (q_start d) ∧ folds_to "Q" (q_end d)
  ∧ folds_to "Carry" (carry d) ∧ folds_to "mark" (mark d)
  ∧ folds_to "Each" (each d)
  ∧ (folds_to "ONE" (mark_word d) ∨ folds_to "TWO" (mark_word d))
  ∧ (dash d = en_dash ∨ dash d = hyphen)
  ∧ decimals (start_txt d) ∧ decimals (end_txt d)
  ∧ Forall blank [gap1 d; gap2 d; gap3 d; gap4 d; gap5 d; gap6 d; gap7 d;
                  gap8 d].

Definition band_text_str (d : band_text) : str :=
  q_start d ++ u "." ++ gap1 d ++ start_txt d ++ gap2 d
  ++ dash d :: gap3 d ++ q_end d ++ u "." ++ gap4 d ++ end_txt d ++ gap5 d
  ++ carry d ++ gap6 d ++ mark_word d ++ gap7 d ++ mark d ++ gap8 d
  ++ each d.

(** The parts of a declaration before each of its three groups. *)
Definition before_start (d : band_text) : str :=
  q_start d ++ u "." ++ gap1 d.
Definition before_end (d : band_text) : str :=
  before_start d ++ start_txt d ++ gap2 d ++ dash d :: gap3 d ++ q_end d
  ++ u "." ++ gap4 d.
Definition before_word (d : band_text) : str :=
  before_end d ++ end_txt d ++ gap5 d ++ carry d ++ gap6 d.

(** The declaration [q.4-q.6 carry two  MARK each], the mark word on a new
    line. *)
Definition sample_band : band_text :=
  {| q_start := u "q"; gap1 := []; start_txt := u "4"; gap2 := [];
     dash := hyphen; gap3 := []; q_end := u "q"; gap4 := [];
     end_txt := u "6"; gap5 := u " "; carry := u "carry"; gap6 := [10];
     mark_word := u "two"; gap7 := u "  "; mark := u "MARK"; gap8 := u " ";
     each := u "each" |}.

(** The fields of a key entry as the extractor fills them. *)
Definition entry_ok (e : AnswerKeyEntry.t) : Prop :=
  (0 ≤ AnswerKeyEntry.q_no e)%Z
  ∧ (∃ t, normalized t = true ∧ AnswerKeyEntry.q_type e = upper t)
  ∧ normalized (AnswerKeyEntry.section e) = true
  ∧ normalized (AnswerKeyEntry.key_raw e) = true.

(** The four canonical letters. *)
Definition letters : list str := [u "A"; u "B"; u "C"; u "D"].

(** A response record as the segmenter builds them. *)
Definition well_formed (q : ResponseQuestion.t) : Prop :=
  ResponseQuestion.q_type q ∈ [u "MCQ"; u "MSQ"; u "NAT"]
  ∧ lang status_phrases (ResponseQuestion.status q)
  ∧ (0 ≤ ResponseQuestion.question_id q)%Z
  ∧ Forall (λ label, label ∈ letters) (ResponseQuestion.chosen_labels q)
  ∧ (∀ label url,
       ResponseQuestion.option_map q !! label = Some url →
       label ∈ letters ∧ url ≠ [] ∧ Forall (λ c, isspace c = false) url)
  ∧ (ResponseQuestion.q_type q = u "NAT" →
     ResponseQuestion.chosen_labels q = []
     ∧ ResponseQuestion.option_map q = ∅)
  ∧ (ResponseQuestion.q_type q ≠ u "NAT" →
     ResponseQuestion.given_answer q = None).

End Notions.

(* ===================================================================== *)
(** * Properties *)
(* ===================================================================== *)

Import Text Re PyFloat Gate.

(** ** The matcher *)

Section matcher.

(** A successful attempt is a run of the pattern that ends where the
    continuation succeeds. *)
Lemma star_loop_sound (r : regex) (n : nat) :
  (∀ st k res, rmatch r st k = Some res →
               ∃ st', run r st st' ∧ k st' = Some res) →
  ∀ st k res, star_loop (rmatch r) n st k = Some res →
              ∃ st', run (Star r) st st' ∧ k st' = Some res.
Proof.
  intros IHr. induction n as [|n IHn]; intros st k res H; simpl in H.
  - exists st. split; [constructor | exact H].
  - destruct (rmatch r st _) as [res'|] eqn:Hbody.
    + inversion H; subst res'. clear H.
      apply IHr in Hbody as (st1 & Hrun & Hk).
      destruct (pos st <? pos st1)%nat; [|discriminate].
      apply IHn in Hk as (st2 & Hstar & Hk).
      exists st2. split; [|exact Hk]. eapply run_star_more; eauto.
    + exists st. split; [constructor | exact H].
Qed.

Lemma rmatch_sound (r : regex) :
  ∀ st k res, rmatch r st k = Some res →
              ∃ st', run r st st' ∧ k st' = Some res.
Proof.
  induction r as [|p|r1 IH1 r2 IH2|r1 IH1 r2 IH2|r IH|i r IH|];
    intros st k res H; simpl in H.
  - exists st. split; [constructor | exact H].
  - destruct (rest st) as [|c t] eqn:Hrest; [discriminate|].
    destruct (p c) eqn:Hp; [|discriminate].
    exists (advance st t). split; [econstructor; eauto | exact H].
  - apply IH1 in H as (st1 & Hrun1 & H).
    apply IH2 in H as (st2 & Hrun2 & H).
    exists st2. split; [econstructor; eauto | exact H].
  - destruct (rmatch r1 st k) as [res'|] eqn:H1.
    + inversion H; subst res'.
      apply IH1 in H1 as (st' & Hrun & Hk).
      exists st'. split; [apply run_alt_l; exact Hrun | exact Hk].
    + apply IH2 in H as (st' & Hrun & Hk).
      exists st'. split; [apply run_alt_r; exact Hrun | exact Hk].
  - exact (star_loop_sound r (S (length (rest st))) IH st k res H).
  - apply IH in H as (st' & Hrun & Hk).
    exists (set_cap i (pos st) st'). split; [constructor; exact Hrun | exact Hk].
  - destruct (at_end (rest st)) eqn:Hend; [|discriminate].
    exists st. split; [constructor; exact Hend | exact H].
Qed.

(** A run consumes a word of the pattern's language. *)
Lemma run_span r st st' :
  run r st st' →
  ∃ w, lang r w ∧ rest st = w ++ rest st'
       ∧ pos st' = (pos st + length w)%nat.
Proof.
  induction 1 as [st|p c t st Hrest Hp|r1 r2 st st1 st2 _ IH1 _ IH2
                  |r1 r2 st st' _ IH|r1 r2 st st' _ IH|r st
                  |r st st1 st2 _ IH1 _ IH2|i r st st' _ IH|st Hrest].
  - exists []. simpl. repeat split; lia.
  - exists [c]. simpl. repeat split; eauto; lia.
  - destruct IH1 as (w1 & L1 & R1 & P1), IH2 as (w2 & L2 & R2 & P2).
    exists (w1 ++ w2). simpl. split; [eauto|].
    rewrite R1, R2, P2, P1, length_app, <- app_assoc. split; [done | lia].
  - destruct IH as (w & L & R & P). exists w. simpl. eauto.
  - destruct IH as (w & L & R & P). exists w. simpl. eauto.
  - exists []. simpl. split; [exists []; split; [done | constructor]|].
    split; [done | lia].
  - destruct IH1 as (w1 & L1 & R1 & P1), IH2 as (w2 & L2 & R2 & P2).
    destruct L2 as (ws & -> & Hws).
    exists (w1 ++ concat ws). split.
    + exists (w1 :: ws). split; [done | constructor; assumption].
    + rewrite R1, R2, P2, P1, length_app, <- app_assoc. split; [done | lia].
  - destruct IH as (w & L & R & P). exists w. simpl. eauto.
  - exists []. simpl. repeat split; lia.
Qed.

(** A run only adds spans of the pattern's own groups, in front. *)
Lemma run_caps r st st' :
  run r st st' →
  ∃ new, caps st' = new ++ caps st
         ∧ Forall (λ c, fst c ∈ groups r) new.
Proof.
  induction 1 as [st|p c t st Hrest Hp|r1 r2 st st1 st2 _ IH1 _ IH2
                  |r1 r2 st st' _ IH|r1 r2 st st' _ IH|r st
                  |r st st1 st2 _ IH1 _ IH2|i r st st' _ IH|st Hrest];
    simpl.
  - exists []. split; [done | constructor].
  - exists []. split; [done | constructor].
  - destruct IH1 as (n1 & C1 & F1), IH2 as (n2 & C2 & F2).
    exists (n2 ++ n1). rewrite C2, C1, app_assoc. split; [done|].
    apply Forall_app. split; eapply Forall_impl; eauto; simpl;
      intros; set_solver.
  - destruct IH as (n & C & F). exists n. split; [done|].
    eapply Forall_impl; eauto; simpl; intros; set_solver.
  - destruct IH as (n & C & F). exists n. split; [done|].
    eapply Forall_impl; eauto; simpl; intros; set_solver.
  - exists []. split; [done | constructor].
  - destruct IH1 as (n1 & C1 & F1), IH2 as (n2 & C2 & F2).
    exists (n2 ++ n1). rewrite C2, C1, app_assoc. split; [done|].
    apply Forall_app. split; assumption.
  - destruct IH as (n & C & F).
    exists ((i, (pos st, pos st')) :: n). rewrite C. split; [done|].
    constructor; [simpl; set_solver|].
    eapply Forall_impl; eauto; simpl; intros; set_solver.
  - exists []. split; [done | constructor].
Qed.

End matcher.

(** ** Match objects *)

Section match_objects.

Lemma run_anchored text r st st' :
  run r st st' → anchored text st → anchored text st'.
Proof.
  intros Hrun Ha. unfold anchored in *.
  apply run_span in Hrun as (w & _ & Hrest & Hpos).
  rewrite Hpos, <- drop_drop, Ha, Hrest.
  by rewrite drop_app_length.
Qed.

(** What a run consumes is the slice of the text between its ends. *)
Lemma run_slice text r st st' :
  run r st st' → anchored text st →
  lang r (slice (pos st) (pos st') text) ∧ (pos st ≤ pos st')%nat.
Proof.
  intros Hrun Ha. unfold anchored in Ha.
  apply run_span in Hrun as (w & Hl & Hrest & Hpos).
  unfold slice. rewrite Ha, Hrest, Hpos.
  replace (pos st + length w - pos st)%nat with (length w) by lia.
  rewrite take_app_length. split; [exact Hl | lia].
Qed.

Lemma match_at_run r p s m :
  match_at r p s = Some m →
  ∃ st', run r {| pos := p; rest := s; caps := [] |} st'
         ∧ m = {| m_start := p; m_end := pos st'; m_caps := caps st' |}.
Proof.
  unfold match_at. intros H.
  destruct (rmatch r _ Some) as [st|] eqn:Hm; [|discriminate].
  apply rmatch_sound in Hm as (st' & Hrun & Hk).
  inversion Hk; subst st'. inversion H. eauto.
Qed.

Lemma match_at_bounds r p s m :
  match_at r p s = Some m →
  m_start m = p ∧ (p ≤ m_end m ≤ p + length s)%nat.
Proof.
  intros H. apply match_at_run in H as (st' & Hrun & ->). simpl.
  apply run_span in Hrun as (w & _ & Hrest & Hpos). simpl in *.
  split; [done|]. rewrite Hpos.
  apply (f_equal length) in Hrest. rewrite length_app in Hrest. lia.
Qed.

Lemma search_from_at r s :
  ∀ p m, search_from r p s = Some m →
         ∃ k, (k ≤ length s)%nat ∧ match_at r (p + k) (drop k s) = Some m.
Proof.
  induction s as [|c t IH]; intros p m H; simpl in H.
  - destruct (match_at r p []) eqn:Hm; [|discriminate].
    exists 0%nat. rewrite Nat.add_0_r. simpl. split; [lia | congruence].
  - destruct (match_at r p (c :: t)) eqn:Hm.
    + exists 0%nat. rewrite Nat.add_0_r. simpl. split; [lia | congruence].
    + apply IH in H as (k & Hk & H). exists (S k). simpl.
      split; [lia|]. by replace (p + S k)%nat with (S p + k)%nat by lia.
Qed.

(** A match found by [search] is a run of the pattern from a state
    anchored at [m.start()], with no group set. *)
Lemma search_run r text m :
  search r text = Some m →
  ∃ st0 st', anchored text st0 ∧ caps st0 = [] ∧ pos st0 = m_start m
             ∧ run r st0 st' ∧ pos st' = m_end m ∧ caps st' = m_caps m.
Proof.
  unfold search. intros H.
  apply search_from_at in H as (k & Hk & H). simpl in H.
  apply match_at_run in H as (st' & Hrun & ->).
  exists {| pos := k; rest := drop k text; caps := [] |}, st'.
  simpl. unfold anchored. simpl. eauto 10.
Qed.

Lemma chained_weaken lo lo' hi ms :
  (lo ≤ lo')%nat → chained lo' hi ms → chained lo hi ms.
Proof. destruct ms as [|m ms]; simpl; [done|]. intros ? [? ?]. split; [lia|done]. Qed.

(** The matches of [finditer] come in text order and do not overlap. *)
Lemma scan_chained r s :
  ∀ p skip, chained (p + skip) (p + length s) (scan r p s skip).
Proof.
  induction s as [|c t IH]; intros p skip; simpl.
  - destruct skip; simpl; [|done].
    destruct (match_at r p []) as [m|] eqn:Hm; simpl; [|done].
    apply match_at_bounds in Hm as [-> ?]. simpl in *. lia.
  - destruct skip as [|skip].
    + destruct (match_at r p (c :: t)) as [m|] eqn:Hm; simpl.
      * apply match_at_bounds in Hm as [Hs ?]. simpl in *.
        split; [lia|].
        eapply chained_weaken; [|replace (p + S (length t))%nat
          with (S p + length t)%nat by lia; apply IH]. lia.
      * eapply chained_weaken; [|replace (p + S (length t))%nat
          with (S p + length t)%nat by lia; apply IH]. lia.
    + replace (p + S skip)%nat with (S p + skip)%nat by lia.
      replace (p + S (length t))%nat with (S p + length t)%nat by lia.
      apply IH.
Qed.

Lemma finditer_chained r text :
  chained 0 (length text) (finditer r text).
Proof. apply (scan_chained r text 0 0). Qed.

Lemma scan_run r text s :
  ∀ p skip m, drop p text = s → m ∈ scan r p s skip →
    ∃ st0 st', anchored text st0 ∧ caps st0 = [] ∧ pos st0 = m_start m
               ∧ run r st0 st' ∧ pos st' = m_end m ∧ caps st' = m_caps m.
Proof.
  assert (Hat : ∀ p s m, drop p text = s → match_at r p s = Some m →
    ∃ st0 st', anchored text st0 ∧ caps st0 = [] ∧ pos st0 = m_start m
               ∧ run r st0 st' ∧ pos st' = m_end m ∧ caps st' = m_caps m).
  { intros p s' m Hd Hm. apply match_at_run in Hm as (st' & Hrun & ->).
    exists {| pos := p; rest := s'; caps := [] |}, st'.
    unfold anchored. simpl. eauto 10. }
  assert (Hstep : ∀ p c t, drop p text = c :: t → drop (S p) text = t).
  { intros p c t Hd. replace (S p) with (p + 1)%nat by lia.
    by rewrite <- drop_drop, Hd. }
  induction s as [|c t IH]; intros p skip m Hd Hin; simpl in Hin.
  - destruct skip; [|by apply elem_of_nil in Hin].
    destruct (match_at r p []) as [m'|] eqn:Hm; [|by apply elem_of_nil in Hin].
    apply list_elem_of_singleton in Hin as ->. eauto.
  - destruct skip as [|skip].
    + destruct (match_at r p (c :: t)) as [m'|] eqn:Hm.
      * apply elem_of_cons in Hin as [->|Hin]; [eauto|].
        eapply IH; eauto.
      * eapply IH; eauto.
    + eapply IH; eauto.
Qed.

Lemma finditer_run r text m :
  m ∈ finditer r text →
  ∃ st0 st', anchored text st0 ∧ caps st0 = [] ∧ pos st0 = m_start m
             ∧ run r st0 st' ∧ pos st' = m_end m ∧ caps st' = m_caps m.
Proof. apply (scan_run r text text 0 0 m). done. Qed.

End match_objects.

(** ** What the groups of the program's patterns hold *)

Section groups.

Lemma run_cat_inv r1 r2 st st2 :
  run (Cat r1 r2) st st2 → ∃ st1, run r1 st st1 ∧ run r2 st1 st2.
Proof. inversion 1; subst. eauto. Qed.

Lemma run_grp_inv i r st st' :
  run (Grp i r) st st' →
  ∃ st1, run r st st1 ∧ st' = set_cap i (pos st) st1.
Proof. inversion 1; subst. eauto. Qed.

Lemma find_cap (new old : list (nat * (nat * nat))) i sp (G : list nat) :
  Forall (λ c, fst c ∈ G) new → i ∉ G →
  List.find (λ c, Nat.eqb (fst c) i) (new ++ (i, sp) :: old) = Some (i, sp).
Proof.
  intros Hnew Hi. induction Hnew as [|c new Hc _ IH]; simpl.
  - by rewrite Nat.eqb_refl.
  - destruct (Nat.eqb_spec (fst c) i) as [<-|_]; [done | exact IH].
Qed.

(** The group that closes a pattern holds what its body consumed. *)
Lemma group_last text i r st st' m :
  run (Grp i r) st st' → anchored text st → m_caps m = caps st' →
  ∃ w, lang r w ∧ group text m i = Some w.
Proof.
  intros Hrun Ha Hm. apply run_grp_inv in Hrun as (st1 & Hrun & ->).
  destruct (run_slice text _ _ _ Hrun Ha) as [Hl _].
  exists (slice (pos st) (pos st1) text). split; [exact Hl|].
  unfold group. rewrite Hm. simpl. by rewrite Nat.eqb_refl.
Qed.

(** The group that opens a pattern holds what its body consumed, when
    the rest of the pattern does not set it again. *)
Lemma group_first text i r rest_pattern st st' m :
  run (Cat (Grp i r) rest_pattern) st st' → anchored text st →
  i ∉ groups rest_pattern → m_caps m = caps st' →
  ∃ w, lang r w ∧ group text m i = Some w.
Proof.
  intros Hrun Ha Hi Hm.
  apply run_cat_inv in Hrun as (st1 & Hg & Hrest).
  apply run_grp_inv in Hg as (st0 & Hrun & ->).
  destruct (run_slice text _ _ _ Hrun Ha) as [Hl _].
  apply run_caps in Hrest as (new & Hcaps & Hnew).
  exists (slice (pos st) (pos st0) text). split; [exact Hl|].
  unfold group. rewrite Hm, Hcaps. simpl.
  by rewrite (find_cap _ _ _ _ _ Hnew Hi).
Qed.

Lemma lang_star_chr p w :
  lang (Star (Chr p)) w → Forall (λ c, p c = true) w.
Proof.
  intros (ws & -> & Hws). induction Hws as [|x ws Hx _ IH]; simpl.
  - constructor.
  - destruct Hx as (c & -> & Hc). simpl. by constructor.
Qed.

Lemma lang_digits w :
  lang digits w → w ≠ [] ∧ Forall (λ c, isdecimal c = true) w.
Proof.
  intros (w1 & w2 & -> & (c & -> & Hc) & Hstar).
  apply lang_star_chr in Hstar. split; [done|]. by constructor.
Qed.

Lemma isdecimal_value c : isdecimal c = true → is_Some (decimal_value c).
Proof. unfold isdecimal. destruct (decimal_value c); [eauto | discriminate]. Qed.

Lemma digits_of_decimals ds :
  ds ≠ [] → Forall (λ c, isdecimal c = true) ds → is_Some (digits_of ds).
Proof.
  intros Hne Hds. destruct ds as [|d ds]; [done|].
  unfold digits_of. apply mapM_is_Some.
  eapply Forall_impl; [exact Hds|]. intros c Hc. by apply isdecimal_value.
Qed.

Lemma split_on_cons sep s : ∃ hd tl, split_on sep s = hd :: tl.
Proof.
  induction s as [|c t (hd & tl & IH)]; simpl; [eauto|].
  destruct (c =? sep); [eauto|]. rewrite IH. eauto.
Qed.

Lemma split_on_prefix sep ds s hd tl :
  Forall (λ c, c ≠ sep) ds → split_on sep s = hd :: tl →
  split_on sep (ds ++ s) = (ds ++ hd) :: tl.
Proof.
  intros Hds Hs. induction Hds as [|d ds Hd _ IH]; simpl; [done|].
  apply N.eqb_neq in Hd. by rewrite Hd, IH.
Qed.

Lemma decimal_not_punct c :
  isdecimal c = true → c ≠ 46 ∧ c ≠ 45 ∧ c ≠ 43.
Proof. intros H. repeat split; intros ->; vm_compute in H; discriminate. Qed.

Lemma decimals_no_point ds :
  Forall (λ c, isdecimal c = true) ds → Forall (λ c, c ≠ 46) ds.
Proof.
  intros H. eapply Forall_impl; [exact H|].
  intros c Hc. by apply decimal_not_punct in Hc as [? _].
Qed.

Lemma split_on_decimals ds :
  Forall (λ c, isdecimal c = true) ds → split_on 46 ds = [ds].
Proof.
  intros H. rewrite <- (app_nil_r ds) at 1.
  rewrite (split_on_prefix 46 ds [] [] []);
    [by rewrite app_nil_r | by apply decimals_no_point | done].
Qed.

(** [float] accepts digits with an optional fraction ... *)
Lemma float_of_unsigned neg ds frac :
  ds ≠ [] → Forall (λ c, isdecimal c = true) ds →
  (frac = [] ∨ ∃ fs, frac = 46 :: fs ∧ fs ≠ []
                     ∧ Forall (λ c, isdecimal c = true) fs) →
  is_Some (float_of_body neg (ds ++ frac)).
Proof.
  unfold float_of_body.
  intros Hne Hds [-> | (fs & -> & Hfne & Hfs)].
  - rewrite app_nil_r, split_on_decimals by done.
    destruct (digits_of_decimals ds Hne Hds) as [d ->]. simpl. eauto.
  - rewrite (split_on_prefix 46 ds (46 :: fs) [] [fs]);
      [|by apply decimals_no_point|].
    + rewrite app_nil_r.
      destruct (digits_of_decimals ds Hne Hds) as [d ->].
      destruct (digits_of_decimals fs Hfne Hfs) as [f ->]. simpl. eauto.
    + simpl. by rewrite split_on_decimals.
Qed.

(** ... and hence every numeral that the patterns capture. *)
Lemma float_of_numeral w : lang numeral w → is_Some (float_of_str w).
Proof.
  intros (sg & w1 & -> & Hsg & ds & frac & -> & Hds & Hfrac).
  apply lang_digits in Hds as [Hne Hds].
  assert (Hf : frac = [] ∨ ∃ fs, frac = 46 :: fs ∧ fs ≠ []
                                 ∧ Forall (λ c, isdecimal c = true) fs).
  { destruct Hfrac as [(p & fs & -> & (c & -> & Hc) & Hfs) | ->]; [|by left].
    right. apply N.eqb_eq in Hc as <-.
    apply lang_digits in Hfs as [? ?]. eauto. }
  unfold float_of_str.
  destruct Hsg as [(c & -> & Hc) | ->].
  - assert (c = 45 ∨ c = 43) as [-> | ->].
    { unfold sign_char in Hc. apply orb_true_iff in Hc as [Hc|Hc];
        apply N.eqb_eq in Hc; auto. }
    + apply (float_of_unsigned true ds frac Hne Hds Hf).
    + apply (float_of_unsigned false ds frac Hne Hds Hf).
  - destruct ds as [|d ds]; [done|].
    apply Forall_cons in Hds as Hd. destruct Hd as [Hd _].
    apply decimal_not_punct in Hd as (_ & H45 & H43).
    apply N.eqb_neq in H45, H43.
    change ([] ++ (d :: ds) ++ frac) with (d :: (ds ++ frac)).
    unfold split_sign. rewrite H45, H43.
    apply (float_of_unsigned false (d :: ds) frac Hne Hds Hf).
Qed.

(** [parse_nat_range] never raises. *)
Lemma parse_nat_range_ok key_raw :
  parse_nat_range key_raw = Ok (None, None)
  ∨ ∃ lo hi, parse_nat_range key_raw = Ok (Some lo, Some hi).
Proof.
  unfold parse_nat_range.
  destruct (search nat_range_pattern key_raw) as [m|] eqn:Hs; [|by left].
  right. apply search_run in Hs as (st0 & st' & Ha & _ & _ & Hrun & _ & Hc).
  assert (H1 : ∃ w, lang numeral w ∧ group key_raw m 1 = Some w).
  { unfold nat_range_pattern in Hrun. cbn [cats] in Hrun.
    eapply (group_first key_raw 1); [exact Hrun | exact Ha | | by symmetry].
    replace (groups _) with [2%nat] by reflexivity.
    intros H. apply list_elem_of_singleton in H. discriminate. }
  assert (H2 : ∃ w, lang numeral w ∧ group key_raw m 2 = Some w).
  { unfold nat_range_pattern in Hrun. cbn [cats] in Hrun.
    apply run_cat_inv in Hrun as (s1 & R1 & Hrun).
    apply run_cat_inv in Hrun as (s2 & R2 & Hrun).
    apply run_cat_inv in Hrun as (s3 & R3 & Hrun).
    apply run_cat_inv in Hrun as (s4 & R4 & Hrun).
    eapply group_last; [exact Hrun | | by symmetry].
    repeat (eapply run_anchored; [eassumption|]). exact Ha. }
  destruct H1 as (w1 & L1 & G1), H2 as (w2 & L2 & G2).
  unfold group_or_empty. rewrite G1, G2. simpl.
  destruct (float_of_numeral w1 L1) as [lo Hlo].
  destruct (float_of_numeral w2 L2) as [hi Hhi].
  unfold py_float. rewrite Hlo, Hhi. simpl. eauto.
Qed.

End groups.

(** ** Sorting and loops *)

Section sorting.
Context {A : Type} (le : A → A → bool).

Lemma insert_by_perm x l : insert_by le x l ≡ₚ x :: l.
Proof.
  induction l as [|y t IH]; simpl; [done|].
  destruct (le x y); [done|]. rewrite IH. apply Permutation_swap.
Qed.

Lemma sort_by_perm l : sort_by le l ≡ₚ l.
Proof.
  induction l as [|x l IH]; simpl; [done|].
  rewrite insert_by_perm. by f_equiv.
Qed.

Lemma sort_by_length l : length (sort_by le l) = length l.
Proof. by rewrite sort_by_perm. Qed.

Hypothesis le_total : ∀ x y, le x y = true ∨ le y x = true.
Hypothesis le_trans : ∀ x y z, le x y = true → le y z = true → le x z = true.

Lemma insert_by_sorted x l :
  StronglySorted (λ a b, le a b = true) l →
  StronglySorted (λ a b, le a b = true) (insert_by le x l).
Proof.
  induction 1 as [|y t Hs IH Hy]; simpl.
  - repeat constructor.
  - destruct (le x y) eqn:Hxy.
    + constructor; [by constructor|].
      constructor; [done|]. eapply Forall_impl; [exact Hy|].
      intros z Hz. eauto.
    + constructor; [exact IH|].
      rewrite insert_by_perm. constructor; [|exact Hy].
      destruct (le_total x y); congruence.
Qed.

Lemma sort_by_sorted l : StronglySorted (λ a b, le a b = true) (sort_by le l).
Proof.
  induction l as [|x l IH]; simpl; [constructor|].
  by apply insert_by_sorted.
Qed.
End sorting.

Section loops.
Context {A B : Type} (f : A → result B).

Lemma for_each_collect_ok xs :
  ∀ acc, (∀ x, x ∈ xs → ∃ r, f x = Ok r) →
  ∃ rs, for_each (collect f) acc xs = Ok (acc ++ rs)
        ∧ Forall2 (λ x r, f x = Ok r) xs rs.
Proof.
  induction xs as [|x xs IH]; intros acc Hall; simpl.
  - exists []. rewrite app_nil_r. split; [done | constructor].
  - destruct (Hall x) as [r Hr]; [by left|].
    unfold collect at 1. rewrite Hr. simpl.
    destruct (IH (acc ++ [r])) as (rs & Heq & Hrs).
    { intros y Hy. apply Hall. by right. }
    exists (r :: rs). rewrite Heq, <- app_assoc. split; [done|].
    by constructor.
Qed.

Lemma for_each_collect_inv xs :
  ∀ acc out, for_each (collect f) acc xs = Ok out →
  ∃ rs, out = acc ++ rs ∧ Forall2 (λ x r, f x = Ok r) xs rs.
Proof.
  induction xs as [|x xs IH]; intros acc out H; simpl in H.
  - inversion H. exists []. rewrite app_nil_r. split; [done | constructor].
  - unfold collect at 1 in H. destruct (f x) as [r|e] eqn:Hr; [|discriminate].
    simpl in H. apply IH in H as (rs & -> & Hrs).
    exists (r :: rs). rewrite <- app_assoc. split; [done|]. by constructor.
Qed.
End loops.

(** ** The scoring engine *)

Section scoring.

(** A resolved option is one of the four canonical letters. *)
Lemma label_to_master_option_letter option_map label letter :
  _label_to_master_option option_map label = Some letter →
  letter ∈ [u "A"; u "B"; u "C"; u "D"].
Proof.
  unfold _label_to_master_option.
  destruct (option_map !! label) as [url|]; [|discriminate].
  destruct (search master_pattern url) as [m|] eqn:Hs; [|discriminate].
  intros [= <-].
  apply search_run in Hs as (st0 & st' & Ha & _ & _ & Hrun & _ & Hc).
  unfold master_pattern in Hrun. cbn [cats] in Hrun.
  destruct (group_first url 1 _ _ _ _ m Hrun Ha) as (w & (c & -> & Hin) & Hg);
    [|by symmetry|].
  { replace (groups _) with (@nil nat) by reflexivity. apply not_elem_of_nil. }
  unfold group_or_empty. rewrite Hg. simpl.
  assert (Hc8 : c = 97 ∨ c = 98 ∨ c = 99 ∨ c = 100
                ∨ c = 65 ∨ c = 66 ∨ c = 67 ∨ c = 68).
  { unfold in_a_d, in_range in Hin.
    apply orb_true_iff in Hin as [Hin|Hin];
      apply andb_true_iff in Hin as [H1 H2];
      apply N.leb_le in H1, H2; lia. }
  destruct Hc8 as [->|[->|[->|[->|[->|[->|[->| ->]]]]]]];
    vm_compute; set_solver.
Qed.

Lemma truthy_letter option_map label letter :
  _label_to_master_option option_map label = Some letter →
  truthy (Some letter) = Some letter.
Proof.
  intros H. apply label_to_master_option_letter in H.
  destruct letter; [|done]. exfalso.
  repeat (apply elem_of_cons in H as [H|H]; [discriminate|]).
  by apply elem_of_nil in H.
Qed.

(** Scoring a pair never raises. *)
Lemma score_ok q_type key_raw response max_marks :
  ∃ student_answer earned,
    score q_type key_raw response max_marks = Ok (student_answer, earned).
Proof.
  unfold score. repeat case_decide.
  - destruct (score_mcq _ _ _); eauto.
  - destruct (score_msq _ _ _); eauto.
  - unfold score_nat.
    destruct (parse_nat_range_ok key_raw) as [-> | (lo & hi & ->)]; simpl;
      destruct (ResponseQuestion.given_answer response); eauto.
  - eauto.
Qed.

Lemma evaluate_row_inv mark_scheme sorted index key_entry row :
  evaluate_row mark_scheme sorted index key_entry = Ok row →
  ∃ response,
    sorted !! index = Some response
    ∧ score (AnswerKeyEntry.q_type key_entry) (AnswerKeyEntry.key_raw key_entry)
            response (marks_for mark_scheme key_entry)
      = Ok (EvaluationRow.student_answer row, EvaluationRow.marks row)
    ∧ EvaluationRow.max_marks row = marks_for mark_scheme key_entry
    ∧ EvaluationRow.q_no row = AnswerKeyEntry.q_no key_entry
    ∧ EvaluationRow.question_id row = ResponseQuestion.question_id response
    ∧ EvaluationRow.q_type row = AnswerKeyEntry.q_type key_entry
    ∧ EvaluationRow.status row = ResponseQuestion.status response
    ∧ EvaluationRow.correct_answer row = AnswerKeyEntry.key_raw key_entry.
Proof.
  unfold evaluate_row, marks_for.
  destruct (sorted !! index) as [response|]; [|discriminate]. simpl.
  destruct (score _ _ _ _) as [[sa earned]|e] eqn:Hs; [|discriminate]. simpl.
  intros [= <-]. exists response. simpl. repeat split; done.
Qed.

Lemma evaluate_row_ok mark_scheme sorted index key_entry :
  (index < length sorted)%nat →
  ∃ row, evaluate_row mark_scheme sorted index key_entry = Ok row.
Proof.
  intros Hlt. unfold evaluate_row.
  destruct (lookup_lt_is_Some_2 sorted index Hlt) as [response ->]. simpl.
  destruct (score_ok (AnswerKeyEntry.q_type key_entry)
              (AnswerKeyEntry.key_raw key_entry) response
              (default 1%float (mark_scheme !! AnswerKeyEntry.q_no key_entry)))
    as (sa & earned & ->).
  simpl. eauto.
Qed.

Lemma evaluate_inv answer_key mark_scheme response_questions rows :
  evaluate answer_key mark_scheme response_questions = Ok rows →
  (length answer_key ≤ length response_questions)%nat
  ∧ Forall2 (λ ik row,
               evaluate_row mark_scheme (sort_by response_le response_questions)
                            ik.1 ik.2 = Ok row)
            (imap pair answer_key) rows.
Proof.
  unfold evaluate. rewrite sort_by_length.
  destruct (Nat.ltb_spec (length response_questions) (length answer_key))
    as [Hlt|Hge]; [discriminate|].
  intros Hrows. split; [done|].
  apply for_each_collect_inv in Hrows as (rs & -> & Hrs). exact Hrs.
Qed.

Lemma paired_row answer_key mark_scheme response_questions rows index
    key_entry response row :
  paired answer_key mark_scheme response_questions rows index
         key_entry response row →
  evaluate_row mark_scheme (sort_by response_le response_questions)
               index key_entry = Ok row.
Proof.
  intros (Hev & Hk & _ & Hrow).
  apply evaluate_inv in Hev as [_ Hall].
  assert (Hik : imap pair answer_key !! index = Some (index, key_entry)).
  { by rewrite list_lookup_imap, Hk. }
  destruct (Forall2_lookup_l _ _ _ _ _ Hall Hik) as (row' & Hrow' & Hr).
  simpl in Hr. congruence.
Qed.

(** The score of a paired row. *)
Lemma paired_score answer_key mark_scheme response_questions rows index
    key_entry response row :
  paired answer_key mark_scheme response_questions rows index
         key_entry response row →
  score (AnswerKeyEntry.q_type key_entry) (AnswerKeyEntry.key_raw key_entry)
        response (marks_for mark_scheme key_entry)
  = Ok (EvaluationRow.student_answer row, EvaluationRow.marks row)
  ∧ EvaluationRow.max_marks row = marks_for mark_scheme key_entry
  ∧ EvaluationRow.q_type row = AnswerKeyEntry.q_type key_entry.
Proof.
  intros Hp. pose proof (paired_row _ _ _ _ _ _ _ _ Hp) as Hrow.
  destruct Hp as (_ & _ & Hr & _).
  apply evaluate_row_inv in Hrow as (r' & Hr' & Hs & Hm & _ & _ & Ht & _).
  assert (r' = response) as -> by congruence. done.
Qed.

(** Every row of an evaluation is paired with a key entry and a
    response. *)
Lemma rows_paired answer_key mark_scheme response_questions rows index row :
  evaluate answer_key mark_scheme response_questions = Ok rows →
  rows !! index = Some row →
  ∃ key_entry response,
    paired answer_key mark_scheme response_questions rows index
           key_entry response row.
Proof.
  intros Hev Hrow. pose proof Hev as Hev'.
  apply evaluate_inv in Hev' as [_ Hall].
  destruct (Forall2_lookup_r _ _ _ _ _ Hall Hrow) as ([i k] & Hik & Hr).
  rewrite list_lookup_imap in Hik.
  destruct (answer_key !! index) as [k'|] eqn:Hk; [|discriminate].
  simpl in Hik. injection Hik as <- <-. simpl in Hr.
  apply evaluate_row_inv in Hr as (r & Hr & _).
  exists k', r. unfold paired. done.
Qed.

End scoring.

(** C5. [evaluate] raises the error for insufficient responses exactly when
    there are fewer response records than key entries; otherwise it returns
    one row per key entry, in key order: row [i] carries the question number,
    the type and the key of entry [i]. *)
Theorem evaluate_rows_per_key answer_key mark_scheme response_questions :
  ((length response_questions < length answer_key)%nat →
   evaluate answer_key mark_scheme response_questions
   = Raise (InsufficientResponses (length response_questions) (length answer_key)))
  ∧ ((length answer_key ≤ length response_questions)%nat →
     ∃ rows,
       evaluate answer_key mark_scheme response_questions = Ok rows
       ∧ length rows = length answer_key
       ∧ Forall2 (λ key_entry row,
                    EvaluationRow.q_no row = AnswerKeyEntry.q_no key_entry
                    ∧ EvaluationRow.q_type row = AnswerKeyEntry.q_type key_entry
                    ∧ EvaluationRow.correct_answer row
                      = AnswerKeyEntry.key_raw key_entry)
                 answer_key rows).
Proof.
  split; intros Hlen; unfold evaluate; rewrite sort_by_length.
  - apply Nat.ltb_lt in Hlen. by rewrite Hlen.
  - destruct (Nat.ltb_spec (length response_questions) (length answer_key));
      [lia|].
    set (sorted := sort_by response_le response_questions).
    destruct (for_each_collect_ok
                (λ ik, evaluate_row mark_scheme sorted ik.1 ik.2)
                (imap pair answer_key) []) as (rows & Heq & Hall).
    { intros [i k] Hin. simpl.
      apply list_elem_of_lookup in Hin as [j Hj].
      rewrite list_lookup_imap in Hj.
      destruct (answer_key !! j) as [k'|] eqn:Hk; [|discriminate].
      simpl in Hj. injection Hj as <- <-.
      apply evaluate_row_ok. apply lookup_lt_Some in Hk.
      subst sorted. rewrite sort_by_length. lia. }
    exists rows. simpl in Heq. split; [exact Heq|].
    pose proof (Forall2_length _ _ _ Hall) as Hl.
    rewrite length_imap in Hl. split; [done|].
    apply Forall2_same_length_lookup. split; [done|].
    intros i k row Hk Hrow.
    assert (Hik : imap pair answer_key !! i = Some (i, k)).
    { by rewrite list_lookup_imap, Hk. }
    destruct (Forall2_lookup_l _ _ _ _ _ Hall Hik) as (row' & Hrow' & Hr).
    assert (row' = row) as -> by congruence. simpl in Hr.
    apply evaluate_row_inv in Hr as (r & _ & _ & _ & Hq & _ & Ht & _ & Hc).
    done.
Qed.

Lemma evaluate_rows_per_key_witness :
  ∃ rows,
    evaluate Samples.answer_key Samples.mark_scheme Samples.responses = Ok rows
    ∧ length rows = 3%nat.
Proof.
  destruct (proj2 (evaluate_rows_per_key Samples.answer_key Samples.mark_scheme
                     Samples.responses)) as (rows & Hev & Hlen & _).
  - vm_compute. lia.
  - exists rows. split; [exact Hev | exact Hlen].
Defined.

(** ** Scoring by question type *)

Section by_type.

Lemma float_one_two (x : float) :
  x = 1%float ∨ x = 2%float →
  x ≠ 0%float
  ∧ (0 <=? x)%float = true
  ∧ (- (x / 3) <=? x)%float = true
  ∧ (- (x / 3) <? 0)%float = true
  ∧ (x <? 0)%float = false
  ∧ (x <=? x)%float = true
  ∧ (- (x / 3))%float = (- x / 3)%float.
Proof.
  intros [-> | ->]; (split; [|by vm_compute]); intros E;
    apply (f_equal (λ v, PrimFloat.eqb v 0)) in E; vm_compute in E;
    discriminate.
Qed.

Lemma marks_for_cases mark_scheme key_entry :
  mark_table mark_scheme →
  marks_for mark_scheme key_entry = 1%float
  ∨ marks_for mark_scheme key_entry = 2%float.
Proof.
  intros Hm. unfold marks_for.
  destruct (mark_scheme !! AnswerKeyEntry.q_no key_entry) as [v|] eqn:Hv;
    simpl; [eauto | by left].
Qed.

(** The set of resolved answers holds exactly the letters that some
    chosen label resolves to. *)
Lemma elem_of_mapped_answers response letter :
  letter ∈ mapped_answers response
  ↔ ∃ label, label ∈ ResponseQuestion.chosen_labels response
             ∧ _label_to_master_option
                 (ResponseQuestion.option_map response) label = Some letter.
Proof.
  unfold mapped_answers. rewrite elem_of_list_to_set, list_elem_of_omap.
  split; intros (label & Hin & Hl); exists label; (split; [done|]).
  - destruct (_label_to_master_option _ label) as [x|] eqn:Hx; [|done].
    rewrite (truthy_letter _ _ _ Hx) in Hl. done.
  - rewrite Hl. eapply truthy_letter; eauto.
Qed.

Lemma upper_char_nonempty c : upper_char c ≠ [].
Proof.
  unfold upper_char.
  destruct (List.find _ upper_special) as [e|] eqn:Hf.
  - apply find_some in Hf as [Hin _].
    assert (Hall : forallb (λ e, negb (bool_decide (e.2 = []))) upper_special
                   = true) by (by vm_compute).
    rewrite forallb_forall in Hall. specialize (Hall e Hin).
    apply negb_true_iff, bool_decide_eq_false in Hall. done.
  - destruct (List.find _ upper_runs) as [[[[? ?] ?] ?]|]; done.
Qed.

Lemma upper_empty s : upper s = [] ↔ s = [].
Proof.
  split; [|by intros ->]. destruct s as [|c s]; [done|].
  unfold upper. simpl. intros H. apply app_eq_nil in H as [H _].
  by apply upper_char_nonempty in H.
Qed.

(** The reference set of the program is the one of the specification
    without the empty item. *)
Lemma correct_set_spec key_raw :
  correct_set key_raw = spec_reference_set key_raw ∖ {[ [] ]}.
Proof.
  unfold correct_set, spec_reference_set. apply set_eq. intros x.
  rewrite elem_of_difference, !elem_of_list_to_set, !list_elem_of_fmap,
    not_elem_of_singleton.
  split.
  - intros (item & -> & Hin). apply list_elem_of_filter in Hin as [Hne Hin].
    split; [eauto|]. by rewrite upper_empty.
  - intros [(item & -> & Hin) Hne]. exists item. split; [done|].
    apply list_elem_of_filter. split; [|done]. by rewrite <- upper_empty.
Qed.

End by_type.

(** The sample mark scheme is a mark table of the data model. *)
Lemma samples_mark_table : mark_table Samples.mark_scheme.
Proof.
  intros q_no v Hv. unfold Samples.mark_scheme in Hv.
  repeat (apply lookup_insert_Some in Hv as [[_ <-] | [_ Hv]]; [by auto|]).
  by rewrite lookup_empty in Hv.
Qed.

(** C2. For a key entry of type MCQ: when the first chosen label resolves
    to a canonical letter, the marks are [max_marks] if the letter is the
    key and [-(max_marks / 3)] otherwise; when no label was chosen, or the
    first one does not resolve, the marks are 0 and the student answer is
    the placeholder. *)
Theorem mcq_marks answer_key mark_scheme response_questions rows index
    key_entry response row :
  paired answer_key mark_scheme response_questions rows index
         key_entry response row →
  AnswerKeyEntry.q_type key_entry = u "MCQ" →
  let max_marks := marks_for mark_scheme key_entry in
  EvaluationRow.max_marks row = max_marks
  ∧ (∀ first others letter,
       ResponseQuestion.chosen_labels response = first :: others →
       _label_to_master_option (ResponseQuestion.option_map response) first
       = Some letter →
       EvaluationRow.marks row
       = (if decide (letter = AnswerKeyEntry.key_raw key_entry)
          then max_marks else (- (max_marks / 3))%float)
       ∧ EvaluationRow.student_answer row = letter)
  ∧ ((ResponseQuestion.chosen_labels response = []
      ∨ ∃ first others,
          ResponseQuestion.chosen_labels response = first :: others
          ∧ _label_to_master_option (ResponseQuestion.option_map response) first
            = None) →
     EvaluationRow.marks row = 0%float
     ∧ EvaluationRow.student_answer row = placeholder).
Proof.
  intros Hp Ht max_marks. apply paired_score in Hp as (Hs & Hm & _).
  fold max_marks in Hs, Hm. unfold score in Hs. rewrite Ht in Hs.
  rewrite decide_True in Hs by done. injection Hs as Hs.
  unfold score_mcq in Hs. split; [exact Hm|]. split.
  - intros first others letter Hl Hr. rewrite Hl, Hr in Hs.
    rewrite (truthy_letter _ _ _ Hr) in Hs. by injection Hs as <- <-.
  - intros [Hl | (first & others & Hl & Hr)]; rewrite Hl in Hs.
    + by injection Hs as <- <-.
    + rewrite Hr in Hs. simpl in Hs. by injection Hs as <- <-.
Qed.

Lemma mcq_marks_witness :
  ∃ row,
    paired Samples.answer_key Samples.mark_scheme Samples.responses
           Samples.rows 0 Samples.mcq_key Samples.mcq_wrong row
    ∧ EvaluationRow.marks row = (- (1 / 3))%float
    ∧ EvaluationRow.student_answer row = u "C".
Proof.
  exists (EvaluationRow.mk 1 101 (u "MCQ") (u "Answered") (u "C") (u "B")
                           (- (1 / 3))%float 1%float).
  assert (Hp : paired Samples.answer_key Samples.mark_scheme Samples.responses
                 Samples.rows 0 Samples.mcq_key Samples.mcq_wrong
                 (EvaluationRow.mk 1 101 (u "MCQ") (u "Answered") (u "C") (u "B")
                                   (- (1 / 3))%float 1%float)).
  { repeat split; vm_compute; reflexivity. }
  split; [exact Hp|].
  refine (proj1 (proj2 (mcq_marks _ _ _ _ _ _ _ _ Hp _)) (u "A") [] (u "C") _ _).
  - reflexivity.
  - reflexivity.
  - vm_compute; reflexivity.
Defined.

(** The examples of the specification for MCQ: key B, answer resolved to
    C, one mark available, gives -1/3; answer resolved to B gives the full
    mark. *)
Example mcq_wrong_answer :
  evaluate [Samples.mcq_key] Samples.mark_scheme [Samples.mcq_wrong]
  = Ok [EvaluationRow.mk 1 101 (u "MCQ") (u "Answered") (u "C") (u "B")
                         (-0x1.5555555555555p-2)%float 1%float].
Proof. vm_compute. reflexivity. Qed.

Example mcq_right_answer :
  evaluate [Samples.mcq_key] Samples.mark_scheme [Samples.mcq_right]
  = Ok [EvaluationRow.mk 1 101 (u "MCQ") (u "Answered") (u "B") (u "B")
                         1%float 1%float].
Proof. vm_compute. reflexivity. Qed.

(** The multi-select rule of the program, for a paired row. *)
Lemma msq_score answer_key mark_scheme response_questions rows index
    key_entry response row :
  paired answer_key mark_scheme response_questions rows index
         key_entry response row →
  AnswerKeyEntry.q_type key_entry = u "MSQ" →
  EvaluationRow.marks row
  = (if decide (mapped_answers response
                = correct_set (AnswerKeyEntry.key_raw key_entry))
     then marks_for mark_scheme key_entry else 0%float)
  ∧ EvaluationRow.student_answer row
    = (if decide (mapped_answers response = ∅) then placeholder
       else join (u ";") (sort_by str_leb (elements (mapped_answers response)))).
Proof.
  intros Hp Ht. apply paired_score in Hp as (Hs & _ & _).
  unfold score in Hs. rewrite Ht in Hs.
  rewrite decide_False in Hs by (by vm_compute).
  rewrite decide_True in Hs by done. unfold score_msq in Hs.
  by injection Hs as <- <-.
Qed.

(** C3, as the specification words it, fails: for the key [A;] the
    reference set of the specification is [{A, empty}], the resolved set
    [{A}] differs from it, and the program still awards the full marks. *)
Lemma msq_reference_set_counterexample :
  ∃ row,
    evaluate [Samples.msq_key_trailing] Samples.mark_scheme [Samples.msq_subset]
    = Ok [row]
    ∧ mapped_answers Samples.msq_subset
      ≠ spec_reference_set (AnswerKeyEntry.key_raw Samples.msq_key_trailing)
    ∧ EvaluationRow.marks row = 1%float
    ∧ EvaluationRow.marks row ≠ 0%float.
Proof.
  exists (EvaluationRow.mk 1 102 (u "MSQ") (u "Answered") (u "A") (u "A;")
                           1%float 1%float).
  split; [by vm_compute|]. split; [|split; [done|]].
  - intros E. assert (H : [] ∈ mapped_answers Samples.msq_subset).
    { rewrite E. by vm_compute. }
    apply elem_of_mapped_answers in H as (label & _ & H).
    apply label_to_master_option_letter in H.
    repeat (apply elem_of_cons in H as [H|H]; [discriminate|]).
    by apply elem_of_nil in H.
  - simpl. intros E. apply (f_equal (λ v, PrimFloat.eqb v 0)) in E.
    vm_compute in E. discriminate.
Qed.

(** C3, amended. For a key entry of type MSQ, the set of canonical letters
    that the chosen labels resolve to earns [max_marks] when it equals the
    reference set, and 0 in every other case; with a mark table of the
    data model it earns [max_marks] only then.  The reference set holds the
    items of [key_raw] between [;], trimmed and uppercased, without the
    items that are empty after trimming. *)
Theorem msq_marks answer_key mark_scheme response_questions rows index
    key_entry response row :
  paired answer_key mark_scheme response_questions rows index
         key_entry response row →
  AnswerKeyEntry.q_type key_entry = u "MSQ" →
  let max_marks := marks_for mark_scheme key_entry in
  let reference := spec_reference_set (AnswerKeyEntry.key_raw key_entry) ∖ {[ [] ]} in
  (∀ letter, letter ∈ mapped_answers response
             ↔ ∃ label, label ∈ ResponseQuestion.chosen_labels response
                        ∧ _label_to_master_option
                            (ResponseQuestion.option_map response) label
                          = Some letter)
  ∧ (mapped_answers response = reference → EvaluationRow.marks row = max_marks)
  ∧ (mapped_answers response ≠ reference → EvaluationRow.marks row = 0%float)
  ∧ (mark_table mark_scheme →
     (EvaluationRow.marks row = max_marks ↔ mapped_answers response = reference)).
Proof.
  intros Hp Ht max_marks reference.
  destruct (msq_score _ _ _ _ _ _ _ _ Hp Ht) as [Hm _].
  fold max_marks in Hm. rewrite correct_set_spec in Hm. fold reference in Hm.
  split; [apply elem_of_mapped_answers|].
  split; [|split].
  - intros E. by rewrite decide_True in Hm.
  - intros E. by rewrite decide_False in Hm.
  - intros Htable. destruct (decide (mapped_answers response = reference)) as [E|E].
    + done.
    + split; [|done]. rewrite Hm. intros E0.
      destruct (float_one_two max_marks) as [Hne _];
        [by apply marks_for_cases | congruence].
Qed.

Lemma msq_marks_witness :
  ∃ row,
    paired Samples.answer_key Samples.mark_scheme Samples.responses
           Samples.rows 1 Samples.msq_key Samples.msq_right row
    ∧ EvaluationRow.marks row = 2%float.
Proof.
  exists (EvaluationRow.mk 2 102 (u "MSQ") (u "Answered") (u "A;C") (u "A;C")
                           2%float 2%float).
  assert (Hp : paired Samples.answer_key Samples.mark_scheme Samples.responses
                 Samples.rows 1 Samples.msq_key Samples.msq_right
                 (EvaluationRow.mk 2 102 (u "MSQ") (u "Answered") (u "A;C")
                                   (u "A;C") 2%float 2%float)).
  { repeat split; vm_compute; reflexivity. }
  split; [exact Hp|].
  refine (proj1 (proj2 (msq_marks _ _ _ _ _ _ _ _ Hp _)) _).
  - reflexivity.
  - vm_compute; reflexivity.
Defined.

(** The examples of the specification for MSQ: key [A;C]; the answers
    [{A, C}], [{A}] and [{A, C, D}] earn the marks, nothing, nothing. *)
Example msq_exact_subset_superset :
  map (λ response,
         match evaluate [Samples.msq_key] Samples.mark_scheme [response] with
         | Ok [row] => Some (EvaluationRow.student_answer row,
                             EvaluationRow.marks row)
         | _ => None
         end)
      [Samples.msq_right; Samples.msq_subset; Samples.msq_superset]
  = [Some (u "A;C", 2%float); Some (u "A", 0%float); Some (u "A;C;D", 0%float)].
Proof. vm_compute. reflexivity. Qed.

(** The numeric rule of the program, for a paired row. *)
Lemma nat_score answer_key mark_scheme response_questions rows index
    key_entry response row :
  paired answer_key mark_scheme response_questions rows index
         key_entry response row →
  AnswerKeyEntry.q_type key_entry = u "NAT" →
  ∃ lo hi,
    parse_nat_range (AnswerKeyEntry.key_raw key_entry) = Ok (lo, hi)
    ∧ (EvaluationRow.student_answer row, EvaluationRow.marks row)
      = match ResponseQuestion.given_answer response with
        | None => (placeholder, 0%float)
        | Some given =>
          (str_of_float given,
           match lo, hi with
           | Some lo, Some hi =>
             if in_tolerance lo hi given
             then marks_for mark_scheme key_entry else 0%float
           | _, _ => 0%float
           end)
        end.
Proof.
  intros Hp Ht. apply paired_score in Hp as (Hs & _ & _).
  unfold score in Hs. rewrite Ht in Hs.
  rewrite !decide_False in Hs by (by vm_compute).
  rewrite decide_True in Hs by done. unfold score_nat in Hs.
  destruct (parse_nat_range _) as [[lo hi]|e]; [|discriminate].
  exists lo, hi. split; [done|]. simpl in Hs.
  destruct (ResponseQuestion.given_answer response); by injection Hs as <- <-.
Qed.

(** C4. For a key entry of type NAT whose key reads [lo to hi], the marks
    are [max_marks] exactly when an answer was given and lies between
    [lo - 1e-9] and [hi + 1e-9] (both computed in binary64, as the program
    does); otherwise, and when the key does not read as a range, they are
    0; they are never negative. *)
Theorem nat_marks answer_key mark_scheme response_questions rows index
    key_entry response row :
  paired answer_key mark_scheme response_questions rows index
         key_entry response row →
  AnswerKeyEntry.q_type key_entry = u "NAT" →
  mark_table mark_scheme →
  let max_marks := marks_for mark_scheme key_entry in
  (∀ lo hi,
     parse_nat_range (AnswerKeyEntry.key_raw key_entry) = Ok (Some lo, Some hi) →
     (EvaluationRow.marks row = max_marks
      ↔ ∃ given, ResponseQuestion.given_answer response = Some given
                 ∧ ((lo - tolerance <=? given)%float = true
                    ∧ (given <=? hi + tolerance)%float = true))
     ∧ (EvaluationRow.marks row ≠ max_marks → EvaluationRow.marks row = 0%float))
  ∧ (parse_nat_range (AnswerKeyEntry.key_raw key_entry) = Ok (None, None) →
     EvaluationRow.marks row = 0%float)
  ∧ (0 <=? EvaluationRow.marks row)%float = true.
Proof.
  intros Hp Ht Htable max_marks.
  destruct (nat_score _ _ _ _ _ _ _ _ Hp Ht) as (lo' & hi' & Hr & Hs).
  fold max_marks in Hs.
  destruct (float_one_two max_marks) as (Hne & Hpos & _);
    [by apply marks_for_cases|].
  assert (H0 : (0 <=? 0)%float = true) by (by vm_compute).
  split; [|split].
  - intros lo hi Hlh. rewrite Hlh in Hr. injection Hr as <- <-.
    destruct (ResponseQuestion.given_answer response) as [given|];
      injection Hs as _ Hm.
    + unfold in_tolerance in Hm.
      destruct ((lo - tolerance <=? given)%float) eqn:H1;
        destruct ((given <=? hi + tolerance)%float) eqn:H2;
        simpl in Hm; rewrite Hm; (split; [split|]); try done;
        try (intros (g & [= <-] & ? & ?); congruence); eauto.
    + rewrite Hm. split; [split|]; try done. by intros (g & ? & _).
  - intros Hnone. rewrite Hnone in Hr. injection Hr as <- <-.
    destruct (ResponseQuestion.given_answer response); by injection Hs as _ ->.
  - destruct (ResponseQuestion.given_answer response) as [given|];
      injection Hs as _ ->; [|done].
    destruct lo' as [lo|], hi' as [hi|]; try done.
    by destruct (in_tolerance lo hi given).
Qed.

Lemma nat_marks_witness :
  ∃ row,
    paired Samples.answer_key Samples.mark_scheme Samples.responses
           Samples.rows 2 Samples.nat_key Samples.nat_close row
    ∧ (0 <=? EvaluationRow.marks row)%float = true.
Proof.
  exists (EvaluationRow.mk 3 103 (u "NAT") (u "Answered") (u "10.5000000005")
                           (u "10 to 10.5") 2%float 2%float).
  assert (Hp : paired Samples.answer_key Samples.mark_scheme Samples.responses
                 Samples.rows 2 Samples.nat_key Samples.nat_close
                 (EvaluationRow.mk 3 103 (u "NAT") (u "Answered")
                    (u "10.5000000005") (u "10 to 10.5") 2%float 2%float)).
  { repeat split; vm_compute; reflexivity. }
  split; [exact Hp|].
  refine (proj2 (proj2 (nat_marks _ _ _ _ _ _ _ _ Hp _ _))).
  - reflexivity.
  - exact samples_mark_table.
Defined.

(** The examples of the specification for NAT: key [10 to 10.5]; the
    answer 10.5000000005 is within the tolerance, 10.6 is not. *)
Example nat_within_and_beyond :
  map (λ response,
         match evaluate [Samples.nat_key] Samples.mark_scheme [response] with
         | Ok [row] => Some (EvaluationRow.student_answer row,
                             EvaluationRow.marks row)
         | _ => None
         end)
      [Samples.nat_close; Samples.nat_far]
  = [Some (u "10.5000000005", 2%float); Some (u "10.6", 0%float)].
Proof. vm_compute. reflexivity. Qed.

(** C9, as stated, fails for a multi-select entry whose key has no item:
    the empty set of answers equals the empty reference set, and the
    unanswered question earns the marks. *)
Lemma not_answered_counterexample :
  ∃ row,
    evaluate [Samples.msq_key_empty] Samples.mark_scheme
             [Samples.not_answered 102 "MSQ"] = Ok [row]
    ∧ ResponseQuestion.status (Samples.not_answered 102 "MSQ") = u "Not Answered"
    ∧ ResponseQuestion.chosen_labels (Samples.not_answered 102 "MSQ") = []
    ∧ ResponseQuestion.given_answer (Samples.not_answered 102 "MSQ") = None
    ∧ EvaluationRow.marks row = 1%float
    ∧ EvaluationRow.marks row ≠ 0%float.
Proof.
  exists (EvaluationRow.mk 1 102 (u "MSQ") (u "Not Answered") (u "--") []
                           1%float 1%float).
  split; [by vm_compute|]. repeat (split; [done|]).
  simpl. intros E. apply (f_equal (λ v, PrimFloat.eqb v 0)) in E.
  vm_compute in E. discriminate.
Qed.

(** C9, amended. A key entry paired with a response whose status is
    "Not Answered" and which has no chosen label and no given answer gets
    the placeholder as student answer, whatever its type, and gets 0 marks
    unless it is a multi-select entry whose key has no item. *)
Theorem not_answered_marks answer_key mark_scheme response_questions rows
    index key_entry response row :
  paired answer_key mark_scheme response_questions rows index
         key_entry response row →
  ResponseQuestion.status response = u "Not Answered" →
  ResponseQuestion.chosen_labels response = [] →
  ResponseQuestion.given_answer response = None →
  EvaluationRow.student_answer row = placeholder
  ∧ (AnswerKeyEntry.q_type key_entry ≠ u "MSQ"
     ∨ correct_set (AnswerKeyEntry.key_raw key_entry) ≠ ∅ →
     EvaluationRow.marks row = 0%float).
Proof.
  intros Hp _ Hl Hg. apply paired_score in Hp as (Hs & _ & _).
  unfold score in Hs.
  assert (Hm : mapped_answers response = ∅).
  { unfold mapped_answers. by rewrite Hl. }
  repeat case_decide.
  - unfold score_mcq in Hs. rewrite Hl in Hs. injection Hs as <- <-.
    split; done.
  - unfold score_msq in Hs. rewrite Hm in Hs.
    rewrite decide_True in Hs by done. injection Hs as <- Hs.
    split; [done|]. intros [Ht|Hc]; [done|].
    by rewrite decide_False in Hs.
  - unfold score_nat in Hs. rewrite Hg in Hs.
    destruct (parse_nat_range _) as [[lo hi]|e]; [|discriminate].
    simpl in Hs. injection Hs as <- <-. split; done.
  - injection Hs as <- <-. split; done.
Qed.

Lemma not_answered_marks_witness :
  ∃ row,
    evaluate [Samples.msq_key] Samples.mark_scheme
             [Samples.not_answered 102 "MSQ"] = Ok [row]
    ∧ EvaluationRow.student_answer row = placeholder
    ∧ EvaluationRow.marks row = 0%float.
Proof.
  exists (EvaluationRow.mk 2 102 (u "MSQ") (u "Not Answered") (u "--") (u "A;C")
                           0%float 2%float).
  assert (Hp : paired [Samples.msq_key] Samples.mark_scheme
                 [Samples.not_answered 102 "MSQ"]
                 [EvaluationRow.mk 2 102 (u "MSQ") (u "Not Answered") (u "--")
                                   (u "A;C") 0%float 2%float]
                 0 Samples.msq_key (Samples.not_answered 102 "MSQ")
                 (EvaluationRow.mk 2 102 (u "MSQ") (u "Not Answered") (u "--")
                                   (u "A;C") 0%float 2%float)).
  { repeat split; vm_compute; reflexivity. }
  split; [apply Hp|].
  destruct (not_answered_marks _ _ _ _ _ _ _ _ Hp eq_refl eq_refl eq_refl)
    as [Hs Hm].
  split; [exact Hs|]. apply Hm. right. intros E.
  assert (H : u "A" ∈ correct_set (AnswerKeyEntry.key_raw Samples.msq_key)).
  { by vm_compute. }
  rewrite E in H. by apply not_elem_of_empty in H.
Defined.

(** ** The marks of a row *)

(** Whatever the type, the marks are the full marks, nothing, or the
    penalty, and the penalty is for MCQ only. *)
Lemma score_cases q_type key_raw response max_marks student_answer earned :
  score q_type key_raw response max_marks = Ok (student_answer, earned) →
  earned = max_marks ∨ earned = 0%float
  ∨ (earned = (- (max_marks / 3))%float ∧ q_type = u "MCQ").
Proof.
  unfold score. repeat case_decide.
  - unfold score_mcq.
    destruct (ResponseQuestion.chosen_labels response) as [|first others].
    { intros [= _ <-]. auto. }
    destruct (truthy _) as [mapped|]; [|intros [= _ <-]; auto].
    case_decide; intros [= _ <-]; [auto | right; right; split; auto].
  - unfold score_msq. intros [= _ <-]. case_decide; auto.
  - unfold score_nat.
    destruct (parse_nat_range key_raw) as [[lo hi]|e]; [|discriminate]. simpl.
    destruct (ResponseQuestion.given_answer response) as [given|];
      [|intros [= _ <-]; auto].
    intros [= _ <-]. destruct lo as [lo|], hi as [hi|]; auto.
    destruct (in_tolerance lo hi given); auto.
  - intros [= _ <-]. auto.
Qed.

(** C10. With a mark table of the data model (values 1.0 or 2.0), every
    row that [evaluate] produces has marks equal to [max_marks], to 0 or to
    [-max_marks/3], at most [max_marks], and negative only for MCQ. *)
Theorem marks_range answer_key mark_scheme response_questions rows row :
  mark_table mark_scheme →
  evaluate answer_key mark_scheme response_questions = Ok rows →
  row ∈ rows →
  let marks := EvaluationRow.marks row in
  let max_marks := EvaluationRow.max_marks row in
  (marks = max_marks ∨ marks = 0%float ∨ marks = (- max_marks / 3)%float)
  ∧ (marks <=? max_marks)%float = true
  ∧ ((marks <? 0)%float = true → EvaluationRow.q_type row = u "MCQ").
Proof.
  intros Htable Hev Hin marks max_marks.
  apply list_elem_of_lookup in Hin as [index Hrow].
  destruct (rows_paired _ _ _ _ _ _ Hev Hrow) as (key_entry & response & Hp).
  apply paired_score in Hp as (Hs & Hm & Ht).
  fold max_marks in Hm. fold marks in Hs. rewrite <- Hm in Hs.
  destruct (float_one_two max_marks)
    as (_ & Hpos & Hpen & Hneg & Hnn & Hrefl & Hform).
  { rewrite Hm. by apply marks_for_cases. }
  apply score_cases in Hs as [E | [E | [E Hq]]]; rewrite E.
  - split; [auto|]. split; [done|]. congruence.
  - split; [auto|]. split; [done|]. by vm_compute.
  - split; [rewrite Hform; auto|]. split; [done|]. congruence.
Qed.

Lemma marks_range_witness :
  ∃ row,
    row ∈ Samples.rows
    ∧ (EvaluationRow.marks row <=? EvaluationRow.max_marks row)%float = true.
Proof.
  exists (EvaluationRow.mk 1 101 (u "MCQ") (u "Answered") (u "C") (u "B")
                           (- (1 / 3))%float 1%float).
  assert (Hin : EvaluationRow.mk 1 101 (u "MCQ") (u "Answered") (u "C") (u "B")
                                 (- (1 / 3))%float 1%float ∈ Samples.rows).
  { unfold Samples.rows. apply list_elem_of_here. }
  split; [exact Hin|].
  refine (proj1 (proj2 (marks_range Samples.answer_key Samples.mark_scheme
                          Samples.responses Samples.rows _ _ _ Hin))).
  - exact samples_mark_table.
  - vm_compute; reflexivity.
Defined.

(** ** The mark scheme *)

Section mark_scheme.

Lemma for_each_app {A S : Type} (body : S → A → result S) xs ys :
  ∀ s, for_each body s (xs ++ ys)
       = bind (for_each body s xs) (λ s', for_each body s' ys).
Proof.
  induction xs as [|x xs IH]; intros s; simpl; [done|].
  destruct (body s x) as [s'|e]; simpl; [apply IH | done].
Qed.

Lemma for_each_flat_map {A B S : Type} (body : S → B → result S)
    (g : A → list B) xs :
  ∀ s, for_each (λ s x, for_each body s (g x)) s xs
       = for_each body s (flat_map g xs).
Proof.
  induction xs as [|x xs IH]; intros s; simpl; [done|].
  rewrite for_each_app.
  destruct (for_each body s (g x)) as [s'|e]; simpl; [apply IH | done].
Qed.

(** Scanning the pages is scanning the declarations in page order. *)
Lemma scan_pages_bands pdf marks :
  for_each scan_page marks pdf
  = for_each scan_band marks (band_declarations pdf).
Proof. apply (for_each_flat_map scan_band). Qed.

Lemma assign_range_lookup (qs : list Z) (v : float) :
  ∀ (marks : gmap Z float) q_no,
    fold_left (λ m q, <[q := v]> m) qs marks !! q_no
    = if decide (q_no ∈ qs) then Some v else marks !! q_no.
Proof.
  induction qs as [|q qs IH]; intros marks q_no; cbn [fold_left].
  - rewrite decide_False; [done | apply not_elem_of_nil].
  - rewrite IH. destruct (decide (q_no ∈ qs)) as [Hin|Hin].
    + rewrite decide_True; [done | by right].
    + destruct (decide (q_no = q)) as [->|Hne].
      * rewrite lookup_insert_eq, decide_True; [done | by left].
      * rewrite lookup_insert_ne by done.
        rewrite decide_False; [done|]. by intros [?|?]%elem_of_cons.
Qed.

(** Every question number of the range gets the value, the others keep
    theirs. *)
Lemma assign_range_spec marks start_q end_q v q_no :
  assign_range marks start_q end_q v !! q_no
  = if decide (start_q ≤ q_no ≤ end_q)%Z then Some v else marks !! q_no.
Proof.
  unfold assign_range. rewrite assign_range_lookup.
  destruct (decide (q_no ∈ seqZ start_q (end_q + 1 - start_q))) as [Hin|Hin];
    rewrite elem_of_seqZ in Hin.
  - rewrite decide_True; [done | lia].
  - rewrite decide_False; [done | lia].
Qed.

Lemma mark_word_values word v :
  _mark_word_to_value word = Some v → v = 1%float ∨ v = 2%float.
Proof.
  unfold _mark_word_to_value. repeat case_decide; intros [= <-]; auto.
Qed.

(** What one declaration does to the table. *)
Lemma scan_band_inv marks mt marks' :
  scan_band marks mt = Ok marks' →
  ∃ start_q end_q,
    int mt.1.1 = Some start_q ∧ int mt.1.2 = Some end_q
    ∧ (marks' = marks
       ∨ ∃ v, (v = 1%float ∨ v = 2%float)
              ∧ marks' = assign_range marks start_q end_q v).
Proof.
  destruct mt as [[start_txt end_txt] word]. unfold scan_band, py_int. simpl.
  destruct (int start_txt) as [start_q|]; [|discriminate].
  destruct (int end_txt) as [end_q|]; [|discriminate]. simpl.
  destruct (_mark_word_to_value word) as [v|] eqn:Hw; intros [= <-];
    exists start_q, end_q; repeat split; eauto.
  right. exists v. split; [|done]. eapply mark_word_values; eauto.
Qed.

(** Invariants of the scan: the values are 1.0 or 2.0, and the keys stay
    in [1..total_questions] when every declaration does. *)
Lemma scan_bands_values bands :
  ∀ marks marks', for_each scan_band marks bands = Ok marks' →
                  mark_table marks → mark_table marks'.
Proof.
  induction bands as [|mt bands IH]; intros marks marks' H Hm; simpl in H.
  - by injection H as <-.
  - destruct (scan_band marks mt) as [m1|e] eqn:Hb; [|discriminate].
    simpl in H. apply (IH _ _ H).
    apply scan_band_inv in Hb as (s & e & _ & _ & [-> | (v & Hv & ->)]);
      [done|].
    intros q x. rewrite assign_range_spec. case_decide; [|apply Hm].
    by intros [= <-].
Qed.

Lemma scan_bands_within total bands :
  ∀ marks marks', for_each scan_band marks bands = Ok marks' →
                  Forall (band_within total) bands →
                  dom marks ⊆ question_numbers total →
                  dom marks' ⊆ question_numbers total.
Proof.
  induction bands as [|mt bands IH]; intros marks marks' H Hw Hd; simpl in H.
  - by injection H as <-.
  - destruct (scan_band marks mt) as [m1|e] eqn:Hb; [|discriminate].
    simpl in H. apply Forall_cons in Hw as [Hmt Hw]. apply (IH _ _ H Hw).
    apply scan_band_inv in Hb as (s & e & Hs & He & [-> | (v & _ & ->)]);
      [done|].
    intros q Hq. apply elem_of_dom in Hq as [x Hq].
    rewrite assign_range_spec in Hq. case_decide as Hr.
    + destruct (Hmt s e Hs He) as [? ?]; [lia|].
      unfold question_numbers. rewrite elem_of_list_to_set, elem_of_seqZ. lia.
    + apply Hd. apply elem_of_dom. eauto.
Qed.

(** The fallback fills exactly the missing question numbers. *)
Lemma fill_missing_fold (qs : list Z) :
  ∀ (marks : gmap Z float) q_no,
    fold_left (λ m q, match m !! q with
                      | Some _ => m
                      | None => <[q := fallback_mark q]> m
                      end) qs marks !! q_no
    = match marks !! q_no with
      | Some v => Some v
      | None => if decide (q_no ∈ qs) then Some (fallback_mark q_no) else None
      end.
Proof.
  induction qs as [|q qs IH]; intros marks q_no; cbn [fold_left].
  - destruct (marks !! q_no); [done|].
    rewrite decide_False; [done | apply not_elem_of_nil].
  - rewrite IH. destruct (marks !! q) as [v|] eqn:Hq.
    + destruct (marks !! q_no) eqn:Hn; [done|].
      destruct (decide (q_no ∈ qs)) as [Hin|Hin].
      * rewrite decide_True; [done | by right].
      * rewrite decide_False; [done|].
        intros [->|?]%elem_of_cons; congruence.
    + destruct (decide (q_no = q)) as [->|Hne].
      * rewrite lookup_insert_eq, Hq. rewrite decide_True; [done | by left].
      * rewrite lookup_insert_ne by done.
        destruct (marks !! q_no); [done|].
        destruct (decide (q_no ∈ qs)) as [Hin|Hin].
        -- rewrite decide_True; [done | by right].
        -- rewrite decide_False; [done|]. by intros [?|?]%elem_of_cons.
Qed.

Lemma fill_missing_spec marks total q_no :
  fill_missing marks total !! q_no
  = match marks !! q_no with
    | Some v => Some v
    | None => if decide (1 ≤ q_no ≤ total)%Z
              then Some (fallback_mark q_no) else None
    end.
Proof.
  unfold fill_missing. rewrite fill_missing_fold.
  destruct (marks !! q_no); [done|].
  destruct (decide (q_no ∈ seqZ 1 (total + 1 - 1))) as [Hin|Hin];
    rewrite elem_of_seqZ in Hin.
  - rewrite decide_True; [done | lia].
  - rewrite decide_False; [done | lia].
Qed.

Lemma dom_fill_missing marks total :
  dom (fill_missing marks total) = dom marks ∪ question_numbers total.
Proof.
  apply set_eq. intros q.
  rewrite elem_of_union, !elem_of_dom, fill_missing_spec.
  unfold question_numbers. rewrite elem_of_list_to_set, elem_of_seqZ.
  destruct (marks !! q) as [v|].
  - split; eauto.
  - case_decide.
    + split; [intros _; right; lia | eauto].
    + split; [by intros [? ?] | intros [[? ?] | ?]; [done | lia]].
Qed.

Lemma size_question_numbers total :
  size (question_numbers total) = Z.to_nat total.
Proof.
  unfold question_numbers.
  rewrite size_list_to_set by apply NoDup_seqZ. apply length_seqZ.
Qed.

Lemma fallback_mark_values q_no :
  fallback_mark q_no = 1%float ∨ fallback_mark q_no = 2%float.
Proof. unfold fallback_mark. destruct (_ || _); auto. Qed.

(** The table of [parse_mark_scheme] is a mark table of the data model. *)
Lemma parse_mark_scheme_values pdf total marks :
  parse_mark_scheme pdf total = Ok marks → mark_table marks.
Proof.
  unfold parse_mark_scheme. rewrite scan_pages_bands.
  destruct (for_each scan_band ∅ (band_declarations pdf)) as [m0|e] eqn:Hs;
    [|discriminate].
  simpl. assert (Hm0 : mark_table m0).
  { apply (scan_bands_values _ _ _ Hs). intros q v. by rewrite lookup_empty. }
  destruct (_ <? _)%Z; intros [= <-]; [|done].
  intros q v. rewrite fill_missing_spec.
  destruct (m0 !! q) as [x|] eqn:Hq; [intros [= <-]; eauto|].
  case_decide; [|done]. intros [= <-]. apply fallback_mark_values.
Qed.

(** [parse_mark_scheme] returns when [int] converts every numeral. *)
Lemma parse_mark_scheme_returns pdf total :
  Forall band_readable (band_declarations pdf) →
  ∃ marks, parse_mark_scheme pdf total = Ok marks.
Proof.
  intros Hr. unfold parse_mark_scheme. rewrite scan_pages_bands.
  assert (H : ∀ marks, ∃ marks',
             for_each scan_band marks (band_declarations pdf) = Ok marks').
  { induction Hr as [|[[s e] w] bands [[a Ha] [b Hb]] _ IH]; intros marks;
      simpl; [eauto|].
    simpl in Ha, Hb. unfold py_int. rewrite Ha, Hb. simpl.
    destruct (_mark_word_to_value w); simpl; apply IH. }
  destruct (H ∅) as [m0 ->]. simpl. destruct (_ <? _)%Z; eauto.
Qed.

End mark_scheme.

(** C1, as stated, fails: a declaration that runs past the last question
    leaves more entries than questions. *)
Lemma mark_scheme_keys_counterexample :
  ∃ marks,
    parse_mark_scheme Samples.paper_long_band 10 = Ok marks
    ∧ size marks = 12%nat
    ∧ marks !! 12%Z = Some 1%float
    ∧ dom marks ≠ question_numbers 10.
Proof.
  exists (assign_range ∅ 1 12 1%float).
  split; [by vm_compute|].
  assert (Hs : size (assign_range ∅ 1 12 1%float) = 12%nat) by (by vm_compute).
  split; [exact Hs|]. split; [by rewrite assign_range_spec|].
  intros E. apply (f_equal size) in E.
  rewrite size_dom, size_question_numbers, Hs in E. vm_compute in E.
  discriminate.
Qed.

(** C1, amended. When every mark-band declaration of the text lies within
    [1..total_questions] (in particular when there is none), the map that
    [parse_mark_scheme] returns has the key set [{1, ..., total_questions}]
    and exactly [total_questions] entries. *)
Theorem mark_scheme_keys pdf total_questions marks :
  parse_mark_scheme pdf total_questions = Ok marks →
  Forall (band_within total_questions) (band_declarations pdf) →
  dom marks = question_numbers total_questions
  ∧ size marks = Z.to_nat total_questions.
Proof.
  intros Hp Hw. unfold parse_mark_scheme in Hp. rewrite scan_pages_bands in Hp.
  destruct (for_each scan_band ∅ (band_declarations pdf)) as [m0|e] eqn:Hs;
    [|discriminate].
  simpl in Hp.
  assert (Hsub : dom m0 ⊆ question_numbers total_questions).
  { apply (scan_bands_within _ _ _ _ Hs Hw). rewrite dom_empty_L.
    apply empty_subseteq. }
  assert (Hdom : dom marks = question_numbers total_questions).
  { destruct (Z.ltb_spec (Z.of_nat (size m0)) total_questions) as [Hlt|Hge];
      injection Hp as <-.
    - rewrite dom_fill_missing. apply set_eq. intros q. rewrite elem_of_union.
      split; [intros [?|?]; auto | auto].
    - apply set_subseteq_size_eq; [exact Hsub|].
      rewrite size_question_numbers, size_dom. lia. }
  split; [exact Hdom|].
  by rewrite <- size_dom, Hdom, size_question_numbers.
Qed.

Lemma mark_scheme_keys_witness :
  ∃ marks,
    parse_mark_scheme Samples.paper_plain 7 = Ok marks
    ∧ dom marks = question_numbers 7
    ∧ size marks = 7%nat.
Proof.
  exists (fill_missing (assign_range (assign_range ∅ 1 5 1%float) 4 6 2%float) 7).
  assert (Hp : parse_mark_scheme Samples.paper_plain 7
               = Ok (fill_missing
                       (assign_range (assign_range ∅ 1 5 1%float) 4 6 2%float) 7))
    by (by vm_compute).
  split; [exact Hp|].
  apply (mark_scheme_keys Samples.paper_plain 7 _ Hp).
  assert (Hb : band_declarations Samples.paper_plain
               = [(u "1", u "5", u "ONE"); (u "4", u "6", u "two")])
    by (by vm_compute).
  rewrite Hb.
  apply Forall_cons. split; [|apply Forall_cons; split; [|apply Forall_nil_2]];
    intros a b Ha Hb'; vm_compute in Ha, Hb';
    injection Ha as <-; injection Hb' as <-; lia.
Defined.

(** Later declarations overwrite earlier ones: after a further
    declaration, its range holds its value and the other keys are as
    before it. *)
Lemma scan_band_assigns marks bands start_txt end_txt word
    start_q end_q v marks0 :
  for_each scan_band marks bands = Ok marks0 →
  int start_txt = Some start_q → int end_txt = Some end_q →
  _mark_word_to_value word = Some v →
  ∃ marks',
    for_each scan_band marks (bands ++ [(start_txt, end_txt, word)]) = Ok marks'
    ∧ ∀ q_no, marks' !! q_no
              = if decide (start_q ≤ q_no ≤ end_q)%Z then Some v
                else marks0 !! q_no.
Proof.
  intros H0 Hs He Hw. exists (assign_range marks0 start_q end_q v).
  rewrite for_each_app, H0. simpl. unfold py_int. rewrite Hs, He. simpl.
  rewrite Hw. split; [done|]. intros q_no. apply assign_range_spec.
Qed.

(** Declarations in the singular are recognized with a hyphen or an en
    dash, with or without spaces, in any case; the later one wins where
    two of them overlap. *)
Example singular_bands_recognized :
  findall3 band_pattern
    (u "Q.1 " ++ [en_dash] ++ u " Q.5 Carry ONE mark Each, q.4-q.6carry"
       ++ [10] ++ u "two  MARK each")
  = [(u "1", u "5", u "ONE"); (u "4", u "6", u "two")]
  ∧ ∃ marks,
      parse_mark_scheme Samples.paper_plain 7 = Ok marks
      ∧ map (λ q_no, marks !! q_no) [1; 2; 3; 4; 5; 6; 7]%Z
        = map Some [1; 1; 1; 2; 2; 2; 2]%float.
Proof.
  split; [by vm_compute|].
  exists (fill_missing (assign_range (assign_range ∅ 1 5 1%float) 4 6 2%float) 7).
  split; by vm_compute.
Qed.

(** C6 at the failing input: a declaration written in the plural is not
    recognized; questions 1 to 5 get the fallback value 1.0 where the
    declaration says 2.0, while the same declaration in the singular
    gives 2.0. *)
Theorem plural_band_ignored :
  findall3 band_pattern (u "Q.1 - Q.5 Carry TWO marks Each") = []
  ∧ (∃ marks,
       parse_mark_scheme Samples.paper_plural 5 = Ok marks
       ∧ map (λ q_no, marks !! q_no) [1; 2; 3; 4; 5]%Z
         = map Some [1; 1; 1; 1; 1]%float)
  ∧ (∃ marks,
       parse_mark_scheme Samples.paper_singular 5 = Ok marks
       ∧ map (λ q_no, marks !! q_no) [1; 2; 3; 4; 5]%Z
         = map Some [2; 2; 2; 2; 2]%float).
Proof.
  split; [by vm_compute|]. split.
  - exists (fill_missing ∅ 5). split; by vm_compute.
  - exists (assign_range ∅ 1 5 2%float). split; by vm_compute.
Qed.

(** ** The answer key *)

Section answer_key.

Lemma for_each_appends {X : Type} body (cells : X → list str) :
  appends_cells body cells →
  appends_cells (for_each body) (flat_map cells).
Proof.
  intros Hbody entries xs. revert entries.
  induction xs as [|x xs IH]; intros entries numbers Hn; simpl in *.
  - apply Forall2_nil_inv_l in Hn as ->. exists []. by rewrite app_nil_r.
  - apply Forall2_app_inv_l in Hn as (n1 & n2 & H1 & H2 & ->).
    destruct (Hbody entries x n1 H1) as (a1 & -> & <-). simpl.
    destruct (IH (entries ++ a1) n2 H2) as (a2 & -> & <-).
    exists (a1 ++ a2). by rewrite app_assoc, map_app.
Qed.

Lemma scan_row_appends : appends_cells scan_row row_number_cell.
Proof.
  intros entries r numbers. unfold scan_row, row_number_cell.
  destruct (length r <? 4)%nat.
  { intros ->%Forall2_nil_inv_l. exists []. by rewrite app_nil_r. }
  destruct (isdigit _); simpl.
  - intros H. apply Forall2_cons_inv_l in H as (n & ns & Hn & Hns & ->).
    apply Forall2_nil_inv_l in Hns as ->.
    unfold py_int. rewrite Hn. simpl. eauto.
  - intros ->%Forall2_nil_inv_l. exists []. by rewrite app_nil_r.
Qed.

Lemma scan_table_appends : appends_cells scan_table table_number_cells.
Proof.
  intros entries tb numbers. unfold scan_table, table_number_cells.
  destruct tb as [|head [|r rows]];
    try (intros ->%Forall2_nil_inv_l; exists []; by rewrite app_nil_r).
  destruct (header_ok _).
  - apply (for_each_appends _ _ scan_row_appends).
  - intros ->%Forall2_nil_inv_l. exists []. by rewrite app_nil_r.
Qed.

Lemma entry_le_total a b : entry_le a b = true ∨ entry_le b a = true.
Proof. unfold entry_le. rewrite !Z.leb_le. lia. Qed.

Lemma entry_le_trans a b c :
  entry_le a b = true → entry_le b c = true → entry_le a c = true.
Proof. unfold entry_le. rewrite !Z.leb_le. lia. Qed.

End answer_key.

(** C7. For a valid key document, [parse_answer_key] returns a list that
    is ascending in [q_no] and has no two entries with the same [q_no]. *)
Theorem answer_key_sorted pdf :
  valid_key_document pdf →
  ∃ entries,
    parse_answer_key pdf = Ok entries
    ∧ StronglySorted Z.le (map AnswerKeyEntry.q_no entries)
    ∧ NoDup (map AnswerKeyEntry.q_no entries).
Proof.
  intros (numbers & Hcells & Hnodup). unfold parse_answer_key.
  destruct (for_each_appends _ _
              (for_each_appends _ _ scan_table_appends) [] pdf numbers Hcells)
    as (scanned & -> & Hq).
  simpl. eexists. split; [done|]. split.
  - apply (StronglySorted_fmap _ (λ a b, entry_le a b = true)).
    + intros a b. unfold entry_le. by rewrite Z.leb_le.
    + apply sort_by_sorted; [apply entry_le_total | apply entry_le_trans].
  - rewrite sort_by_perm, Hq. exact Hnodup.
Qed.

Lemma answer_key_sorted_witness :
  ∃ entries,
    parse_answer_key Samples.key_pdf = Ok entries
    ∧ StronglySorted Z.le (map AnswerKeyEntry.q_no entries)
    ∧ NoDup (map AnswerKeyEntry.q_no entries).
Proof.
  apply (answer_key_sorted Samples.key_pdf).
  exists [2; 1; 3]%Z. split.
  - assert (Hc : question_number_cells Samples.key_pdf = [u "2"; u "1"; u "3"])
      by (by vm_compute).
    rewrite Hc. repeat constructor.
  - apply (bool_decide_unpack (NoDup [2; 1; 3]%Z)). by vm_compute.
Defined.

(** The key of the sample document, sorted and with the types in upper
    case. *)
Example answer_key_of_sample :
  parse_answer_key Samples.key_pdf = Ok Samples.answer_key.
Proof. by vm_compute. Qed.

(** ** The segmenter *)

Section segmenter.

Lemma slice_app a b c (text : str) :
  (a ≤ b ≤ c)%nat → slice a b text ++ slice b c text = slice a c text.
Proof.
  intros [Hab Hbc]. unfold slice.
  replace b with (a + (b - a))%nat at 3 by lia.
  rewrite <- drop_drop, take_take_drop. f_equal. lia.
Qed.

Lemma slice_to_end a (text : str) : slice a (length text) text = drop a text.
Proof. unfold slice. apply take_ge. rewrite length_drop. lia. Qed.

Lemma slice_from_start b (text : str) : slice 0 b text = take b text.
Proof. unfold slice. by rewrite Nat.sub_0_r. Qed.

Lemma chained_app lo hi pre suf :
  chained lo hi (pre ++ suf) → ∃ lo', chained lo' hi suf.
Proof.
  revert lo. induction pre as [|m pre IH]; intros lo; simpl; [eauto|].
  intros [_ H]. eauto.
Qed.

Lemma chained_lookup lo hi ms i a b :
  chained lo hi ms → ms !! i = Some a → ms !! S i = Some b →
  (m_start a ≤ m_end a ≤ m_start b)%nat.
Proof.
  revert lo i. induction ms as [|m ms IH]; intros lo i Hc Ha Hb; [done|].
  destruct Hc as [Hm Hc]. destruct i as [|i]; simpl in *.
  - injection Ha as <-. destruct ms as [|m' ms]; [done|].
    injection Hb as <-. destruct Hc as [? _]. lia.
  - eapply IH; eauto.
Qed.

(** The metadata spans of a run of anchors tile the text from the first
    of them to the end. *)
Lemma metadata_tiles text ms suf :
  ∀ pre lo, ms = pre ++ suf → chained lo (length text) suf →
    flat_map (λ a : rmatch_obj * spans, metadata_text a.2)
             (imap (λ i m, (m, spans_at text ms (length pre + i) m)) suf)
    = slice (match suf with m :: _ => m_start m | [] => length text end)
            (length text) text.
Proof.
  induction suf as [|m suf IH]; intros pre lo Hms Hc.
  - simpl. unfold slice. by rewrite Nat.sub_diag.
  - destruct Hc as [Hm Hc]. cbn [imap flat_map snd].
    rewrite (imap_ext _ (λ i m', (m', spans_at text ms (length (pre ++ [m]) + i) m'))).
    2:{ intros i x _. simpl. rewrite length_app. simpl. do 2 f_equal. lia. }
    rewrite (IH (pre ++ [m]) (m_end m)); [|by rewrite <- app_assoc|done].
    unfold spans_at at 1. simpl.
    replace (ms !! (length pre + 0 + 1)%nat) with (suf !! 0%nat).
    2:{ rewrite Hms, lookup_app_r by lia.
        by replace (length pre + 0 + 1 - length pre)%nat with 1%nat by lia. }
    destruct suf as [|m' suf]; simpl.
    + rewrite (slice_app _ (length text)); [done | lia].
    + destruct Hc as [? _]. apply slice_app. lia.
Qed.

End segmenter.

(** C8, as stated, fails: with two anchors, the content span of the second
    one repeats the end of the metadata span of the first, and the spans in
    order are longer than the text. *)
Lemma spans_round_trip_counterexample :
  length (anchor_spans Samples.two_anchors) = 2%nat
  ∧ spans_in_order Samples.two_anchors ≠ Samples.two_anchors
  ∧ length (spans_in_order Samples.two_anchors)
    = (length Samples.two_anchors + 39)%nat.
Proof.
  split; [by vm_compute|].
  assert (Hl : length (spans_in_order Samples.two_anchors)
               = (length Samples.two_anchors + 39)%nat) by (by vm_compute).
  split; [|exact Hl]. intros E. rewrite E in Hl. lia.
Qed.

(** C8, amended. For a flattened text with at least one anchor, the
    content span of the first anchor followed by the metadata spans of all
    the anchors, in order, is the text; the content span of every later
    anchor is the end of the metadata span of the anchor before it, after
    the text of that anchor. *)
Theorem spans_cover flat_text first others :
  anchor_spans flat_text = first :: others →
  content_text first.2
  ++ flat_map (λ a, metadata_text a.2) (first :: others) = flat_text
  ∧ ∀ i a b,
      anchor_spans flat_text !! i = Some a →
      anchor_spans flat_text !! S i = Some b →
      metadata_text a.2 = group0 flat_text a.1 ++ content_text b.2.
Proof.
  intros Hs. pose proof (finditer_chained start_pattern flat_text) as Hc.
  unfold anchor_spans in *.
  set (ms := finditer start_pattern flat_text) in *. split.
  - rewrite <- Hs.
    pose proof (metadata_tiles flat_text ms ms [] 0%nat eq_refl Hc) as Ht.
    cbn [length Nat.add] in Ht. rewrite Ht.
    destruct ms as [|m ms']; [done|]. simpl in Hs. injection Hs as <- _.
    simpl. rewrite slice_to_end, slice_from_start. apply take_drop.
  - intros i a b Ha Hb. rewrite list_lookup_imap in Ha, Hb.
    destruct (ms !! i) as [ma|] eqn:Hma; [|done].
    destruct (ms !! S i) as [mb|] eqn:Hmb; [|done].
    simpl in Ha, Hb. injection Ha as <-. injection Hb as <-. simpl.
    unfold spans_at, group0. simpl.
    replace (i + 1)%nat with (S i) by lia. rewrite Hmb, Hma.
    symmetry. apply slice_app. eapply chained_lookup; eauto.
Qed.

Lemma spans_cover_witness :
  ∃ first others,
    anchor_spans Samples.two_anchors = first :: others
    ∧ content_text first.2
      ++ flat_map (λ a, metadata_text a.2) (first :: others)
      = Samples.two_anchors.
Proof.
  destruct (anchor_spans Samples.two_anchors) as [|first others] eqn:Hs;
    [by vm_compute in Hs|].
  exists first, others. split; [done|].
  exact (proj1 (spans_cover Samples.two_anchors first others Hs)).
Defined.

(* ===================================================================== *)
(** * Further properties of the program *)
(* ===================================================================== *)

Import Notions.

(** ** [evaluate]: the pairing of responses with key entries *)

Section pairing.

Lemma same_key_same_element {A : Type} (f : A → Z) (l : list A) x y :
  NoDup (map f l) → x ∈ l → y ∈ l → f x = f y → x = y.
Proof.
  induction l as [|a l IH]; simpl; intros Hnd Hx Hy Hf.
  - by apply elem_of_nil in Hx.
  - apply NoDup_cons in Hnd as [Ha Hnd].
    apply elem_of_cons in Hx as [-> | Hx]; apply elem_of_cons in Hy as [-> | Hy].
    + done.
    + exfalso. apply Ha. rewrite Hf. apply list_elem_of_fmap. eauto.
    + exfalso. apply Ha. rewrite <- Hf. apply list_elem_of_fmap. eauto.
    + by apply IH.
Qed.

Lemma response_le_total a b : response_le a b = true ∨ response_le b a = true.
Proof. unfold response_le. rewrite !Z.leb_le. lia. Qed.

Lemma response_le_trans a b c :
  response_le a b = true → response_le b c = true → response_le a c = true.
Proof. unfold response_le. rewrite !Z.leb_le. lia. Qed.

(** Two arrangements of the same records with distinct ids sort to the
    same list. *)
Lemma sorted_responses_unique rs1 rs2 :
  rs1 ≡ₚ rs2 → NoDup (map ResponseQuestion.question_id rs1) →
  sort_by response_le rs1 = sort_by response_le rs2.
Proof.
  intros Hp Hnd.
  apply (StronglySorted_unique_strong (λ a b, response_le a b = true)).
  - intros x y Hx Hy Hxy Hyx. rewrite sort_by_perm in Hx, Hy.
    rewrite <- Hp in Hy.
    apply (same_key_same_element ResponseQuestion.question_id rs1); try done.
    unfold response_le in Hxy, Hyx. rewrite Z.leb_le in Hxy, Hyx. lia.
  - apply sort_by_sorted; [apply response_le_total | apply response_le_trans].
  - apply sort_by_sorted; [apply response_le_total | apply response_le_trans].
  - by rewrite !sort_by_perm.
Qed.

(** The rows of an evaluation carry the ids of the sorted responses, one
    after the other. *)
Lemma rows_question_ids answer_key mark_scheme response_questions rows :
  evaluate answer_key mark_scheme response_questions = Ok rows →
  map EvaluationRow.question_id rows
  = take (length answer_key)
         (map ResponseQuestion.question_id
              (sort_by response_le response_questions)).
Proof.
  intros Hev. apply evaluate_inv in Hev as [Hlen Hall].
  set (sorted := sort_by response_le response_questions) in *.
  apply list_eq. intros i.
  rewrite list_lookup_fmap, lookup_take, list_lookup_fmap.
  destruct (rows !! i) as [row|] eqn:Hrow; simpl.
  - destruct (Forall2_lookup_r _ _ _ _ _ Hall Hrow) as ([j k] & Hik & Hr).
    rewrite list_lookup_imap in Hik.
    destruct (answer_key !! i) as [k'|] eqn:Hk; [|discriminate].
    simpl in Hik. injection Hik as <- <-. simpl in Hr.
    apply evaluate_row_inv in Hr as (r & Hr & _ & _ & _ & Hid & _).
    apply lookup_lt_Some in Hk. rewrite decide_True by done.
    by rewrite Hr, Hid.
  - apply lookup_ge_None in Hrow.
    apply Forall2_length in Hall. rewrite length_imap in Hall.
    rewrite decide_False; [done | lia].
Qed.

End pairing.

(** X1. [evaluate] pairs by position after sorting, so the order in which the
    response records arrive does not matter when their ids are distinct. *)
Theorem evaluate_order_insensitive answer_key mark_scheme responses1 responses2 :
  responses1 ≡ₚ responses2 →
  NoDup (map ResponseQuestion.question_id responses1) →
  evaluate answer_key mark_scheme responses1
  = evaluate answer_key mark_scheme responses2.
Proof.
  intros Hp Hnd. unfold evaluate.
  rewrite (sorted_responses_unique _ _ Hp Hnd). done.
Qed.

Lemma evaluate_order_insensitive_witness :
  evaluate Samples.answer_key Samples.mark_scheme Samples.responses
  = evaluate Samples.answer_key Samples.mark_scheme (rev Samples.responses).
Proof.
  apply evaluate_order_insensitive.
  - apply Permutation_rev.
  - apply (bool_decide_unpack
             (NoDup (map ResponseQuestion.question_id Samples.responses))).
    by vm_compute.
Defined.

(** X2. The rows take the responses in ascending order of id: row [i] carries
    the [i]-th smallest id, and the responses with the largest ids, beyond
    the number of key entries, are not used. *)
Theorem evaluate_ids_ascending answer_key mark_scheme response_questions rows :
  evaluate answer_key mark_scheme response_questions = Ok rows →
  map EvaluationRow.question_id rows
  = take (length answer_key)
         (map ResponseQuestion.question_id
              (sort_by response_le response_questions))
  ∧ StronglySorted Z.le (map EvaluationRow.question_id rows).
Proof.
  intros Hev. pose proof (rows_question_ids _ _ _ _ Hev) as Hids.
  split; [exact Hids|]. rewrite Hids.
  assert (Hs : StronglySorted Z.le
                 (map ResponseQuestion.question_id
                      (sort_by response_le response_questions))).
  { apply (StronglySorted_fmap _ (λ a b, response_le a b = true)).
    - intros a b. unfold response_le. by rewrite Z.leb_le.
    - apply sort_by_sorted; [apply response_le_total | apply response_le_trans]. }
  rewrite <- (take_drop (length answer_key)) in Hs.
  by apply StronglySorted_app_1_l in Hs.
Qed.

Lemma evaluate_ids_ascending_witness :
  map EvaluationRow.question_id Samples.rows = [101; 102; 103]%Z.
Proof.
  refine (eq_trans (proj1 (evaluate_ids_ascending Samples.answer_key
                             Samples.mark_scheme Samples.responses
                             Samples.rows _)) _).
  - by vm_compute.
  - by vm_compute.
Defined.

(** ** [parse_mark_scheme]: the table it returns *)

Section mark_table.

(** The table is the declared table when that has enough entries, and
    the declared table with the fallback filled in otherwise. *)
Lemma parse_mark_scheme_of_declared pdf total declared :
  for_each scan_page ∅ pdf = Ok declared →
  parse_mark_scheme pdf total
  = Ok (if (Z.of_nat (size declared) <? total)%Z
        then fill_missing declared total else declared).
Proof.
  intros Hd. unfold parse_mark_scheme. rewrite Hd. simpl.
  by destruct (_ <? _)%Z.
Qed.

Lemma parse_mark_scheme_inv pdf total marks :
  parse_mark_scheme pdf total = Ok marks →
  ∃ declared,
    for_each scan_page ∅ pdf = Ok declared
    ∧ marks = (if (Z.of_nat (size declared) <? total)%Z
               then fill_missing declared total else declared).
Proof.
  unfold parse_mark_scheme.
  destruct (for_each scan_page ∅ pdf) as [declared|e]; [|discriminate].
  simpl. exists declared. split; [done|].
  destruct (_ <? _)%Z; by injection H as <-.
Qed.

End mark_table.

(** X3. Whatever the question paper says, every mark in the table is 1.0 or
    2.0. *)
Theorem mark_scheme_values pdf total_questions marks q_no v :
  parse_mark_scheme pdf total_questions = Ok marks →
  marks !! q_no = Some v →
  v = 1%float ∨ v = 2%float.
Proof.
  intros Hp Hv. apply parse_mark_scheme_inv in Hp as (declared & Hd & ->).
  rewrite scan_pages_bands in Hd.
  assert (Hm : mark_table declared).
  { apply (scan_bands_values _ _ _ Hd). intros q x. by rewrite lookup_empty. }
  destruct (_ <? _)%Z; [|by apply (Hm q_no)].
  rewrite fill_missing_spec in Hv.
  destruct (declared !! q_no) as [x|] eqn:Hq.
  - injection Hv as <-. by apply (Hm q_no).
  - case_decide; [|done]. injection Hv as <-. apply fallback_mark_values.
Qed.

Lemma mark_scheme_values_witness :
  ∃ marks,
    parse_mark_scheme Samples.paper_plain 7 = Ok marks
    ∧ marks !! 6%Z = Some 2%float.
Proof.
  exists (fill_missing (assign_range (assign_range ∅ 1 5 1%float) 4 6 2%float) 7).
  assert (Hp : parse_mark_scheme Samples.paper_plain 7
               = Ok (fill_missing
                       (assign_range (assign_range ∅ 1 5 1%float) 4 6 2%float) 7))
    by (by vm_compute).
  split; [exact Hp|].
  assert (Hv : fill_missing (assign_range (assign_range ∅ 1 5 1%float) 4 6 2%float)
                 7 !! 6%Z = Some 2%float) by (by vm_compute).
  destruct (mark_scheme_values _ _ _ _ _ Hp Hv) as [E|E]; [|done].
  exfalso. apply (f_equal (λ x, PrimFloat.eqb x 1)) in E. by vm_compute in E.
Defined.

(** X4. The table never has fewer entries than there are questions. *)
Theorem mark_scheme_size pdf total_questions marks :
  parse_mark_scheme pdf total_questions = Ok marks →
  (total_questions ≤ Z.of_nat (size marks))%Z.
Proof.
  intros Hp. apply parse_mark_scheme_inv in Hp as (declared & _ & ->).
  destruct (Z.ltb_spec (Z.of_nat (size declared)) total_questions) as [Hlt|Hge];
    [|done].
  rewrite <- size_dom, dom_fill_missing.
  assert (Hs : (size (question_numbers total_questions)
                ≤ size (dom declared ∪ question_numbers total_questions))%nat).
  { apply subseteq_size. apply union_subseteq_r. }
  rewrite size_question_numbers in Hs. lia.
Qed.

Lemma mark_scheme_size_witness :
  ∃ marks,
    parse_mark_scheme Samples.paper_long_band 10 = Ok marks
    ∧ (10 ≤ Z.of_nat (size marks))%Z.
Proof.
  exists (assign_range ∅ 1 12 1%float).
  assert (Hp : parse_mark_scheme Samples.paper_long_band 10
               = Ok (assign_range ∅ 1 12 1%float)) by (by vm_compute).
  split; [exact Hp|]. exact (mark_scheme_size _ _ _ Hp).
Defined.

(** X5. The fallback never overwrites a declared mark: the table contains the
    declared table, and a question number without a declared mark gets
    the fallback value exactly when the declared table has fewer entries
    than there are questions and the number lies in
    [1..total_questions]. *)
Theorem mark_scheme_extends_declared pdf total_questions declared :
  for_each scan_page ∅ pdf = Ok declared →
  ∃ marks,
    parse_mark_scheme pdf total_questions = Ok marks
    ∧ declared ⊆ marks
    ∧ ∀ q_no, declared !! q_no = None →
        marks !! q_no
        = if decide ((Z.of_nat (size declared) < total_questions)%Z
                     ∧ (1 ≤ q_no ≤ total_questions)%Z)
          then Some (fallback_mark q_no) else None.
Proof.
  intros Hd. eexists. split; [by apply parse_mark_scheme_of_declared|].
  destruct (Z.ltb_spec (Z.of_nat (size declared)) total_questions) as [Hlt|Hge].
  - split.
    + apply map_subseteq_spec. intros q v Hq.
      by rewrite fill_missing_spec, Hq.
    + intros q Hq. rewrite fill_missing_spec, Hq.
      destruct (decide (1 ≤ q ≤ total_questions)%Z).
      * by rewrite decide_True.
      * rewrite decide_False; [done | tauto].
  - split; [done|]. intros q Hq. rewrite Hq.
    rewrite decide_False; [done | lia].
Qed.

Lemma mark_scheme_extends_declared_witness :
  ∃ marks,
    parse_mark_scheme Samples.paper_plain 7 = Ok marks
    ∧ assign_range (assign_range ∅ 1 5 1%float) 4 6 2%float ⊆ marks.
Proof.
  destruct (mark_scheme_extends_declared Samples.paper_plain 7
              (assign_range (assign_range ∅ 1 5 1%float) 4 6 2%float))
    as (marks & Hp & Hsub & _).
  - by vm_compute.
  - exists marks. split; [exact Hp | exact Hsub].
Defined.

(** ** [parse_answer_key] on any document *)

Section key_rows.

Lemma sequence_app {A : Type} (xs ys : list (result A)) :
  sequence (xs ++ ys)
  = bind (sequence xs) (λ l1, bind (sequence ys) (λ l2, Ok (l1 ++ l2))).
Proof.
  induction xs as [|[a|e] xs IH]; simpl; [|rewrite IH|done].
  - by destruct (sequence ys).
  - destruct (sequence xs) as [l1|]; simpl; [|done].
    by destruct (sequence ys).
Qed.

(** A loop that appends the results of each element appends the results
    of all of them, up to the first error. *)
Lemma for_each_results {X : Type}
    (body : list AnswerKeyEntry.t → X → result (list AnswerKeyEntry.t))
    (results : X → list (result AnswerKeyEntry.t)) :
  (∀ entries x,
     body entries x = bind (sequence (results x)) (λ l, Ok (entries ++ l))) →
  ∀ xs entries,
    for_each body entries xs
    = bind (sequence (flat_map results xs)) (λ l, Ok (entries ++ l)).
Proof.
  intros Hbody. induction xs as [|x xs IH]; intros entries; simpl.
  - by rewrite app_nil_r.
  - rewrite Hbody, sequence_app.
    destruct (sequence (results x)) as [l1|]; simpl; [|done].
    rewrite IH. destruct (sequence (flat_map results xs)); simpl; [|done].
    by rewrite app_assoc.
Qed.

Lemma scan_row_results entries r :
  scan_row entries r = bind (sequence (row_result r)) (λ l, Ok (entries ++ l)).
Proof.
  unfold scan_row, row_result. destruct (length r <? 4)%nat; simpl.
  { by rewrite app_nil_r. }
  destruct (isdigit _); simpl; [|by rewrite app_nil_r].
  by destruct (py_int _).
Qed.

Lemma scan_table_results entries tb :
  scan_table entries tb
  = bind (sequence (table_results tb)) (λ l, Ok (entries ++ l)).
Proof.
  unfold scan_table, table_results.
  destruct tb as [|head [|r rows]]; simpl; try by rewrite app_nil_r.
  destruct (header_ok _); [|by simpl; rewrite app_nil_r].
  apply (for_each_results scan_row row_result scan_row_results (r :: rows)).
Qed.

(** The nested loops of the extractor visit the accepted rows in document
    order and stop at the first one that raises. *)
Lemma scan_document_results pdf :
  for_each (for_each scan_table) [] pdf = sequence (document_results pdf).
Proof.
  unfold document_results.
  rewrite (for_each_results (for_each scan_table) (flat_map table_results)).
  - by destruct (sequence _).
  - intros entries page.
    apply (for_each_results scan_table table_results scan_table_results).
Qed.

Lemma Forall2_flat_map {X A B : Type} (P : A → B → Prop)
    (f : X → list A) (g : X → list B) xs :
  (∀ x, Forall2 P (f x) (g x)) → Forall2 P (flat_map f xs) (flat_map g xs).
Proof.
  intros H. induction xs as [|x xs IH]; simpl; [constructor|].
  by apply Forall2_app.
Qed.

Lemma row_results_cells r : Forall2 result_of_cell (row_number_cell r) (row_result r).
Proof.
  unfold row_number_cell, row_result.
  destruct (length r <? 4)%nat; [constructor|].
  destruct (isdigit _); [|constructor].
  constructor; [|constructor]. unfold result_of_cell, py_int.
  destruct (int _); simpl; eauto.
Qed.

Lemma document_results_cells pdf :
  Forall2 result_of_cell (question_number_cells pdf) (document_results pdf).
Proof.
  apply Forall2_flat_map. intros page. apply Forall2_flat_map. intros tb.
  unfold table_number_cells, table_results.
  destruct tb as [|head [|r rows]]; try constructor.
  destruct (header_ok _); [|constructor].
  apply Forall2_flat_map, row_results_cells.
Qed.

Lemma sequence_cells cells rs :
  Forall2 result_of_cell cells rs →
  match sequence rs with
  | Ok entries =>
    Forall2 (λ c entry, int c = Some (AnswerKeyEntry.q_no entry)) cells entries
  | Raise e => first_unreadable cells e
  end.
Proof.
  induction 1 as [|c r cells rs Hc _ IH]; simpl; [constructor|].
  unfold result_of_cell in Hc. destruct (int c) as [n|] eqn:Hn.
  - destruct Hc as (entry & -> & Hq).
    destruct (sequence rs) as [entries|e]; simpl.
    + constructor; [by rewrite Hq | exact IH].
    + destruct IH as (before & cell & after & -> & Hb & Hcell & ->).
      exists (c :: before), cell, after. repeat split; try done.
      constructor; [by rewrite Hn | exact Hb].
  - subst r. exists [], c, cells. repeat split; try done.
Qed.

Lemma parse_answer_key_results pdf :
  parse_answer_key pdf
  = bind (sequence (document_results pdf)) (λ l, Ok (sort_by entry_le l)).
Proof. unfold parse_answer_key. by rewrite scan_document_results. Qed.

(** The sort keeps the entries of one question number in their order. *)
Lemma insert_by_stable n x l :
  filter (λ a, AnswerKeyEntry.q_no a = n) (insert_by entry_le x l)
  = filter (λ a, AnswerKeyEntry.q_no a = n) (x :: l).
Proof.
  induction l as [|y t IH]; simpl; [done|].
  destruct (entry_le x y) eqn:Hle; [done|].
  rewrite filter_cons, IH, !filter_cons.
  unfold entry_le in Hle. apply Z.leb_gt in Hle.
  repeat case_decide; try done; lia.
Qed.

Lemma sort_by_stable n l :
  filter (λ a, AnswerKeyEntry.q_no a = n) (sort_by entry_le l)
  = filter (λ a, AnswerKeyEntry.q_no a = n) l.
Proof.
  induction l as [|x l IH]; simpl; [done|].
  by rewrite insert_by_stable, !filter_cons, IH.
Qed.

End key_rows.

(** X6. [parse_answer_key] returns exactly for the documents in which [int]
    converts every question-number cell, whether or not a number is used
    twice. *)
Theorem answer_key_returns_iff pdf :
  (∃ entries, parse_answer_key pdf = Ok entries)
  ↔ Forall (λ c, is_Some (int c)) (question_number_cells pdf).
Proof.
  rewrite parse_answer_key_results.
  pose proof (sequence_cells _ _ (document_results_cells pdf)) as H.
  destruct (sequence (document_results pdf)) as [l|e]; simpl; split.
  - intros _. eapply Forall2_Forall_l; [exact H|].
    apply Forall_forall. intros entry _ c Hc. by rewrite Hc.
  - eauto.
  - intros [? [=]].
  - intros Hall. destruct H as (before & cell & after & Heq & _ & Hcell & _).
    rewrite Heq in Hall. apply Forall_app in Hall as [_ Hall].
    apply Forall_cons in Hall as [[? Hs] _]. congruence.
Qed.

(** X7. When [parse_answer_key] raises, the error is that of [int] on the
    first question-number cell, in document order, that [int] rejects: a
    cell that passes [isdigit] with a digit that is not a decimal, or with
    more digits than the conversion limit. *)
Theorem answer_key_error pdf e :
  parse_answer_key pdf = Raise e →
  first_unreadable (question_number_cells pdf) e.
Proof.
  rewrite parse_answer_key_results.
  pose proof (sequence_cells _ _ (document_results_cells pdf)) as H.
  destruct (sequence (document_results pdf)) as [l|e']; simpl; [discriminate|].
  by intros [= <-].
Qed.

Lemma answer_key_error_witness :
  first_unreadable (question_number_cells superscript_key) (IntError [178]).
Proof. apply (answer_key_error superscript_key). by vm_compute. Defined.

(** X8. For any document on which it returns, [parse_answer_key] gives the
    entries of the accepted rows, none dropped and none added, in
    ascending order of [q_no]; entries that share a question number stay in
    document order. *)
Theorem answer_key_stable_sort pdf entries :
  parse_answer_key pdf = Ok entries →
  ∃ in_document_order,
    sequence (document_results pdf) = Ok in_document_order
    ∧ entries ≡ₚ in_document_order
    ∧ StronglySorted Z.le (map AnswerKeyEntry.q_no entries)
    ∧ ∀ n, filter (λ a, AnswerKeyEntry.q_no a = n) entries
           = filter (λ a, AnswerKeyEntry.q_no a = n) in_document_order.
Proof.
  rewrite parse_answer_key_results.
  destruct (sequence (document_results pdf)) as [l|e']; simpl; [|discriminate].
  intros [= <-]. exists l. split; [done|]. split; [apply sort_by_perm|].
  split.
  - apply (StronglySorted_fmap _ (λ a b, entry_le a b = true)).
    + intros a b. unfold entry_le. by rewrite Z.leb_le.
    + apply sort_by_sorted; [apply entry_le_total | apply entry_le_trans].
  - intros n. apply sort_by_stable.
Qed.

Lemma answer_key_stable_sort_witness :
  ∃ entries,
    parse_answer_key repeated_key = Ok entries
    ∧ map AnswerKeyEntry.q_type
          (filter (λ a, AnswerKeyEntry.q_no a = 2%Z) entries)
      = [u "MCQ"; u "MSQ"].
Proof.
  exists [AnswerKeyEntry.mk 1 (u "MCQ") (u "GA") (u "C");
          AnswerKeyEntry.mk 2 (u "MCQ") (u "GA") (u "B");
          AnswerKeyEntry.mk 2 (u "MSQ") (u "CS") (u "A;D")].
  assert (Hp : parse_answer_key repeated_key
               = Ok [AnswerKeyEntry.mk 1 (u "MCQ") (u "GA") (u "C");
                     AnswerKeyEntry.mk 2 (u "MCQ") (u "GA") (u "B");
                     AnswerKeyEntry.mk 2 (u "MSQ") (u "CS") (u "A;D")])
    by (by vm_compute).
  split; [exact Hp|].
  destruct (answer_key_stable_sort _ _ Hp) as (l & Hl & _ & _ & Hst).
  rewrite (Hst 2%Z).
  assert (El : l = [AnswerKeyEntry.mk 2 (u "MCQ") (u "GA") (u "B");
                    AnswerKeyEntry.mk 1 (u "MCQ") (u "GA") (u "C");
                    AnswerKeyEntry.mk 2 (u "MSQ") (u "CS") (u "A;D")]).
  { assert (Hs : sequence (document_results repeated_key)
                 = Ok [AnswerKeyEntry.mk 2 (u "MCQ") (u "GA") (u "B");
                       AnswerKeyEntry.mk 1 (u "MCQ") (u "GA") (u "C");
                       AnswerKeyEntry.mk 2 (u "MSQ") (u "CS") (u "A;D")])
      by (by vm_compute).
    rewrite Hs in Hl. by injection Hl as <-. }
  rewrite El. by vm_compute.
Defined.

(** ** The declarations that [parse_mark_scheme] finds *)

(** One step into a concatenation: the run of its first part, and the
    state after it, which is again anchored in the text. *)
Ltac peel Hrun Ha :=
  let s := fresh "s" in
  let R := fresh "R" in
  apply run_cat_inv in Hrun as (s & R & Hrun);
  apply (run_anchored _ _ _ _ R) in Ha.

Ltac no_group := apply (bool_decide_unpack _); vm_compute; exact I.

Section declarations.

(** The characters that a letter matches when case is ignored. *)
Lemma ieq_cases c x :
  ieq c x = true →
  x = ascii_lower c ∨ x = ascii_lower c - 32
  ∨ (ascii_lower c = 107 ∧ x = 8490)
  ∨ (ascii_lower c = 115 ∧ x = 383)
  ∨ (ascii_lower c = 105 ∧ (x = 304 ∨ x = 305)).
Proof.
  unfold ieq. rewrite !orb_true_iff, !andb_true_iff, !orb_true_iff, !N.eqb_eq.
  intros [[[H|H]|H]|H]; [|tauto..].
  unfold ascii_lower at 1, is_ascii_upper, in_range in H.
  destruct (_ && _); [right; left; lia | left; done].
Qed.

End declarations.

(** The characters that a given letter matches, one goal for each. *)
Ltac ieq_split H :=
  let H' := fresh "H" in
  apply ieq_cases in H as [H|[H|[[H' H]|[[H' H]|[H' [H|H]]]]]];
  try (vm_compute in H'; discriminate);
  try clear H';
  vm_compute in H; subst.

Section band_groups.

Lemma lang_ilit3 a b c w :
  lang (Cat (ilit1 a) (Cat (ilit1 b) (ilit1 c))) w →
  ∃ x y z, w = [x; y; z] ∧ ieq a x = true ∧ ieq b y = true ∧ ieq c z = true.
Proof.
  intros (w1 & w2 & -> & (x & -> & Hx) & w3 & w4 & -> & (y & -> & Hy)
          & (z & -> & Hz)).
  exists x, y, z. done.
Qed.

(** The mark word of a declaration is ONE or TWO in some mix of cases. *)
Lemma mark_word_upper w :
  lang (Alt (ilit "ONE") (ilit "TWO")) w →
  upper w = u "ONE" ∨ upper w = u "TWO".
Proof.
  intros [H|H]; [left | right];
    apply lang_ilit3 in H as (x & y & z & -> & Hx & Hy & Hz);
    ieq_split Hx; ieq_split Hy; ieq_split Hz; by vm_compute.
Qed.

(** The three groups of a declaration. *)
Lemma band_groups text m :
  m ∈ finditer band_pattern text →
  ∃ a b w,
    group text m 1 = Some a ∧ lang digits a
    ∧ group text m 2 = Some b ∧ lang digits b
    ∧ group text m 3 = Some w ∧ lang (Alt (ilit "ONE") (ilit "TWO")) w.
Proof.
  intros Hm.
  apply finditer_run in Hm as (st0 & st' & Ha & _ & _ & Hrun & _ & Hc).
  symmetry in Hc. unfold band_pattern in Hrun. cbn [cats] in Hrun.
  do 3 peel Hrun Ha.
  destruct (group_first text 1 _ _ _ _ m Hrun Ha) as (a & La & Ga);
    [no_group | done |].
  do 7 peel Hrun Ha.
  destruct (group_first text 2 _ _ _ _ m Hrun Ha) as (b & Lb & Gb);
    [no_group | done |].
  do 4 peel Hrun Ha.
  destruct (group_first text 3 _ _ _ _ m Hrun Ha) as (w & Lw & Gw);
    [no_group | done |].
  exists a, b, w. done.
Qed.

(** [int] converts a numeral of decimal digits unless it is longer than
    the conversion limit. *)
Lemma int_decimals w :
  lang digits w →
  (0 ≤ default 0%Z (int w))%Z
  ∧ (is_Some (int w) ↔ (length w ≤ int_max_str_digits)%nat).
Proof.
  intros Hw. apply lang_digits in Hw as [Hne Hds].
  unfold int. destruct w as [|c t]; [done|].
  assert (Hm : is_Some (mapM decimal_value (c :: t))).
  { apply mapM_is_Some. eapply Forall_impl; [exact Hds|].
    intros x Hx. by apply isdecimal_value. }
  destruct Hm as [ds ->]. simpl. case_decide; simpl.
  - split; [lia|]. split; [done | eauto].
  - split; [lia|]. split; [by intros [? ?] | lia].
Qed.

End band_groups.

Section band_scan.

Lemma declarations_shape pdf mt :
  mt ∈ band_declarations pdf →
  lang digits mt.1.1 ∧ lang digits mt.1.2
  ∧ lang (Alt (ilit "ONE") (ilit "TWO")) mt.2.
Proof.
  unfold band_declarations. intros H.
  apply list_elem_of_In, in_flat_map in H as (page & _ & H).
  apply list_elem_of_In in H. unfold findall3 in H.
  apply list_elem_of_fmap in H as (m & -> & Hm). simpl.
  apply band_groups in Hm as (a & b & w & Ga & La & Gb & Lb & Gw & Lw).
  unfold group_or_empty. by rewrite Ga, Gb, Gw.
Qed.

(** The scan of the declarations stops at the first numeral beyond the
    conversion limit, and only there. *)
Lemma scan_bands_result bands :
  Forall (λ mt, lang digits mt.1.1 ∧ lang digits mt.1.2) bands →
  ∀ marks,
    match for_each scan_band marks bands with
    | Ok _ =>
      Forall (λ mt, (length mt.1.1 ≤ int_max_str_digits)%nat
                    ∧ (length mt.1.2 ≤ int_max_str_digits)%nat) bands
    | Raise e =>
      ∃ mt numeral,
        mt ∈ bands ∧ (numeral = mt.1.1 ∨ numeral = mt.1.2)
        ∧ (int_max_str_digits < length numeral)%nat
        ∧ e = IntError numeral
    end.
Proof.
  induction 1 as [|[[a b] w] bands [La Lb] _ IH]; intros marks;
    simpl in *; [constructor|].
  destruct (int_decimals a La) as [_ Ha], (int_decimals b Lb) as [_ Hb].
  unfold py_int.
  destruct (int a) as [start_q|]; simpl.
  - destruct (int b) as [end_q|]; simpl.
    + assert (Hab : (length a ≤ int_max_str_digits)%nat
                    ∧ (length b ≤ int_max_str_digits)%nat).
      { split; [apply Ha | apply Hb]; eauto. }
      destruct (_mark_word_to_value w); simpl;
        match goal with
        | |- context [for_each scan_band ?m bands] =>
          specialize (IH m); destruct (for_each scan_band m bands)
        end;
        try (by constructor);
        destruct IH as (mt & numeral & Hin & Hn & Hlen & ->);
        exists mt, numeral; (split; [by right | done]).
    + exists (a, b, w), b. simpl. split; [by left|]. split; [by right|].
      split; [|done].
      destruct (decide (length b ≤ int_max_str_digits)%nat) as [Hl|Hl]; [|lia].
      apply Hb in Hl as [? [=]].
  - exists (a, b, w), a. simpl. split; [by left|]. split; [by left|].
    split; [|done].
    destruct (decide (length a ≤ int_max_str_digits)%nat) as [Hl|Hl]; [|lia].
    apply Ha in Hl as [? [=]].
Qed.

End band_scan.

(** X9. Every declaration that the pattern finds has two numerals of decimal
    digits and the mark word ONE or TWO in some mix of cases: a declaration
    that is found is never skipped for its mark word. *)
Theorem declarations_assign pdf mt :
  mt ∈ band_declarations pdf →
  (mt.1.1 ≠ [] ∧ Forall (λ c, isdecimal c = true) mt.1.1)
  ∧ (mt.1.2 ≠ [] ∧ Forall (λ c, isdecimal c = true) mt.1.2)
  ∧ ((upper mt.2 = u "ONE" ∧ _mark_word_to_value mt.2 = Some 1%float)
     ∨ (upper mt.2 = u "TWO" ∧ _mark_word_to_value mt.2 = Some 2%float)).
Proof.
  intros H. apply declarations_shape in H as (La & Lb & Lw).
  destruct mt as [[a b] w]. simpl in *.
  split; [by apply lang_digits|]. split; [by apply lang_digits|].
  unfold _mark_word_to_value.
  destruct (mark_word_upper _ Lw) as [E | E]; [left | right];
    (split; [exact E|]); rewrite E; done.
Qed.

Lemma declarations_assign_witness :
  upper (u "two") = u "TWO"
  ∧ _mark_word_to_value (u "two") = Some 2%float.
Proof.
  destruct (declarations_assign Samples.paper_plain (u "4", u "6", u "two"))
    as (_ & _ & [[E _] | H]).
  - assert (E : band_declarations Samples.paper_plain
                = [(u "1", u "5", u "ONE"); (u "4", u "6", u "two")])
      by (by vm_compute).
    rewrite E. apply list_elem_of_further, list_elem_of_here.
  - by vm_compute in E.
  - exact H.
Defined.

(** X10. [parse_mark_scheme] returns unless a numeral of a declaration has more
    digits than [int] converts; when it raises, the error is that of [int]
    on such a numeral. *)
Theorem mark_scheme_returns_iff pdf total_questions :
  ((∃ marks, parse_mark_scheme pdf total_questions = Ok marks)
   ↔ Forall (λ mt, (length mt.1.1 ≤ int_max_str_digits)%nat
                   ∧ (length mt.1.2 ≤ int_max_str_digits)%nat)
            (band_declarations pdf))
  ∧ ∀ e, parse_mark_scheme pdf total_questions = Raise e →
         ∃ mt numeral,
           mt ∈ band_declarations pdf
           ∧ (numeral = mt.1.1 ∨ numeral = mt.1.2)
           ∧ (int_max_str_digits < length numeral)%nat
           ∧ e = IntError numeral.
Proof.
  unfold parse_mark_scheme. rewrite scan_pages_bands.
  pose proof (scan_bands_result (band_declarations pdf)) as H.
  specialize (H ltac:(apply Forall_forall; intros mt Hmt;
                      apply declarations_shape in Hmt; tauto) ∅).
  destruct (for_each scan_band ∅ (band_declarations pdf)) as [m|e0]; simpl.
  - split; [|by destruct (_ <? _)%Z]. split; [done|].
    intros _. destruct (_ <? _)%Z; eauto.
  - split; [|by intros e [= <-]]. split; [by intros [? [=]]|].
    intros Hall. destruct H as (mt & numeral & Hin & Hn & Hlen & _).
    rewrite Forall_forall in Hall. apply Hall in Hin as [H1 H2].
    destruct Hn as [-> | ->]; lia.
Qed.

(** ** [_extract_option_map_from_text] *)

Ltac in_list := apply list_elem_of_In; simpl; auto 10.

Section option_map.

Lemma lang_plus_chr p w :
  lang (Plus (Chr p)) w → w ≠ [] ∧ Forall (λ c, p c = true) w.
Proof.
  intros (w1 & w2 & -> & (c & -> & Hc) & Hstar).
  apply lang_star_chr in Hstar. split; [done|]. by constructor.
Qed.

Lemma address_of_not_space w :
  w ≠ [] → Forall (λ c, not_space c = true) w → address w.
Proof.
  intros Hne Hw. split; [done|]. eapply Forall_impl; [exact Hw|].
  intros c Hc. unfold not_space in Hc. by destruct (isspace c).
Qed.

(** The token after a label. *)
Lemma option_pattern_group label text m :
  search (option_pattern label) text = Some m →
  address (group_or_empty text m 1).
Proof.
  intros Hs. apply search_run in Hs as (st0 & st' & Ha & _ & _ & Hrun & _ & Hc).
  unfold option_pattern in Hrun. cbn [cats] in Hrun.
  do 6 peel Hrun Ha.
  destruct (group_last text 1 _ _ _ m Hrun Ha) as (w & Lw & Gw); [done|].
  unfold group_or_empty. rewrite Gw. simpl.
  apply lang_plus_chr in Lw as [? ?]. by apply address_of_not_space.
Qed.

Lemma in_a_d_cases c :
  in_a_d c = true →
  c = 97 ∨ c = 98 ∨ c = 99 ∨ c = 100 ∨ c = 65 ∨ c = 66 ∨ c = 67 ∨ c = 68.
Proof.
  unfold in_a_d, in_range. intros Hin.
  apply orb_true_iff in Hin as [Hin|Hin];
    apply andb_true_iff in Hin as [H1 H2];
    apply N.leb_le in H1, H2; lia.
Qed.

(** An address of the fallback. *)
Lemma fallback_url_group text m :
  m ∈ finditer fallback_url_pattern text →
  address (group_or_empty text m 1).
Proof.
  intros Hm.
  apply finditer_run in Hm as (st0 & st' & Ha & _ & _ & Hrun & _ & Hcaps).
  unfold fallback_url_pattern in Hrun. cbn [cats] in Hrun.
  do 2 peel Hrun Ha.
  destruct (group_last text 1 _ _ _ m Hrun Ha) as (w & Lw & Gw); [done|].
  unfold group_or_empty. rewrite Gw. simpl.
  cbn [cats] in Lw.
  destruct Lw as (w1 & w2 & -> & L1 & w3 & w4 & -> & (c & -> & Hc)
                  & w5 & w6 & -> & (d & -> & Hd) & L6).
  apply lang_plus_chr in L1 as [Hne L1].
  apply lang_ilit3 in L6 as (x & y & z & -> & Hx & Hy & Hz).
  split; [by destruct w1|].
  apply Forall_app. split.
  { eapply Forall_impl; [exact L1|].
    intros k Hk. unfold not_space in Hk. by destruct (isspace k). }
  apply N.eqb_eq in Hd as <-.
  assert (Hcs : isspace c = false).
  { apply in_a_d_cases in Hc.
    destruct Hc as [->|[->|[->|[->|[->|[->|[->| ->]]]]]]]; by vm_compute. }
  ieq_split Hx; ieq_split Hy; ieq_split Hz;
    repeat (constructor; [done || by vm_compute|]); constructor.
Qed.

Lemma unique_in_order_elem urls :
  ∀ seen url, url ∈ unique_in_order seen urls → url ∈ urls.
Proof.
  induction urls as [|x urls IH]; intros seen url H; simpl in H;
    [by apply elem_of_nil in H|].
  case_decide.
  - right. eauto.
  - apply elem_of_cons in H as [-> | H]; [by left | right; eauto].
Qed.

End option_map.

Section option_map_paths.

(** The entries found by label. *)
Lemma labelled_entries block_text label url :
  fold_left (λ om l,
               match search (option_pattern l) block_text with
               | Some m => <[u l := group_or_empty block_text m 1]> om
               | None => om
               end) option_labels (∅ : gmap str str) !! label = Some url →
  label ∈ letters ∧ address url.
Proof.
  unfold option_labels. cbn [fold_left].
  pose proof (option_pattern_group "A" block_text) as HA.
  pose proof (option_pattern_group "B" block_text) as HB.
  pose proof (option_pattern_group "C" block_text) as HC.
  pose proof (option_pattern_group "D" block_text) as HD.
  destruct (search (option_pattern "A") block_text) as [mA|];
    destruct (search (option_pattern "B") block_text) as [mB|];
    destruct (search (option_pattern "C") block_text) as [mC|];
    destruct (search (option_pattern "D") block_text) as [mD|];
    intros H;
    repeat (apply lookup_insert_Some in H as [[<- <-] | [_ H]];
            [split; [in_list | eauto]|]);
    by rewrite lookup_empty in H.
Qed.

(** The addresses of the fallback. *)
Lemma fallback_entries block_text url :
  url ∈ unique_in_order ∅
          (map (λ m, group_or_empty block_text m 1)
               (finditer fallback_url_pattern block_text)) →
  address url.
Proof.
  intros Hin.
  apply unique_in_order_elem, list_elem_of_fmap in Hin as (m & -> & Hm).
  by apply fallback_url_group in Hm.
Qed.

Lemma four_entries (a b c d label url : str) (P : str → Prop) :
  (<[u "D" := d]> (<[u "C" := c]> (<[u "B" := b]> (<[u "A" := a]> ∅)))
   : gmap str str) !! label = Some url →
  P a → P b → P c → P d →
  label ∈ letters ∧ P url.
Proof.
  intros H Pa Pb Pc Pd.
  repeat (apply lookup_insert_Some in H as [[<- <-] | [_ H]];
          [split; [in_list | done]|]).
  by rewrite lookup_empty in H.
Qed.

Lemma option_map_address block_text label url :
  _extract_option_map_from_text block_text !! label = Some url →
  label ∈ letters ∧ address url.
Proof.
  unfold _extract_option_map_from_text.
  destruct (decide (size _ = 4%nat)) as [_|_]; [apply labelled_entries|].
  destruct (unique_in_order _ _) as [|a [|b [|c [|d rest]]]] eqn:Hu;
    try apply labelled_entries.
  intros H. apply (four_entries a b c d label url address H);
    apply (fallback_entries block_text); rewrite Hu; in_list.
Qed.

End option_map_paths.

(** X11. The option map of a block has keys among A, B, C and D, and its
    addresses are not empty and hold no whitespace, whether they were found
    by label or by the fallback. *)
Theorem option_map_entries block_text label url :
  _extract_option_map_from_text block_text !! label = Some url →
  label ∈ letters ∧ url ≠ [] ∧ Forall (λ c, isspace c = false) url.
Proof.
  unfold _extract_option_map_from_text.
  destruct (decide (size _ = 4%nat)) as [_|_].
  { intros H. by apply (labelled_entries block_text). }
  destruct (unique_in_order _ _) as [|a [|b [|c [|d rest]]]] eqn:Hu;
    try (intros H; by apply (labelled_entries block_text)).
  assert (Hall : ∀ x, x ∈ [a; b; c; d] → address x).
  { intros x Hx. apply (fallback_entries block_text). rewrite Hu.
    do 4 (apply elem_of_cons in Hx as [-> | Hx]; [in_list|]).
    by apply elem_of_nil in Hx. }
  intros H.
  apply (four_entries a b c d label url address H); apply Hall; in_list.
Qed.

Lemma option_map_entries_witness :
  u "A" ∈ letters ∧ u "x/1c.png" ≠ []
  ∧ Forall (λ c, isspace c = false) (u "x/1c.png").
Proof.
  apply (option_map_entries (u "Options A. IMG_SRC:x/1c.png 2. IMG_SRC:x/1d.png")).
  by vm_compute.
Defined.

(** ** The records of [parse_response_sheet] *)

Section records.

Lemma lstrip_spaces s c t :
  Forall (λ x, isspace x = true) s → isspace c = false →
  lstrip (s ++ c :: t) = c :: t.
Proof.
  intros Hs Hc. induction Hs as [|x s Hx _ IH]; simpl.
  - by rewrite Hc.
  - by rewrite Hx.
Qed.

(** A letter between whitespace strips to the letter. *)
Lemma strip_letter s1 c s2 :
  Forall (λ x, isspace x = true) s1 → Forall (λ x, isspace x = true) s2 →
  isspace c = false →
  strip (s1 ++ c :: s2) = [c].
Proof.
  intros H1 H2 Hc. unfold strip, rstrip.
  rewrite (lstrip_spaces s1 c s2 H1 Hc).
  change (c :: s2) with ([c] ++ s2). rewrite rev_app_distr. simpl.
  rewrite (lstrip_spaces (rev s2) c []); [done | | done].
  apply Forall_forall. intros x Hx. apply list_elem_of_In, in_rev in Hx.
  rewrite Forall_forall in H2. apply H2. by apply list_elem_of_In.
Qed.

Lemma split_on_sep sep ds s :
  Forall (λ c, c ≠ sep) ds →
  split_on sep (ds ++ sep :: s) = ds :: split_on sep s.
Proof.
  intros Hds. destruct (split_on_cons sep (sep :: s)) as (hd & tl & E).
  rewrite (split_on_prefix sep ds _ hd tl Hds E).
  simpl in E. rewrite N.eqb_refl in E. injection E as <- <-.
  by rewrite app_nil_r.
Qed.

Lemma split_on_none sep ds :
  Forall (λ c, c ≠ sep) ds → split_on sep ds = [ds].
Proof.
  intros Hds. rewrite <- (app_nil_r ds) at 1.
  rewrite (split_on_prefix sep ds [] [] [] Hds); [by rewrite app_nil_r | done].
Qed.

Lemma space_not_comma s :
  Forall (λ x, isspace x = true) s → Forall (λ c, c ≠ 44) s.
Proof.
  intros H. eapply Forall_impl; [exact H|].
  intros c Hc ->. by vm_compute in Hc.
Qed.

Lemma in_a_d_plain c : in_a_d c = true → isspace c = false ∧ c ≠ 44.
Proof.
  intros Hc. apply in_a_d_cases in Hc.
  destruct Hc as [->|[->|[->|[->|[->|[->|[->| ->]]]]]]]; by vm_compute.
Qed.

Lemma in_a_d_upper c : in_a_d c = true → upper [c] ∈ letters.
Proof.
  intros Hc. apply in_a_d_cases in Hc.
  destruct Hc as [->|[->|[->|[->|[->|[->|[->| ->]]]]]]];
    apply list_elem_of_In; vm_compute; auto 10.
Qed.

(** The items of a list of chosen options. *)
Lemma split_chosen items :
  Forall (lang (cats [ws; lit ","; ws; Chr in_a_d])) items →
  ∀ s c, Forall (λ x, isspace x = true) s → in_a_d c = true →
         Forall padded_letter (split_on 44 ((s ++ [c]) ++ concat items)).
Proof.
  induction 1 as [|item items Hitem _ IH]; intros s c Hs Hc; cbn [concat].
  - rewrite app_nil_r, split_on_none.
    + constructor; [|constructor]. exists s, c, []. by rewrite Forall_nil.
    + apply Forall_app. split; [by apply space_not_comma|].
      constructor; [by apply in_a_d_plain | constructor].
  - cbn [cats] in Hitem.
    destruct Hitem as (a & w2 & -> & La & w3 & w4 & -> & (k & -> & Hk)
                       & b & w6 & -> & Lb & (c' & -> & Hc')).
    apply N.eqb_eq in Hk as <-. apply lang_star_chr in La, Lb.
    change (N_of_ascii ",") with 44.
    match goal with
    | |- Forall _ (split_on 44 ?l) =>
      assert (E : l = (s ++ c :: a) ++ 44 :: ((b ++ [c']) ++ concat items))
        by (by rewrite <- !app_assoc);
      rewrite E
    end.
    rewrite split_on_sep.
    + constructor; [by exists s, c, a | by apply IH].
    + apply Forall_app. split; [by apply space_not_comma|].
      constructor; [by apply in_a_d_plain | by apply space_not_comma].
Qed.

Lemma chosen_labels_letters w :
  lang (Cat (Chr in_a_d) (Star (cats [ws; lit ","; ws; Chr in_a_d]))) w →
  Forall (λ label, label ∈ letters)
         (map (λ part, upper (strip part))
              (filter (λ part, strip part ≠ []) (split_on 44 w))).
Proof.
  intros (w1 & w2 & -> & (c & -> & Hc) & items & -> & Hitems).
  pose proof (split_chosen items Hitems [] c (Forall_nil_2 _) Hc) as Hparts.
  simpl in Hparts. simpl.
  apply Forall_fmap. apply Forall_forall. intros part Hpart.
  apply list_elem_of_filter in Hpart as [_ Hpart].
  rewrite Forall_forall in Hparts.
  destruct (Hparts _ Hpart) as (s1 & k & s2 & -> & H1 & H2 & Hk). simpl.
  rewrite strip_letter; [by apply in_a_d_upper | done | done |].
  by apply in_a_d_plain.
Qed.

Lemma question_type_upper t :
  lang (Alt (ilit "MCQ") (Alt (ilit "MSQ") (ilit "NAT"))) t →
  upper t ∈ [u "MCQ"; u "MSQ"; u "NAT"].
Proof.
  intros [H|[H|H]];
    apply lang_ilit3 in H as (x & y & z & -> & Hx & Hy & Hz);
    ieq_split Hx; ieq_split Hy; ieq_split Hz;
    apply list_elem_of_In; vm_compute; auto.
Qed.

(** The three groups of an anchor. *)
Lemma anchor_groups text m :
  m ∈ finditer start_pattern text →
  ∃ t d s,
    group text m 1 = Some t
    ∧ lang (Alt (ilit "MCQ") (Alt (ilit "MSQ") (ilit "NAT"))) t
    ∧ group text m 2 = Some d ∧ lang digits d
    ∧ group text m 3 = Some s ∧ lang status_phrases s.
Proof.
  intros Hm.
  apply finditer_run in Hm as (st0 & st' & Ha & _ & _ & Hrun & _ & Hcaps).
  symmetry in Hcaps. unfold start_pattern in Hrun. cbn [cats] in Hrun.
  do 6 peel Hrun Ha.
  destruct (group_first text 1 _ _ _ _ m Hrun Ha) as (t & Lt & Gt);
    [no_group | done |].
  do 8 peel Hrun Ha.
  destruct (group_first text 2 _ _ _ _ m Hrun Ha) as (d & Ld & Gd);
    [no_group | done |].
  do 6 peel Hrun Ha.
  destruct (group_last text 3 _ _ _ m Hrun Ha) as (ph & Lph & Gph); [done|].
  exists t, d, ph. done.
Qed.

Lemma chosen_group text m :
  search chosen_pattern text = Some m →
  lang (Cat (Chr in_a_d) (Star (cats [ws; lit ","; ws; Chr in_a_d])))
       (group_or_empty text m 1).
Proof.
  intros Hs. apply search_run in Hs as (st0 & st' & Ha & _ & _ & Hrun & _ & Hcaps).
  unfold chosen_pattern in Hrun. cbn [cats] in Hrun.
  do 6 peel Hrun Ha.
  destruct (group_last text 1 _ _ _ m Hrun Ha) as (w & Lw & Gw); [done|].
  unfold group_or_empty. by rewrite Gw.
Qed.

Lemma anchor_spans_elem flat_text a :
  a ∈ anchor_spans flat_text → a.1 ∈ finditer start_pattern flat_text.
Proof.
  unfold anchor_spans. intros H.
  apply list_elem_of_lookup in H as [i H].
  rewrite list_lookup_imap in H.
  destruct (finditer start_pattern flat_text !! i) as [m|] eqn:Hm;
    [|discriminate].
  injection H as <-. simpl. by apply list_elem_of_lookup_2 in Hm.
Qed.

(** What the record of an anchor holds. *)
Lemma question_of_anchor_inv flat_text a q :
  a ∈ anchor_spans flat_text →
  question_of_anchor flat_text a = Ok q →
  well_formed q
  ∧ int (group_or_empty flat_text a.1 2) = Some (ResponseQuestion.question_id q)
  ∧ ResponseQuestion.q_type q = upper (group_or_empty flat_text a.1 1)
  ∧ ResponseQuestion.status q = group_or_empty flat_text a.1 3.
Proof.
  intros Ha%anchor_spans_elem. destruct a as [start sp]. simpl in Ha.
  apply anchor_groups in Ha as (t & d & s & Gt & Lt & Gd & Ld & Gs & Ls).
  cbn [fst]. unfold question_of_anchor, group_or_empty.
  rewrite Gt, Gd, Gs. simpl.
  destruct (int_decimals d Ld) as [Hpos _].
  unfold py_int. destruct (int d) as [n|]; [|discriminate]. simpl in *.
  intros [= <-]. simpl. split; [|done].
  pose proof (question_type_upper t Lt) as Ht.
  unfold well_formed. simpl.
  split; [exact Ht|]. split; [exact Ls|]. split; [exact Hpos|].
  split; [|split; [|split]].
  - destruct (is_choice_type _); [|constructor].
    destruct (search chosen_pattern _) as [m|] eqn:Hm; [|constructor].
    apply chosen_labels_letters. by apply chosen_group.
  - intros label url.
    destruct (is_choice_type _); [|by rewrite lookup_empty].
    apply option_map_address.
  - intros ->. done.
  - intros Hn. by rewrite bool_decide_eq_false_2.
Qed.

(** The loop over the anchors stops at the first identifier beyond the
    conversion limit, and only there. *)
Lemma anchors_result flat_text anchors :
  (∀ a, a ∈ anchors → a ∈ anchor_spans flat_text) →
  ∀ acc,
    match for_each (collect (question_of_anchor flat_text)) acc anchors with
    | Ok questions =>
      ∃ added,
        questions = acc ++ added
        ∧ Forall2 (λ a q, question_of_anchor flat_text a = Ok q) anchors added
    | Raise e =>
      ∃ a, a ∈ anchors
           ∧ (int_max_str_digits < length (group_or_empty flat_text a.1 2))%nat
           ∧ e = IntError (group_or_empty flat_text a.1 2)
    end.
Proof.
  induction anchors as [|a anchors IH]; intros Hin acc; simpl.
  - exists []. by rewrite app_nil_r.
  - unfold collect at 1.
    destruct (question_of_anchor flat_text a) as [q|e] eqn:Hq; simpl.
    + specialize (IH ltac:(intros; apply Hin; by right) (acc ++ [q])).
      destruct (for_each _ _ anchors) as [questions|e].
      * destruct IH as (added & -> & Hadded). exists (q :: added).
        rewrite <- app_assoc. split; [done | by constructor].
      * destruct IH as (a' & Ha' & Hlen & ->). exists a'.
        split; [by right | done].
    + exists a. split; [by left|].
      assert (Ha : a ∈ anchor_spans flat_text) by (apply Hin; by left).
      apply anchor_spans_elem in Ha. destruct a as [start sp]. simpl in *.
      apply anchor_groups in Ha as (t & d & s & Gt & Lt & Gd & Ld & Gs & Ls).
      unfold group_or_empty in *. rewrite Gd in *. simpl in *.
      destruct (int_decimals d Ld) as [_ Hlim].
      unfold py_int in Hq. destruct (int d) as [n|] eqn:Hd; [discriminate|].
      simpl in Hq. injection Hq as <-. split; [|done].
      destruct (decide (length d ≤ int_max_str_digits)%nat) as [Hl|Hl]; [|lia].
      apply Hlim in Hl as [? [=]].
Qed.

End records.

(** X12. Every record that [parse_response_sheet] returns is well formed: its
    type is MCQ, MSQ or NAT, its status is one of the four phrases, its
    identifier is not negative, its chosen labels and the keys of its
    option map are canonical letters, its addresses are free of whitespace,
    and only the fields of its type are filled. *)
Theorem records_well_formed text questions :
  parse_response_sheet text = Ok questions →
  Forall well_formed questions.
Proof.
  unfold parse_response_sheet, parse_flat_text.
  destruct (negb _); [intros [= <-]; constructor|].
  pose proof (anchors_result (normalize_space text)
                (anchor_spans (normalize_space text)) (λ a H, H) []) as H.
  destruct (for_each _ _ _) as [qs|e]; [|discriminate].
  intros [= <-]. destruct H as (added & -> & Hadded). simpl.
  apply Forall_forall. intros q Hq.
  apply list_elem_of_lookup in Hq as [i Hq].
  destruct (Forall2_lookup_r _ _ _ _ _ Hadded Hq) as (a & Ha & Hqa).
  apply list_elem_of_lookup_2 in Ha.
  by apply (question_of_anchor_inv _ _ _ Ha) in Hqa as [? _].
Qed.

Lemma records_well_formed_witness :
  ∃ questions,
    parse_response_sheet Samples.two_anchors = Ok questions
    ∧ Forall well_formed questions.
Proof.
  destruct (parse_response_sheet Samples.two_anchors) as [questions|e] eqn:E.
  - exists questions. split; [done|].
    exact (records_well_formed Samples.two_anchors questions E).
  - by vm_compute in E.
Defined.

(** X13. A sheet without the words [Question Type], written exactly so, gives
    no record, whatever anchors it holds; any other sheet gives one record
    for each anchor, in text order, with the type, the identifier and the
    status of that anchor. *)
Theorem records_per_anchor text questions :
  parse_response_sheet text = Ok questions →
  let flat_text := normalize_space text in
  if contains (u "Question Type") flat_text
  then
    Forall2 (λ start q,
               ResponseQuestion.q_type q
               = upper (group_or_empty flat_text start 1)
               ∧ int (group_or_empty flat_text start 2)
                 = Some (ResponseQuestion.question_id q)
               ∧ ResponseQuestion.status q = group_or_empty flat_text start 3)
            (finditer start_pattern flat_text) questions
  else questions = [].
Proof.
  intros H. cbv zeta. unfold parse_response_sheet, parse_flat_text in H.
  set (flat_text := normalize_space text) in *.
  destruct (contains _ flat_text); simpl in H; [|by inversion H].
  pose proof (anchors_result flat_text (anchor_spans flat_text) (λ a H, H) [])
    as Hr.
  rewrite H in Hr. destruct Hr as (added & -> & Hadded). simpl.
  assert (Hfst : map fst (anchor_spans flat_text)
                 = finditer start_pattern flat_text).
  { unfold anchor_spans. apply list_eq. intros i.
    rewrite list_lookup_fmap, list_lookup_imap.
    by destruct (finditer start_pattern flat_text !! i). }
  rewrite <- Hfst. apply Forall2_fmap_l.
  apply Forall2_same_length_lookup. split; [by eapply Forall2_length|].
  intros i a q Ha Hq.
  destruct (Forall2_lookup_l _ _ _ _ _ Hadded Ha) as (q' & Hq' & Hqa).
  assert (q' = q) as -> by congruence.
  apply list_elem_of_lookup_2 in Ha.
  apply (question_of_anchor_inv _ _ _ Ha) in Hqa as (_ & ? & ? & ?). done.
Qed.

Lemma records_per_anchor_witness :
  ∃ questions,
    parse_response_sheet Samples.two_anchors = Ok questions
    ∧ Forall2 (λ start q,
                 ResponseQuestion.q_type q
                 = upper (group_or_empty (normalize_space Samples.two_anchors)
                                         start 1)
                 ∧ int (group_or_empty (normalize_space Samples.two_anchors)
                                       start 2)
                   = Some (ResponseQuestion.question_id q)
                 ∧ ResponseQuestion.status q
                   = group_or_empty (normalize_space Samples.two_anchors)
                                    start 3)
              (finditer start_pattern (normalize_space Samples.two_anchors))
              questions.
Proof.
  destruct (parse_response_sheet Samples.two_anchors) as [questions|e] eqn:E;
    [|by vm_compute in E].
  exists questions. split; [done|].
  pose proof (records_per_anchor Samples.two_anchors questions E) as H.
  cbv zeta in H.
  assert (Hc : contains (u "Question Type")
                        (normalize_space Samples.two_anchors) = true)
    by (by vm_compute).
  rewrite Hc in H. exact H.
Defined.

(** X14. [parse_response_sheet] returns unless the identifier of an anchor has
    more digits than [int] converts; when it raises, the error is that of
    [int] on such an identifier. *)
Theorem response_sheet_returns_iff text :
  let flat_text := normalize_space text in
  ((∃ questions, parse_response_sheet text = Ok questions)
   ↔ contains (u "Question Type") flat_text = false
     ∨ Forall (λ start,
                 (length (group_or_empty flat_text start 2)
                  ≤ int_max_str_digits)%nat)
              (finditer start_pattern flat_text))
  ∧ ∀ e, parse_response_sheet text = Raise e →
         ∃ start,
           start ∈ finditer start_pattern flat_text
           ∧ (int_max_str_digits
              < length (group_or_empty flat_text start 2))%nat
           ∧ e = IntError (group_or_empty flat_text start 2).
Proof.
  cbv zeta. unfold parse_response_sheet, parse_flat_text.
  set (flat_text := normalize_space text).
  destruct (contains _ flat_text); simpl.
  2: { split; [|discriminate]. split; [by left | eauto]. }
  pose proof (anchors_result flat_text (anchor_spans flat_text) (λ a H, H) [])
    as Hr.
  destruct (for_each _ _ _) as [questions|e0].
  - split; [|discriminate]. split; [|eauto]. intros _. right.
    destruct Hr as (added & _ & Hadded).
    apply Forall_forall. intros start Hstart.
    apply list_elem_of_lookup in Hstart as [i Hi].
    assert (Ha : anchor_spans flat_text !! i
                 = Some (start, spans_at flat_text
                                  (finditer start_pattern flat_text) i start)).
    { unfold anchor_spans. by rewrite list_lookup_imap, Hi. }
    destruct (Forall2_lookup_l _ _ _ _ _ Hadded Ha) as (q & _ & Hq).
    apply list_elem_of_lookup_2 in Ha as Hin.
    apply (question_of_anchor_inv _ _ _ Hin) in Hq as (_ & Hint & _).
    simpl in Hint.
    apply list_elem_of_lookup_2, anchor_groups in Hi
      as (t & d & s & _ & _ & Gd & Ld & _).
    unfold group_or_empty in *. rewrite Gd in *. simpl in *.
    apply (int_decimals d Ld). eauto.
  - destruct Hr as (a & Ha & Hlen & ->).
    apply anchor_spans_elem in Ha. split.
    + split; [by intros [? [=]]|]. intros [[=]|Hall].
      rewrite Forall_forall in Hall. apply Hall in Ha. lia.
    + intros e [= <-]. eauto.
Qed.

(** ** [run]: the whole calculation *)

Section whole_run.

Lemma evaluate_raises answer_key mark_scheme response_questions e :
  evaluate answer_key mark_scheme response_questions = Raise e →
  e = InsufficientResponses (length response_questions) (length answer_key)
  ∧ (length response_questions < length answer_key)%nat.
Proof.
  unfold evaluate. rewrite sort_by_length.
  destruct (Nat.ltb_spec (length response_questions) (length answer_key))
    as [Hlt|Hge].
  - by intros [= <-].
  - set (sorted := sort_by response_le response_questions).
    destruct (for_each_collect_ok
                (λ ik, evaluate_row mark_scheme sorted ik.1 ik.2)
                (imap pair answer_key) []) as (rows & Heq & _).
    { intros [i k] Hin. simpl.
      apply list_elem_of_lookup in Hin as [j Hj].
      rewrite list_lookup_imap in Hj.
      destruct (answer_key !! j) as [k'|] eqn:Hk; [|discriminate].
      simpl in Hj. injection Hj as <- <-.
      apply evaluate_row_ok. apply lookup_lt_Some in Hk.
      subst sorted. rewrite sort_by_length. lia. }
    rewrite Heq. discriminate.
Qed.

(** The rows carry the question numbers of the key, in key order. *)
Lemma rows_question_numbers answer_key mark_scheme response_questions rows :
  evaluate answer_key mark_scheme response_questions = Ok rows →
  map EvaluationRow.q_no rows = map AnswerKeyEntry.q_no answer_key.
Proof.
  intros Hev. apply evaluate_inv in Hev as [_ Hall].
  apply list_eq. intros i. rewrite !list_lookup_fmap.
  pose proof (Forall2_length _ _ _ Hall) as Hlen. rewrite length_imap in Hlen.
  destruct (answer_key !! i) as [k|] eqn:Hk; simpl.
  - assert (Hik : imap pair answer_key !! i = Some (i, k))
      by (by rewrite list_lookup_imap, Hk).
    destruct (Forall2_lookup_l _ _ _ _ _ Hall Hik) as (row & -> & Hr).
    simpl in *. by apply evaluate_row_inv in Hr as (_ & _ & _ & _ & -> & _).
  - apply lookup_ge_None in Hk. rewrite lookup_ge_None_2; [done | lia].
Qed.

(** The marks of a row under a mark table of the data model. *)
Lemma row_marks answer_key mark_scheme response_questions rows row :
  mark_table mark_scheme →
  evaluate answer_key mark_scheme response_questions = Ok rows →
  row ∈ rows →
  (EvaluationRow.max_marks row = 1%float ∨ EvaluationRow.max_marks row = 2%float)
  ∧ (EvaluationRow.marks row = EvaluationRow.max_marks row
     ∨ EvaluationRow.marks row = 0%float
     ∨ EvaluationRow.marks row = (- (EvaluationRow.max_marks row / 3))%float)
  ∧ (EvaluationRow.marks row <=? EvaluationRow.max_marks row)%float = true.
Proof.
  intros Htable Hev Hin.
  apply list_elem_of_lookup in Hin as [index Hrow].
  destruct (rows_paired _ _ _ _ _ _ Hev Hrow) as (key_entry & response & Hp).
  apply paired_score in Hp as (Hs & Hm & _). rewrite <- Hm in Hs.
  assert (Hmax : EvaluationRow.max_marks row = 1%float
                 ∨ EvaluationRow.max_marks row = 2%float).
  { rewrite Hm. by apply marks_for_cases. }
  split; [exact Hmax|].
  destruct (float_one_two _ Hmax) as (_ & Hpos & Hpen & _ & _ & Hrefl & _).
  apply score_cases in Hs as [E | [E | [E _]]]; rewrite E; auto.
Qed.

Lemma sorted_entries pdf entries :
  parse_answer_key pdf = Ok entries →
  StronglySorted Z.le (map AnswerKeyEntry.q_no entries).
Proof.
  rewrite parse_answer_key_results.
  destruct (sequence (document_results pdf)) as [l|e']; simpl; [|discriminate].
  intros [= <-].
  apply (StronglySorted_fmap _ (λ a b, entry_le a b = true)).
  - intros a b. unfold entry_le. by rewrite Z.leb_le.
  - apply sort_by_sorted; [apply entry_le_total | apply entry_le_trans].
Qed.

Lemma sorted_ids answer_key mark_scheme response_questions rows :
  evaluate answer_key mark_scheme response_questions = Ok rows →
  StronglySorted Z.le (map EvaluationRow.question_id rows).
Proof.
  intros Hev. rewrite (rows_question_ids _ _ _ _ Hev).
  assert (Hs : StronglySorted Z.le
                 (map ResponseQuestion.question_id
                      (sort_by response_le response_questions))).
  { apply (StronglySorted_fmap _ (λ a b, response_le a b = true)).
    - intros a b. unfold response_le. by rewrite Z.leb_le.
    - apply sort_by_sorted; [apply response_le_total | apply response_le_trans]. }
  rewrite <- (take_drop (length answer_key)) in Hs.
  by apply StronglySorted_app_1_l in Hs.
Qed.

Lemma parse_answer_key_raises pdf e :
  parse_answer_key pdf = Raise e → ∃ s, e = IntError s ∧ int s = None.
Proof.
  rewrite parse_answer_key_results.
  pose proof (sequence_cells _ _ (document_results_cells pdf)) as H.
  destruct (sequence (document_results pdf)) as [l|e']; simpl; [discriminate|].
  intros [= <-]. destruct H as (_ & cell & _ & _ & _ & Hcell & ->). eauto.
Qed.

Lemma over_limit_int s : (int_max_str_digits < length s)%nat → int s = None.
Proof.
  intros Hlen. unfold int. destruct s as [|c t]; [done|].
  destruct (decide (length (c :: t) ≤ int_max_str_digits)%nat) as [Hl|Hl];
    [lia|].
  by destruct (mapM decimal_value (c :: t)).
Qed.

Lemma parse_mark_scheme_raises pdf total e :
  parse_mark_scheme pdf total = Raise e → ∃ s, e = IntError s ∧ int s = None.
Proof.
  unfold parse_mark_scheme. rewrite scan_pages_bands.
  pose proof (scan_bands_result (band_declarations pdf)) as H.
  specialize (H ltac:(apply Forall_forall; intros mt Hmt;
                      apply declarations_shape in Hmt; tauto) ∅).
  destruct (for_each scan_band ∅ (band_declarations pdf)) as [m|e0]; simpl.
  - by destruct (_ <? _)%Z.
  - intros [= <-]. destruct H as (_ & numeral & _ & _ & Hlen & ->).
    exists numeral. split; [done | by apply over_limit_int].
Qed.

Lemma parse_response_sheet_raises text e :
  parse_response_sheet text = Raise e → ∃ s, e = IntError s ∧ int s = None.
Proof.
  unfold parse_response_sheet, parse_flat_text.
  destruct (negb _); [discriminate|].
  pose proof (anchors_result (normalize_space text)
                (anchor_spans (normalize_space text)) (λ a H, H) []) as H.
  destruct (for_each _ _ _) as [qs|e0]; [discriminate|].
  intros [= <-]. destruct H as (a & _ & Hlen & ->).
  eexists. split; [done | by apply over_limit_int].
Qed.

End whole_run.

(** X15. When [run] gets to print, there is at least one row, the rows are in
    ascending order of question number and of question identifier, every
    row has 1.0 or 2.0 as its maximum, and its marks are the maximum,
    nothing or minus a third of the maximum, never more than the maximum. *)
Theorem run_printed answer_key_pdf question_paper_pdf response_text rows :
  Pipeline.run answer_key_pdf question_paper_pdf response_text
  = Pipeline.Printed rows →
  rows ≠ []
  ∧ StronglySorted Z.le (map EvaluationRow.q_no rows)
  ∧ StronglySorted Z.le (map EvaluationRow.question_id rows)
  ∧ Forall (λ row,
              (EvaluationRow.max_marks row = 1%float
               ∨ EvaluationRow.max_marks row = 2%float)
              ∧ (EvaluationRow.marks row = EvaluationRow.max_marks row
                 ∨ EvaluationRow.marks row = 0%float
                 ∨ EvaluationRow.marks row
                   = (- (EvaluationRow.max_marks row / 3))%float)
              ∧ (EvaluationRow.marks row
                 <=? EvaluationRow.max_marks row)%float = true)
           rows.
Proof.
  unfold Pipeline.run, Pipeline.lift.
  destruct (parse_answer_key answer_key_pdf) as [answer_key|] eqn:Hk;
    [|discriminate].
  destruct answer_key as [|k0 answer_key]; [discriminate|].
  destruct (parse_mark_scheme _ _) as [mark_scheme|] eqn:Hm; [|discriminate].
  destruct (parse_response_sheet _) as [responses|] eqn:Hr; [|discriminate].
  destruct responses as [|r0 responses]; [discriminate|].
  destruct (evaluate _ _ _) as [rows'|] eqn:Hev; [|discriminate].
  intros [= <-].
  pose proof (rows_question_numbers _ _ _ _ Hev) as Hq.
  split; [|split; [|split]].
  - intros ->. discriminate.
  - rewrite Hq. by apply (sorted_entries answer_key_pdf).
  - by apply sorted_ids in Hev.
  - apply Forall_forall. intros row Hrow.
    apply (row_marks _ _ _ _ _ (parse_mark_scheme_values _ _ _ Hm) Hev Hrow).
Qed.

Lemma run_printed_witness :
  ∃ rows,
    Pipeline.run small_key Samples.paper_plain Samples.two_anchors
    = Pipeline.Printed rows
    ∧ rows ≠ []
    ∧ StronglySorted Z.le (map EvaluationRow.q_no rows).
Proof.
  destruct (Pipeline.run small_key Samples.paper_plain Samples.two_anchors)
    as [rows|f] eqn:E; [|by vm_compute in E].
  exists rows. split; [done|].
  destruct (run_printed _ _ _ _ E) as (H1 & H2 & _). done.
Defined.

(** X16. When [run] fails, it is with one of its own two errors, with the error
    of [int] on a numeral that [int] rejects, or with the error for a sheet
    with fewer records than the key has entries: no conversion to [float]
    and no list index ever fails. *)
Theorem run_failures answer_key_pdf question_paper_pdf response_text f :
  Pipeline.run answer_key_pdf question_paper_pdf response_text
  = Pipeline.Failed f →
  match f with
  | Pipeline.CouldNotParseAnswerKey => parse_answer_key answer_key_pdf = Ok []
  | Pipeline.CouldNotParseResponseSheet =>
    parse_response_sheet response_text = Ok []
  | Pipeline.Uncaught (IntError s) => int s = None
  | Pipeline.Uncaught (InsufficientResponses n_responses n_key) =>
    (n_responses < n_key)%nat
  | Pipeline.Uncaught (FloatError _) | Pipeline.Uncaught (IndexError _) => False
  end.
Proof.
  unfold Pipeline.run, Pipeline.lift.
  destruct (parse_answer_key answer_key_pdf) as [answer_key|e] eqn:Hk.
  2: { intros [= <-]. by apply parse_answer_key_raises in Hk as (s & -> & ?). }
  destruct answer_key as [|k0 answer_key]; [by intros [= <-]|].
  destruct (parse_mark_scheme _ _) as [mark_scheme|e] eqn:Hm.
  2: { intros [= <-]. by apply parse_mark_scheme_raises in Hm as (s & -> & ?). }
  destruct (parse_response_sheet _) as [responses|e] eqn:Hr.
  2: { intros [= <-]. by apply parse_response_sheet_raises in Hr as (s & -> & ?). }
  destruct responses as [|r0 responses]; [by intros [= <-]|].
  destruct (evaluate _ _ _) as [rows'|e] eqn:Hev; [discriminate|].
  intros [= <-]. by apply evaluate_raises in Hev as [-> ?].
Qed.

Lemma run_failures_witness :
  Pipeline.run Samples.key_pdf Samples.paper_plain Samples.two_anchors
  = Pipeline.Failed (Pipeline.Uncaught (InsufficientResponses 2 3))
  ∧ (2 < 3)%nat.
Proof.
  assert (E : Pipeline.run Samples.key_pdf Samples.paper_plain
                Samples.two_anchors
              = Pipeline.Failed (Pipeline.Uncaught (InsufficientResponses 2 3)))
    by (by vm_compute).
  split; [exact E|]. exact (run_failures _ _ _ _ E).
Defined.

(** ** What the matcher finds first *)

Section forward.

Lemma takes_eps st : takes Eps st st.
Proof. intros k res H. exact H. Qed.

Lemma takes_chr p c t st :
  rest st = c :: t → p c = true → takes (Chr p) st (advance st t).
Proof. intros Hr Hp k res H. simpl. by rewrite Hr, Hp. Qed.

Lemma rmatch_chr p c t st k :
  rest st = c :: t → p c = true → rmatch (Chr p) st k = k (advance st t).
Proof. intros Hr Hp. simpl. by rewrite Hr, Hp. Qed.

Lemma fails_chr p st : stops p (rest st) → fails (Chr p) st.
Proof.
  intros Hs k. simpl. destruct (rest st) as [|c t]; [done|].
  simpl in Hs. by rewrite Hs.
Qed.

Lemma takes_cat r1 r2 st st1 st2 :
  takes r1 st st1 → takes r2 st1 st2 → takes (Cat r1 r2) st st2.
Proof. intros H1 H2 k res H. simpl. apply H1, H2, H. Qed.

Lemma fails_cat r1 r2 st : fails r1 st → fails (Cat r1 r2) st.
Proof. intros H1 k. simpl. apply H1. Qed.

Lemma fails_cat_r r1 r2 st st1 :
  (∀ k, rmatch r1 st k = k st1) → fails r2 st1 → fails (Cat r1 r2) st.
Proof. intros H1 H2 k. simpl. rewrite H1. apply H2. Qed.

Lemma takes_alt_l r1 r2 st st' : takes r1 st st' → takes (Alt r1 r2) st st'.
Proof. intros H1 k res H. simpl. by rewrite (H1 k res H). Qed.

Lemma takes_alt_r r1 r2 st st' :
  fails r1 st → takes r2 st st' → takes (Alt r1 r2) st st'.
Proof. intros H1 H2 k res H. simpl. rewrite H1. by apply H2. Qed.

Lemma takes_grp i r st st' :
  takes r st st' → takes (Grp i r) st (set_cap i (pos st) st').
Proof. intros H1 k res H. simpl. by apply H1. Qed.

Lemma takes_eos st : at_end (rest st) = true → takes Eos st st.
Proof. intros He k res H. simpl. by rewrite He. Qed.

Lemma after_nil st : after st [] (rest st) = st.
Proof. destruct st. unfold after. simpl. f_equal. lia. Qed.

Lemma after_cons st c w t :
  after (advance st (w ++ t)) w t = after st (c :: w) t.
Proof. unfold after, advance. simpl. f_equal. lia. Qed.

(** Repetition of a class takes the whole run of its characters. *)
Lemma star_chr_takes p w t :
  Forall (λ c, p c = true) w → stops p t →
  ∀ n st, rest st = w ++ t → (length w < n)%nat →
          ∀ k res, k (after st w t) = Some res →
                   star_loop (rmatch (Chr p)) n st k = Some res.
Proof.
  intros Hw Ht. induction Hw as [|c w Hc _ IH]; intros n st Hr Hn k res H.
  - simpl in Hr. rewrite <- Hr, after_nil in H.
    destruct n as [|n]; cbn [star_loop]; [exact H|].
    rewrite (fails_chr p st); [exact H | by rewrite Hr].
  - destruct n as [|n]; [simpl in Hn; lia|].
    simpl in Hr. cbn [star_loop].
    rewrite (rmatch_chr p c (w ++ t) st _ Hr Hc).
    replace (pos st <? pos (advance st (w ++ t)))%nat with true
      by (symmetry; apply Nat.ltb_lt; simpl; lia).
    rewrite (IH n (advance st (w ++ t)) eq_refl ltac:(simpl in Hn; lia) k res);
      [done|].
    by rewrite (after_cons st c).
Qed.

Lemma takes_star_chr p w t st :
  Forall (λ c, p c = true) w → stops p t → rest st = w ++ t →
  takes (Star (Chr p)) st (after st w t).
Proof.
  intros Hw Ht Hr k res H. cbn [rmatch].
  apply (star_chr_takes p w t Hw Ht); [done | | done].
  rewrite Hr, length_app. lia.
Qed.

Lemma takes_plus_chr p w t st :
  w ≠ [] → Forall (λ c, p c = true) w → stops p t → rest st = w ++ t →
  takes (Plus (Chr p)) st (after st w t).
Proof.
  intros Hne Hw Ht Hr. destruct w as [|c w]; [done|].
  apply Forall_cons in Hw as [Hc Hw].
  eapply takes_cat; [by eapply takes_chr|].
  rewrite <- (after_cons st c).
  by apply takes_star_chr.
Qed.

(** A word, character by character. *)
Lemma takes_seq_of (f : char → regex) (q : char → char → Prop) :
  (∀ c x t st, q c x → rest st = x :: t → takes (f c) st (advance st t)) →
  ∀ word w t st, Forall2 q word w → rest st = w ++ t →
                 takes (seq_of f word) st (after st w t).
Proof.
  intros Hf word w t st Hq. revert st.
  induction Hq as [|c x word w Hc Hq IH]; intros st Hr.
  - simpl in *. rewrite <- Hr, after_nil. apply takes_eps.
  - simpl in Hr. rewrite <- (after_cons st x).
    destruct Hq as [|c' x' word w Hc' Hq].
    + simpl. rewrite after_nil. by eapply Hf.
    + change (seq_of f (c :: c' :: word))
        with (Cat (f c) (seq_of f (c' :: word))).
      eapply takes_cat; [by eapply Hf|]. by apply IH.
Qed.

Lemma takes_lit word t st :
  rest st = u word ++ t → takes (lit word) st (after st (u word) t).
Proof.
  intros Hr. unfold lit.
  apply (takes_seq_of lit1 eq); [| | done].
  - intros c x t' st' <- Hr'. eapply takes_chr; [done | apply N.eqb_refl].
  - clear. induction (u word); by constructor.
Qed.

Lemma takes_ilit word w t st :
  Forall2 (λ c x, ieq c x = true) (u word) w → rest st = w ++ t →
  takes (ilit word) st (after st w t).
Proof.
  intros Hw Hr. unfold ilit.
  apply (takes_seq_of ilit1 (λ c x, ieq c x = true)); [|done..].
  intros c x t' st' Hc Hr'. by eapply takes_chr.
Qed.

(** An attempt that takes the pattern is the match of that position, and
    at the start of the text it is what [search] finds. *)
Lemma takes_match_at r p s st' :
  takes r {| pos := p; rest := s; caps := [] |} st' →
  match_at r p s
  = Some {| m_start := p; m_end := pos st'; m_caps := caps st' |}.
Proof. intros H. unfold match_at. by rewrite (H Some st' eq_refl). Qed.

Lemma takes_search r text st' :
  takes r {| pos := 0; rest := text; caps := [] |} st' →
  search r text
  = Some {| m_start := 0; m_end := pos st'; m_caps := caps st' |}.
Proof.
  intros H. unfold search.
  destruct text; simpl; by rewrite (takes_match_at _ _ _ _ H).
Qed.

End forward.

(** ** [normalize_space] *)

Section whitespace.

Lemma lstrip_split s :
  ∃ w t, s = w ++ t ∧ Forall (λ c, isspace c = true) w
         ∧ stops isspace t ∧ lstrip s = t.
Proof.
  induction s as [|c s (w & t & -> & Hw & Ht & Hl)]; simpl.
  - exists [], []. done.
  - destruct (isspace c) eqn:Hc.
    + exists (c :: w), t. repeat split; try done. by constructor.
    + exists [], (c :: w ++ t). done.
Qed.

Lemma collapse_stops t :
  stops isspace t → collapse true t = collapse false t.
Proof. destruct t as [|c t]; simpl; [done|]. by intros ->. Qed.

Lemma stops_collapse_true s : stops isspace (collapse true s).
Proof.
  induction s as [|c s IH]; simpl; [done|].
  destruct (isspace c) eqn:Hc; [exact IH | exact Hc].
Qed.

(** A run of whitespace is one match of [\s+]. *)
Lemma ws1_match_at p c w t :
  isspace c = true → Forall (λ x, isspace x = true) w → stops isspace t →
  match_at ws1 p (c :: w ++ t)
  = Some {| m_start := p; m_end := p + S (length w); m_caps := [] |}.
Proof.
  intros Hc Hw Ht.
  rewrite (takes_match_at ws1 p (c :: w ++ t)
             (after {| pos := p; rest := c :: w ++ t; caps := [] |} (c :: w) t)).
  - done.
  - apply takes_plus_chr; try done. by constructor.
Qed.

Lemma ws1_no_match p s : stops isspace s → match_at ws1 p s = None.
Proof.
  intros Hs. unfold match_at, ws1, Plus.
  by rewrite (fails_cat _ _ _
                (fails_chr isspace {| pos := p; rest := s; caps := [] |} Hs)).
Qed.

Lemma slice_step from p (text : str) c t :
  (from ≤ p)%nat → drop p text = c :: t →
  slice from (S p) text = slice from p text ++ [c].
Proof.
  intros Hle Hd. rewrite <- (slice_app from p (S p)) by lia. f_equal.
  unfold slice. rewrite Hd. by replace (S p - p)%nat with 1%nat by lia.
Qed.

Lemma drop_step p (text : str) c t :
  drop p text = c :: t → drop (S p) text = t.
Proof.
  intros Hd. replace (S p) with (p + 1)%nat by lia.
  by rewrite <- drop_drop, Hd.
Qed.

(** The substitution, match by match, is one pass over the text. *)
Lemma sub_scan (text : str) :
  ∀ s p, drop p text = s →
    (∀ from, (from ≤ p)%nat →
       sub_pieces [32] text (scan ws1 p s 0) from
       = slice from p text ++ collapse false s)
    ∧ (∀ k w t, s = w ++ t → length w = S k →
         Forall (λ x, isspace x = true) w → stops isspace t →
         sub_pieces [32] text (scan ws1 p s (S k)) (p + S k)
         = collapse true s).
Proof.
  induction s as [|c s IH]; intros p Hd.
  - split.
    + intros from Hfrom. cbn [scan]. rewrite ws1_no_match by done.
      cbn [sub_pieces collapse]. rewrite app_nil_r. unfold slice.
      assert (length text ≤ p)%nat.
      { destruct (decide (length text ≤ p)%nat); [done|].
        apply (f_equal length) in Hd. rewrite length_drop in Hd.
        simpl in Hd. lia. }
      rewrite take_ge; [done|]. rewrite length_drop. lia.
    + intros k w t Hs Hlen. destruct w; simpl in *; discriminate.
  - destruct (IH (S p) (drop_step _ _ _ _ Hd)) as [IHa IHb]. split.
    + intros from Hfrom. destruct (isspace c) eqn:Hc.
      * destruct (lstrip_split s) as (w & t & -> & Hw & Ht & _).
        cbn [scan]. rewrite (ws1_match_at p c w t Hc Hw Ht).
        cbn [sub_pieces m_start m_end]. f_equal.
        cbn [collapse]. rewrite Hc. cbn [app]. f_equal.
        replace (p + S (length w) - p - 1)%nat with (length w) by lia.
        destruct w as [|x w].
        -- change ([] ++ t) with t in *. cbn [length].
           replace (p + 1)%nat with (S p) by lia.
           rewrite (IHa (S p)) by lia.
           unfold slice at 1. rewrite Nat.sub_diag, take_0. simpl.
           by rewrite collapse_stops.
        -- replace (p + S (length (x :: w)))%nat
             with (S p + S (length w))%nat by (simpl; lia).
           by apply (IHb (length w) (x :: w) t).
      * cbn [scan]. rewrite ws1_no_match by (by simpl).
        rewrite (IHa from) by lia.
        rewrite (slice_step from p text c s Hfrom Hd), <- app_assoc.
        simpl. by rewrite Hc.
    + intros k w t Hs Hlen Hw Ht.
      destruct w as [|x w]; [discriminate|].
      simpl in Hs. injection Hs as <- ->.
      apply Forall_cons in Hw as [Hx Hw]. simpl in Hlen.
      cbn [scan collapse]. rewrite Hx.
      replace (p + S k)%nat with (S p + k)%nat by lia.
      destruct k as [|k].
      * destruct w; [|discriminate]. change ([] ++ t) with t in *.
        replace (S p + 0)%nat with (S p) by lia.
        rewrite (IHa (S p)) by lia.
        unfold slice at 1. rewrite Nat.sub_diag, take_0. simpl.
        by rewrite collapse_stops.
      * apply (IHb k w t); try done. lia.
Qed.

Lemma re_sub_collapse text : re_sub ws1 (u " ") text = collapse false text.
Proof.
  unfold re_sub, finditer. change (u " ") with [32].
  destruct (sub_scan text text 0 eq_refl) as [H _].
  by rewrite (H 0%nat) by lia.
Qed.

End whitespace.

Section normal_form.

Lemma loosely_collapse s : ∀ b, loosely_spaced (collapse b s) = true.
Proof.
  induction s as [|c s IH]; intros b; simpl; [done|].
  destruct (isspace c) eqn:Hc.
  - destruct b; [apply IH|]. simpl. rewrite IH, andb_true_r.
    pose proof (stops_collapse_true s) as Hs.
    destruct (collapse true s); simpl in *; [done | by rewrite Hs].
  - simpl. by rewrite Hc, IH.
Qed.

Lemma loosely_tail c s : loosely_spaced (c :: s) = true → loosely_spaced s = true.
Proof. simpl. by intros [_ ?]%andb_true_iff. Qed.

Lemma loosely_lstrip s :
  loosely_spaced s = true → loosely_spaced (lstrip s) = true.
Proof.
  induction s as [|c s IH]; [done|]. intros H. simpl.
  destruct (isspace c); [|exact H]. by apply IH, (loosely_tail c).
Qed.

Lemma lstrip_stops s : stops isspace (lstrip s).
Proof. destruct (lstrip_split s) as (w & t & _ & _ & Ht & ->). exact Ht. Qed.

Lemma lstrip_id s : stops isspace s → lstrip s = s.
Proof. destruct s as [|c s]; simpl; [done|]. by intros ->. Qed.

Lemma rstrip_snoc x c :
  rstrip (x ++ [c]) = if isspace c then rstrip x else x ++ [c].
Proof.
  unfold rstrip. rewrite rev_app_distr. simpl.
  destruct (isspace c); [done|]. simpl. by rewrite rev_involutive.
Qed.

Lemma loosely_prefix x c :
  loosely_spaced (x ++ [c]) = true → loosely_spaced x = true.
Proof.
  induction x as [|a x IH]; [done|]. simpl.
  intros [Ha Hx]%andb_true_iff. rewrite (IH Hx), andb_true_r.
  destruct x as [|c' x]; simpl in *; [|exact Ha].
  apply orb_true_iff in Ha as [->|Ha]; [done|].
  apply andb_true_iff in Ha as [-> _]. by rewrite orb_true_r.
Qed.

Lemma single_spaced_snoc x c :
  loosely_spaced (x ++ [c]) = true → isspace c = false →
  single_spaced (x ++ [c]) = true.
Proof.
  intros Hl Hc. induction x as [|a x IH]; simpl; [by rewrite Hc|].
  simpl in Hl. apply andb_true_iff in Hl as [Ha Hx].
  destruct (x ++ [c]) as [|c' y] eqn:E; [by destruct x|].
  rewrite Ha. by apply IH.
Qed.

Lemma normalized_rstrip y :
  loosely_spaced y = true → stops isspace y → normalized (rstrip y) = true.
Proof.
  induction y as [|c x IH] using rev_ind; intros Hl Hs; [done|].
  rewrite rstrip_snoc. destruct (isspace c) eqn:Hc.
  - apply IH; [by apply (loosely_prefix x c)|].
    destruct x; simpl in *; done.
  - unfold normalized.
    destruct (x ++ [c]) as [|a y] eqn:E; [done|].
    simpl in Hs. rewrite Hs. cbn [negb andb]. rewrite <- E.
    apply single_spaced_snoc; [|done]. by rewrite E.
Qed.

Lemma single_spaced_loosely s :
  single_spaced s = true → loosely_spaced s = true.
Proof.
  induction s as [|c s IH]; [done|]. simpl.
  destruct s as [|c' s].
  - intros ->. done.
  - intros [Hc Hs]%andb_true_iff. by rewrite Hc, (IH Hs).
Qed.

Lemma single_spaced_last x c :
  single_spaced (x ++ [c]) = true → isspace c = false.
Proof.
  induction x as [|a x IH]; simpl.
  - by destruct (isspace c).
  - destruct (x ++ [c]) as [|c' y] eqn:E; [by destruct x|].
    intros [_ Hs]%andb_true_iff. by apply IH.
Qed.

Lemma collapse_loosely s :
  loosely_spaced s = true → collapse false s = s.
Proof.
  induction s as [|c s IH]; [done|]. simpl.
  intros [Hc Hs]%andb_true_iff. destruct (isspace c) eqn:Hsp; simpl in Hc.
  - apply andb_true_iff in Hc as [->%N.eqb_eq Hnext].
    rewrite collapse_stops, (IH Hs); [done|].
    destruct s as [|c' s]; simpl; [done|]. simpl in Hnext.
    by destruct (isspace c').
  - by rewrite (IH Hs).
Qed.

Lemma strip_normalized s : normalized s = true → strip s = s.
Proof.
  unfold normalized, strip. destruct s as [|c s]; [done|].
  intros [Hc Hs]%andb_true_iff.
  rewrite lstrip_id by (simpl; by destruct (isspace c)).
  destruct (exists_last (l := c :: s)) as (x & z & E); [done|].
  rewrite E in *. rewrite rstrip_snoc.
  by rewrite (single_spaced_last x z Hs).
Qed.

(** The characters other than whitespace are the same before and after:
    none is dropped, added or moved. *)
Lemma filter_collapse s :
  ∀ b, filter (λ c, isspace c = false) (collapse b s)
       = filter (λ c, isspace c = false) s.
Proof.
  change str with (list char).
  induction s as [|c s IH]; intros b; cbn [collapse]; [done|].
  destruct (isspace c) eqn:Hc.
  - rewrite (filter_cons_False _ c) by (by rewrite Hc).
    destruct b; [apply IH|].
    rewrite filter_cons_False by (intros H; by vm_compute in H). apply IH.
  - rewrite !filter_cons_True by done. by rewrite IH.
Qed.

Lemma filter_lstrip s :
  filter (λ c, isspace c = false) (lstrip s)
  = filter (λ c, isspace c = false) s.
Proof.
  change str with (list char).
  induction s as [|c s IH]; cbn [lstrip]; [done|].
  destruct (isspace c) eqn:Hc; [|done].
  by rewrite (filter_cons_False _ c) by (by rewrite Hc).
Qed.

Lemma filter_rstrip s :
  filter (λ c, isspace c = false) (rstrip s)
  = filter (λ c, isspace c = false) s.
Proof.
  change str with (list char).
  induction s as [|c x IH] using rev_ind; [done|].
  rewrite rstrip_snoc. destruct (isspace c) eqn:Hc; [|done].
  rewrite filter_app, (filter_cons_False _ c) by (by rewrite Hc).
  by rewrite filter_nil, app_nil_r.
Qed.

Lemma normalize_space_is_normalized s : normalized (normalize_space s) = true.
Proof.
  unfold normalize_space. rewrite re_sub_collapse. unfold strip.
  apply normalized_rstrip; [|apply lstrip_stops].
  apply loosely_lstrip, loosely_collapse.
Qed.

End normal_form.

(** X17. [normalize_space] replaces every run of whitespace by one space and
    trims the ends: the substitution by pattern is one pass over the text. *)
Theorem normalize_space_collapse value :
  re_sub ws1 (u " ") value = collapse false value
  ∧ normalize_space value = strip (collapse false value).
Proof.
  assert (Hsub : re_sub ws1 (u " ") value = collapse false value).
  { unfold re_sub, finditer. change (u " ") with [32].
    destruct (sub_scan value value 0 eq_refl) as [H _].
    by rewrite (H 0%nat) by lia. }
  split; [exact Hsub|]. unfold normalize_space. by rewrite Hsub.
Qed.

(** X18. The result of [normalize_space] is normalized: it neither starts nor
    ends with whitespace, and its only whitespace is single spaces between
    other characters.  Its other characters are those of the argument, in
    the same order. *)
Theorem normalize_space_normalized value :
  normalized (normalize_space value) = true
  ∧ filter (λ c, isspace c = false) (normalize_space value)
    = filter (λ c, isspace c = false) value.
Proof.
  unfold normalize_space. rewrite re_sub_collapse. unfold strip. split.
  - apply normalized_rstrip; [|apply lstrip_stops].
    apply loosely_lstrip, loosely_collapse.
  - by rewrite filter_rstrip, filter_lstrip, filter_collapse.
Qed.

(** X19. [normalize_space] leaves exactly the normalized texts as they are, so
    it is idempotent. *)
Theorem normalize_space_idempotent value :
  (normalize_space value = value ↔ normalized value = true)
  ∧ normalize_space (normalize_space value) = normalize_space value.
Proof.
  assert (Hn : ∀ s, normalized (normalize_space s) = true).
  { intros s. unfold normalize_space. rewrite re_sub_collapse. unfold strip.
    apply normalized_rstrip; [|apply lstrip_stops].
    apply loosely_lstrip, loosely_collapse. }
  assert (Hfix : ∀ s, normalized s = true → normalize_space s = s).
  { intros s Hs. unfold normalize_space. rewrite re_sub_collapse.
    rewrite collapse_loosely; [by apply strip_normalized|].
    apply single_spaced_loosely. unfold normalized in Hs.
    destruct s; [done|]. by apply andb_true_iff in Hs as [_ ?]. }
  split; [split|].
  - intros <-. apply Hn.
  - apply Hfix.
  - apply Hfix, Hn.
Qed.

(** ** [parse_nat_range] *)

Section ranges.

Lemma space_cases c :
  isspace c = true →
  In c [9; 10; 11; 12; 13; 28; 29; 30; 31; 32; 133; 160; 5760;
        8192; 8193; 8194; 8195; 8196; 8197; 8198; 8199; 8200; 8201; 8202;
        8232; 8233; 8239; 8287; 12288].
Proof.
  unfold isspace, in_range.
  rewrite !orb_true_iff, !andb_true_iff, !N.leb_le, !N.eqb_eq.
  simpl. lia.
Qed.

Lemma space_plain c :
  isspace c = true →
  isdecimal c = false ∧ sign_char c = false ∧ c ≠ 46.
Proof.
  intros H. apply space_cases in H. simpl in H.
  repeat (destruct H as [<-|H]; [by vm_compute|]). done.
Qed.

Lemma decimal_not_space c : isdecimal c = true → isspace c = false.
Proof.
  intros Hd. destruct (isspace c) eqn:Hs; [|done].
  apply space_plain in Hs as [Hs _]. congruence.
Qed.

Lemma after_app st w1 w2 t :
  after (after st w1 (w2 ++ t)) w2 t = after st (w1 ++ w2) t.
Proof. unfold after. simpl. rewrite length_app. f_equal. lia. Qed.

(** The parts of a numeral. *)
Lemma numeral_parts w :
  lang numeral w →
  ∃ sg ds frac,
    w = sg ++ ds ++ frac
    ∧ (sg = [] ∨ ∃ c, sg = [c] ∧ sign_char c = true)
    ∧ ds ≠ [] ∧ Forall (λ c, isdecimal c = true) ds
    ∧ (frac = [] ∨ ∃ fs, frac = 46 :: fs ∧ fs ≠ []
                         ∧ Forall (λ c, isdecimal c = true) fs).
Proof.
  intros (sg & w1 & -> & Hsg & ds & frac & -> & Hds & Hfrac).
  apply lang_digits in Hds as [Hne Hds].
  exists sg, ds, frac. split; [done|]. split; [|split; [done|split; [done|]]].
  - destruct Hsg as [(c & -> & Hc) | ->]; eauto.
  - destruct Hfrac as [(p & fs & -> & (c & -> & Hc) & Hfs) | ->]; [|by left].
    right. apply N.eqb_eq in Hc as <-.
    apply lang_digits in Hfs as [? ?]. eauto.
Qed.

Lemma numeral_head w : lang numeral w → w ≠ [] ∧ stops isspace w.
Proof.
  intros (sg & ds & frac & -> & Hsg & Hne & Hds & _)%numeral_parts.
  destruct ds as [|d ds]; [done|]. apply Forall_cons in Hds as [Hd _].
  destruct Hsg as [-> | (c & -> & Hc)]; simpl.
  - split; [done|]. by apply decimal_not_space.
  - split; [done|]. destruct (isspace c) eqn:Hs; [|done].
    apply space_plain in Hs as (_ & Hs & _). congruence.
Qed.

Lemma after_here st t : rest st = t → after st [] t = st.
Proof. intros <-. apply after_nil. Qed.

Lemma after_one st c t : advance st t = after st [c] t.
Proof. unfold after, advance. simpl. f_equal. lia. Qed.

Lemma takes_one p c t st :
  rest st = c :: t → p c = true → takes (Chr p) st (after st [c] t).
Proof. intros Hr Hp. rewrite <- (after_one st c). by apply (takes_chr p c). Qed.

(** The matcher takes a numeral whole when the text does not go on with a
    digit or a point. *)
Lemma takes_numeral w t st :
  lang numeral w → rest st = w ++ t →
  stops isdecimal t → stops (N.eqb 46) t →
  takes numeral st (after st w t).
Proof.
  intros (sg & ds & frac & -> & Hsg & Hne & Hds & Hfrac)%numeral_parts
         Hr Hdec Hpt.
  unfold numeral. cbn [cats].
  assert (Hstop : stops isdecimal (frac ++ t)).
  { destruct Hfrac as [-> | (fs & -> & _)]; [done | by vm_compute]. }
  rewrite <- !app_assoc in Hr.
  set (st1 := after st sg (ds ++ frac ++ t)).
  set (st2 := after st1 ds (frac ++ t)).
  assert (E : after st (sg ++ ds ++ frac) t = after st2 frac t).
  { unfold st2, st1, after. simpl. rewrite !length_app. f_equal. lia. }
  rewrite E.
  apply (takes_cat _ _ st st1); [|apply (takes_cat _ _ st1 st2)].
  - unfold st1. destruct Hsg as [-> | (c & -> & Hc)].
    + rewrite (after_here st) by done.
      apply takes_alt_r; [|apply takes_eps].
      apply fails_chr. rewrite Hr. destruct ds as [|d ds]; [done|]. simpl.
      apply Forall_cons in Hds as [Hd _].
      destruct (sign_char d) eqn:Hs; [|done]. exfalso.
      apply decimal_not_punct in Hd as (_ & H45 & H43).
      unfold sign_char in Hs. apply orb_true_iff in Hs as [Hs|Hs];
        apply N.eqb_eq in Hs; congruence.
    + apply takes_alt_l. by apply takes_one.
  - by apply takes_plus_chr.
  - destruct Hfrac as [-> | (fs & -> & Hfne & Hfs)].
    + rewrite (after_here st2) by done.
      apply takes_alt_r; [|apply takes_eps].
      apply fails_cat, fails_chr. exact Hpt.
    + apply takes_alt_l.
      change (46 :: fs) with ([46] ++ fs). rewrite <- after_app.
      eapply takes_cat; [|by apply takes_plus_chr].
      change (lit ".") with (Chr (N.eqb 46)). by apply takes_one.
Qed.

End ranges.

Section range_bounds.

Lemma run_word text r st st' :
  run r st st' → anchored text st →
  ∃ w, lang r w ∧ rest st = w ++ rest st'
       ∧ slice (pos st) (pos st') text = w
       ∧ pos st' = (pos st + length w)%nat.
Proof.
  intros Hrun Ha. unfold anchored in Ha.
  apply run_span in Hrun as (w & Hl & Hrest & Hpos).
  exists w. repeat split; try done.
  unfold slice. rewrite Ha, Hrest, Hpos.
  replace (pos st + length w - pos st)%nat with (length w) by lia.
  by rewrite take_app_length.
Qed.

Lemma anchored_text text st : anchored text st → text = take (pos st) text ++ rest st.
Proof. unfold anchored. intros <-. by rewrite take_drop. Qed.


End range_bounds.


(** X21. A key that is a numeral, the word [to] in either case and a numeral,
    with any whitespace around the word, gives the values of the two
    numerals as bounds. *)
Theorem nat_range_recognized lo_txt s1 to s2 hi_txt :
  lang numeral lo_txt → lang ws s1 → lang (ilit "to") to → lang ws s2 →
  lang numeral hi_txt →
  ∃ lo hi,
    float_of_str lo_txt = Some lo ∧ float_of_str hi_txt = Some hi
    ∧ parse_nat_range (lo_txt ++ s1 ++ to ++ s2 ++ hi_txt)
      = Ok (Some lo, Some hi).
Proof.
  intros Llo Ls1 Lto Ls2 Lhi.
  destruct (float_of_numeral lo_txt Llo) as [lo Hlo].
  destruct (float_of_numeral hi_txt Lhi) as [hi Hhi].
  exists lo, hi. split; [done|]. split; [done|].
  apply lang_star_chr in Ls1, Ls2.
  destruct Lto as (w1 & w2 & -> & (x & -> & Hx) & (y & -> & Hy)).
  destruct (numeral_head hi_txt Lhi) as [Hne Hhead].
  assert (Hto : stops isspace ([x] ++ [y] ++ s2 ++ hi_txt)
                ∧ stops isdecimal ([x] ++ [y] ++ s2 ++ hi_txt)
                ∧ stops (N.eqb 46) ([x] ++ [y] ++ s2 ++ hi_txt)).
  { simpl. ieq_split Hx; by vm_compute. }
  destruct Hto as (Hto1 & Hto2 & Hto3).
  set (key := lo_txt ++ s1 ++ ([x] ++ [y]) ++ s2 ++ hi_txt).
  set (st0 := {| pos := 0; rest := key; caps := [] |}).
  set (q1 := set_cap 1 0 (after st0 lo_txt (s1 ++ ([x] ++ [y]) ++ s2 ++ hi_txt))).
  set (q2 := after q1 s1 (([x] ++ [y]) ++ s2 ++ hi_txt)).
  set (q3 := after q2 ([x] ++ [y]) (s2 ++ hi_txt)).
  set (q4 := after q3 s2 hi_txt).
  set (q5 := set_cap 2 (pos q4) (after q4 hi_txt [])).
  assert (Htakes : takes nat_range_pattern st0 q5).
  { unfold nat_range_pattern. cbn [cats].
    apply (takes_cat _ _ st0 q1); [|apply (takes_cat _ _ q1 q2);
      [|apply (takes_cat _ _ q2 q3); [|apply (takes_cat _ _ q3 q4)]]].
    - apply (takes_grp 1 numeral st0). apply takes_numeral; try done.
      + destruct s1 as [|c s1]; [exact Hto2|].
        apply Forall_cons in Ls1 as [Hc _]. simpl.
        by apply space_plain in Hc as (? & _).
      + destruct s1 as [|c s1]; [exact Hto3|].
        apply Forall_cons in Ls1 as [Hc _]. cbn [app stops].
        apply space_plain in Hc as (_ & _ & Hc). apply N.eqb_neq.
        intros E. by apply Hc.
    - by apply takes_star_chr.
    - apply takes_ilit; [|done]. by repeat constructor.
    - apply takes_star_chr; try done.
    - apply (takes_grp 2 numeral q4).
      apply takes_numeral; try done. simpl. by rewrite app_nil_r. }
  unfold parse_nat_range.
  rewrite (takes_search _ _ _ Htakes). unfold group_or_empty, group.
  cbn [m_caps q5 set_cap caps List.find fst Nat.eqb].
  assert (Hc1 : caps (after q4 hi_txt [])
                = [(1%nat, (0%nat, (0 + length lo_txt)%nat))]) by reflexivity.
  assert (Hp4 : pos q4 = (length lo_txt + length s1 + 2 + length s2)%nat).
  { unfold q4, q3, q2, q1, st0, after, set_cap. simpl. lia. }
  assert (Hp5 : pos (after q4 hi_txt []) = (pos q4 + length hi_txt)%nat)
    by reflexivity.
  rewrite Hc1, Hp5, Hp4. cbn [List.find fst Nat.eqb default].
  assert (G1 : slice 0 (0 + length lo_txt) key = lo_txt).
  { unfold slice, key. simpl. rewrite Nat.sub_0_r. apply take_app_length. }
  assert (G2 : slice (length lo_txt + length s1 + 2 + length s2)
                     (length lo_txt + length s1 + 2 + length s2
                      + length hi_txt) key = hi_txt).
  { unfold slice, key.
    replace (lo_txt ++ s1 ++ ([x] ++ [y]) ++ s2 ++ hi_txt)
      with ((lo_txt ++ s1 ++ ([x] ++ [y]) ++ s2) ++ hi_txt)
      by (by rewrite <- !app_assoc).
    rewrite drop_app_length'; [|rewrite !length_app; simpl; lia].
    rewrite take_ge; [done | lia]. }
  rewrite G1, G2. cbn [default from_option id]. unfold py_float.
  by rewrite Hlo, Hhi.
Qed.

Lemma nat_range_recognized_witness :
  parse_nat_range (u "-0.5  TO +10") = Ok (Some (-0.5)%float, Some 10%float).
Proof.
  destruct (nat_range_recognized (u "-0.5") (u "  ") (u "TO") (u " ") (u "+10"))
    as (lo & hi & Hlo & Hhi & Hp).
  - exists (u "-"), (u "0.5"). split; [done|]. split; [left; by exists 45|].
    exists (u "0"), (u ".5"). split; [done|]. split.
    + exists [48], []. split; [done|].
      split; [by exists 48 | by exists []].
    + left. exists [46], [53]. split; [done|]. split; [by exists 46|].
      exists [53], []. split; [done|]. split; [by exists 53 | by exists []].
  - exists [[32]; [32]]. split; [done|]. repeat constructor; by exists 32.
  - exists [84], [79]. split; [done|]. split; [by exists 84 | by exists 79].
  - exists [[32]]. split; [done|]. repeat constructor; by exists 32.
  - exists (u "+"), (u "10"). split; [done|]. split; [left; by exists 43|].
    exists (u "10"), []. split; [done|]. split.
    + exists [49], [48]. split; [done|]. split; [by exists 49|].
      exists [[48]]. split; [done|]. repeat constructor; by exists 48.
    + by right.
  - vm_compute in Hlo, Hhi. injection Hlo as <-. injection Hhi as <-.
    exact Hp.
Defined.

(** ** [_label_to_master_option] *)

(** X22. A resolved option is the upper-case form of a letter [a] to [d], in
    either case, that stands in the address of the label right before
    [.png], itself followed by a question mark or by the end of the
    address. *)
Theorem master_option_sound option_map label letter :
  _label_to_master_option option_map label = Some letter →
  ∃ url before c rest,
    option_map !! label = Some url
    ∧ url = before ++ c :: u ".png" ++ rest
    ∧ in_a_d c = true
    ∧ letter = upper [c] ∧ letter ∈ letters
    ∧ (rest = [] ∨ rest = [10] ∨ ∃ tail, rest = 63 :: tail).
Proof.
  unfold _label_to_master_option.
  destruct (option_map !! label) as [url|]; [|discriminate].
  destruct (search master_pattern url) as [m|] eqn:Hs; [|discriminate].
  intros [= <-].
  apply search_run in Hs as (st0 & st' & Ha & _ & _ & Hrun & _ & Hcaps).
  unfold master_pattern in Hrun. cbn [cats] in Hrun.
  pose proof (anchored_text _ _ Ha) as Htext.
  apply run_cat_inv in Hrun as (q1 & R1 & Hrun).
  pose proof (run_caps _ _ _ Hrun) as (new & Hnew & Hgroups).
  apply run_grp_inv in R1 as (qa & Ra & ->).
  destruct (run_word _ _ _ _ Ra Ha) as (w & (c & -> & Hc) & Hr1 & Hs1 & _).
  assert (Ha1 : anchored url (set_cap 1 (pos st0) qa)).
  { apply (run_anchored _ _ _ _ Ra) in Ha. exact Ha. }
  apply run_cat_inv in Hrun as (q2 & R2 & Hrun).
  destruct (run_word _ _ _ _ R2 Ha1) as (dot & Ldot & Hr2 & _).
  apply (run_anchored _ _ _ _ R2) in Ha1.
  apply run_cat_inv in Hrun as (q3 & R3 & Hrun).
  destruct (run_word _ _ _ _ R3 Ha1) as (png & Lpng & Hr3 & _).
  apply (run_anchored _ _ _ _ R3) in Ha1.
  destruct (run_word _ _ _ _ Hrun Ha1) as (tail & Ltail & Hr4 & _).
  cbn [rest pos caps set_cap] in *.
  assert (Hg : group url m 1 = Some [c]).
  { unfold group. rewrite <- Hcaps, Hnew.
    rewrite (find_cap new (caps qa) 1 (pos st0, pos qa) []).
    - by rewrite Hs1.
    - eapply Forall_impl; [exact Hgroups|]. intros x Hx.
      by replace (groups _) with (@nil nat) in Hx by reflexivity.
    - apply not_elem_of_nil. }
  unfold group_or_empty. rewrite Hg. cbn [default from_option id].
  destruct Ldot as (d & -> & Hd%N.eqb_eq).
  destruct Lpng as (w1 & w2 & -> & (p & -> & Hp%N.eqb_eq)
                    & w3 & w4 & -> & (n & -> & Hn%N.eqb_eq)
                    & (g & -> & Hg'%N.eqb_eq)).
  subst d p n g.
  exists url, (take (pos st0) url), c, (tail ++ rest st').
  split; [done|]. split.
  { rewrite Htext at 1. rewrite Hr1, Hr2, Hr3, Hr4. by rewrite <- !app_assoc. }
  split; [done|]. split; [done|]. split; [by apply in_a_d_upper|].
  destruct Ltail as [(q & -> & Hq%N.eqb_eq) | ->]; [subst q|].
  - right. right. eauto.
  - inversion Hrun as [| | |? ? ? ? Hq|? ? ? ? He| | | |]; subst.
    + apply run_word with (text := url) in Hq as (w & (q & -> & _) & Hw & _);
        [|done].
      rewrite Hw in Hr4. apply (f_equal length) in Hr4.
      rewrite length_app in Hr4. simpl in Hr4. lia.
    + inversion He as [| | | | | | | |? Hend]; subst. simpl.
      destruct (rest st') as [|x [|y t]]; [by left | | done].
      simpl in Hend. apply N.eqb_eq in Hend as ->. by right; left.
Qed.

Lemma master_option_sound_witness :
  ∃ url before c rest,
    Samples.shuffled_options !! u "A" = Some url
    ∧ url = before ++ c :: u ".png" ++ rest
    ∧ in_a_d c = true
    ∧ u "C" = upper [c] ∧ u "C" ∈ letters
    ∧ (rest = [] ∨ rest = [10] ∨ ∃ tail, rest = 63 :: tail).
Proof.
  apply (master_option_sound Samples.shuffled_options (u "A") (u "C")).
  by vm_compute.
Defined.

(** ** The answer shown for a multi-select question *)

Section string_order.

Lemma str_ltb_trichotomy a :
  ∀ b, str_ltb a b = true ∨ a = b ∨ str_ltb b a = true.
Proof.
  induction a as [|x a IH]; intros [|y b]; simpl; auto.
  destruct (N.ltb_spec x y), (N.ltb_spec y x), (N.eqb_spec x y),
    (N.eqb_spec y x); simpl; auto; try lia.
  subst. destruct (IH b) as [?|[->|?]]; auto.
Qed.

Lemma str_ltb_asym a :
  ∀ b, str_ltb a b = true → str_ltb b a = false.
Proof.
  induction a as [|x a IH]; intros [|y b]; simpl; auto.
  destruct (N.ltb_spec x y), (N.ltb_spec y x), (N.eqb_spec x y),
    (N.eqb_spec y x); simpl; auto; try lia; try done.
Qed.

Lemma str_ltb_trans a :
  ∀ b c, str_ltb a b = true → str_ltb b c = true → str_ltb a c = true.
Proof.
  induction a as [|x a IH]; intros [|y b] [|z c]; simpl; auto; try done.
  destruct (N.ltb_spec x y), (N.ltb_spec y z), (N.ltb_spec x z),
    (N.eqb_spec x y), (N.eqb_spec y z), (N.eqb_spec x z);
    simpl; auto; try lia; try done.
  apply IH.
Qed.

Lemma str_leb_total a b : str_leb a b = true ∨ str_leb b a = true.
Proof.
  unfold str_leb. destruct (str_ltb b a) eqn:H; [|by left].
  right. by rewrite (str_ltb_asym _ _ H).
Qed.

Lemma str_leb_trans a b c :
  str_leb a b = true → str_leb b c = true → str_leb a c = true.
Proof.
  unfold str_leb. rewrite !negb_true_iff. intros Hba Hcb.
  destruct (str_ltb c a) eqn:Hca; [|done].
  destruct (str_ltb_trichotomy a b) as [Hab|[->|Hab]]; [|congruence..].
  rewrite (str_ltb_trans _ _ _ Hca Hab) in Hcb. done.
Qed.

Lemma str_leb_antisym a b :
  str_leb a b = true → str_leb b a = true → a = b.
Proof.
  unfold str_leb. rewrite !negb_true_iff. intros Hba Hab.
  destruct (str_ltb_trichotomy a b) as [?|[?|?]]; congruence.
Qed.

(** A list sorted by [<=] without a repetition is sorted by [<]. *)
Lemma sorted_strict l :
  StronglySorted (λ a b, str_leb a b = true) l → NoDup l →
  StronglySorted (λ a b, str_ltb a b = true) l.
Proof.
  induction 1 as [|x l Hs IH Hx]; intros Hnd; [constructor|].
  apply NoDup_cons in Hnd as [Hin Hnd]. constructor; [by apply IH|].
  apply Forall_forall. intros y Hy. rewrite Forall_forall in Hx.
  specialize (Hx y Hy). unfold str_leb in Hx. apply negb_true_iff in Hx.
  destruct (str_ltb_trichotomy x y) as [?|[->|?]]; [done | done | congruence].
Qed.

(** Sorting does not depend on the order in which the strings come. *)
Lemma sort_strings_unique l1 l2 :
  l1 ≡ₚ l2 → sort_by str_leb l1 = sort_by str_leb l2.
Proof.
  intros Hp.
  apply (StronglySorted_unique_strong (λ a b, str_leb a b = true)).
  - intros x y _ _. apply str_leb_antisym.
  - apply sort_by_sorted; [apply str_leb_total | apply str_leb_trans].
  - apply sort_by_sorted; [apply str_leb_total | apply str_leb_trans].
  - by rewrite !sort_by_perm.
Qed.

End string_order.

(** X23. The answer shown for a multi-select question is the placeholder when no
    chosen label resolves, and otherwise the resolved letters in strictly
    ascending order, each once, joined by semicolons; it does not depend on
    the order in which the set of resolved letters is enumerated. *)
Theorem msq_student_answer answer_key mark_scheme response_questions rows
    index key_entry response row :
  paired answer_key mark_scheme response_questions rows index
         key_entry response row →
  AnswerKeyEntry.q_type key_entry = u "MSQ" →
  ∃ resolved : list str,
    (∀ letter,
       letter ∈ resolved
       ↔ ∃ label, label ∈ ResponseQuestion.chosen_labels response
                  ∧ _label_to_master_option
                      (ResponseQuestion.option_map response) label
                    = Some letter)
    ∧ StronglySorted (λ a b, str_ltb a b = true) resolved
    ∧ Forall (λ letter, letter ∈ letters) resolved
    ∧ EvaluationRow.student_answer row
      = match resolved with
        | [] => placeholder
        | _ => join (u ";") resolved
        end
    ∧ ∀ enumeration,
        enumeration ≡ₚ resolved → sort_by str_leb enumeration = resolved.
Proof.
  intros Hp Ht. apply (msq_score _ _ _ _ _ _ _ _ Hp) in Ht as [_ Hanswer].
  set (mapped := mapped_answers response) in *.
  exists (sort_by str_leb (elements mapped)).
  assert (Helem : ∀ letter,
            letter ∈ sort_by str_leb (elements mapped) ↔ letter ∈ mapped).
  { intros letter. by rewrite sort_by_perm, elem_of_elements. }
  split; [|split; [|split; [|split]]].
  - intros letter. rewrite Helem. apply elem_of_mapped_answers.
  - apply sorted_strict.
    + apply sort_by_sorted; [apply str_leb_total | apply str_leb_trans].
    + rewrite sort_by_perm. apply NoDup_elements.
  - apply Forall_forall. intros letter Hl.
    apply Helem, elem_of_mapped_answers in Hl as (label & _ & Hl).
    by apply label_to_master_option_letter in Hl.
  - rewrite Hanswer. case_decide as Hempty.
    + rewrite Hempty, elements_empty. done.
    + destruct (sort_by str_leb (elements mapped)) as [|l ls] eqn:E; [|done].
      exfalso. apply Hempty. apply set_eq. intros x.
      split; [|by intros ?%not_elem_of_empty].
      intros Hx. apply Helem in Hx. by apply elem_of_nil in Hx.
  - intros enumeration Hperm.
    rewrite (sort_strings_unique _ _ Hperm).
    apply sort_strings_unique, sort_by_perm.
Qed.

Lemma msq_student_answer_witness :
  ∃ resolved : list str,
    StronglySorted (λ a b, str_ltb a b = true) resolved
    ∧ EvaluationRow.student_answer
        (EvaluationRow.mk 2 102 (u "MSQ") (u "Answered") (u "A;C") (u "A;C")
                          2%float 2%float)
      = match resolved with
        | [] => placeholder
        | _ => join (u ";") resolved
        end.
Proof.
  destruct (msq_student_answer Samples.answer_key Samples.mark_scheme
              Samples.responses Samples.rows 1 Samples.msq_key
              Samples.msq_right
              (EvaluationRow.mk 2 102 (u "MSQ") (u "Answered") (u "A;C")
                                (u "A;C") 2%float 2%float))
    as (resolved & _ & Hs & _ & Ha & _).
  - repeat split; by vm_compute.
  - done.
  - exists resolved. split; [exact Hs | exact Ha].
Defined.

(** ** The given answer of a numerical question *)

Section given_answers.

Lemma given_group text m :
  search given_pattern text = Some m →
  lang numeral (group_or_empty text m 1).
Proof.
  intros Hs. apply search_run in Hs as (st0 & st' & Ha & _ & _ & Hrun & _ & Hcaps).
  unfold given_pattern in Hrun. cbn [cats] in Hrun.
  do 6 peel Hrun Ha.
  destruct (group_last text 1 _ _ _ m Hrun Ha) as (w & Lw & Gw); [done|].
  unfold group_or_empty. by rewrite Gw.
Qed.

Lemma given_numeral_lang sp numeral_txt :
  given_numeral sp = Some numeral_txt → lang numeral numeral_txt.
Proof.
  unfold given_numeral.
  destruct (search given_pattern (content_text sp)) as [m|] eqn:Hc.
  - intros [= <-]. by apply given_group.
  - destruct (search given_pattern (metadata_text sp)) as [m|] eqn:Hm;
      [|discriminate].
    intros [= <-]. by apply given_group.
Qed.

End given_answers.

(** X24. A numerical record holds a given answer exactly when the sheet shows
    one, in the content span of its anchor or else in the metadata span:
    the value is the float of the numeral found, and the conversion never
    fails. *)
Theorem given_answer_read text questions index anchor q :
  parse_response_sheet text = Ok questions →
  anchor_spans (normalize_space text) !! index = Some anchor →
  questions !! index = Some q →
  ResponseQuestion.q_type q = u "NAT" →
  match given_numeral anchor.2 with
  | Some numeral_txt =>
    ∃ x, float_of_str numeral_txt = Some x
         ∧ ResponseQuestion.given_answer q = Some x
  | None => ResponseQuestion.given_answer q = None
  end.
Proof.
  unfold parse_response_sheet, parse_flat_text.
  set (flat_text := normalize_space text).
  destruct (negb _).
  { intros [= <-] _ Hq. by rewrite lookup_nil in Hq. }
  intros H Ha Hq Ht.
  pose proof (anchors_result flat_text (anchor_spans flat_text) (λ a H, H) [])
    as Hr.
  rewrite H in Hr. destruct Hr as (added & -> & Hadded). simpl in Hq.
  destruct (Forall2_lookup_l _ _ _ _ _ Hadded Ha) as (q' & Hq' & Hqa).
  assert (q' = q) as -> by congruence.
  destruct anchor as [start sp]. unfold question_of_anchor in Hqa.
  destruct (py_int _) as [n|]; [|discriminate]. simpl in Hqa.
  injection Hqa as <-. simpl in *. rewrite Ht.
  rewrite bool_decide_eq_true_2 by done.
  fold (given_numeral sp).
  destruct (given_numeral sp) as [numeral_txt|] eqn:Hn; [|done].
  apply given_numeral_lang, float_of_numeral in Hn as [x Hx].
  exists x. unfold _parse_float. by rewrite Hx.
Qed.

Lemma given_answer_read_witness :
  ∃ q,
    parse_response_sheet Samples.two_anchors
    = Ok [ResponseQuestion.mk 101 (u "MCQ") (u "Answered") [u "A"] None ∅; q]
    ∧ ResponseQuestion.given_answer q = Some 7%float.
Proof.
  exists (ResponseQuestion.mk 103 (u "NAT") (u "Not Answered") []
                              (Some 7%float) ∅).
  assert (Hp : parse_response_sheet Samples.two_anchors
               = Ok [ResponseQuestion.mk 101 (u "MCQ") (u "Answered") [u "A"]
                                         None ∅;
                     ResponseQuestion.mk 103 (u "NAT") (u "Not Answered") []
                                         (Some 7%float) ∅])
    by (by vm_compute).
  split; [exact Hp|].
  destruct (anchor_spans (normalize_space Samples.two_anchors) !! 1%nat)
    as [anchor|] eqn:Ha; [|by vm_compute in Ha].
  pose proof (given_answer_read Samples.two_anchors _ 1 anchor _ Hp Ha
                eq_refl eq_refl) as H.
  vm_compute in Ha. injection Ha as <-.
  assert (Hn : given_numeral
                 {| metadata_text :=
                      u "Question Type : NAT Question ID : 103 Status : Not Answered";
                    content_text := u " Chosen Option : A Q2 Given Answer : 7 " |}
               = Some (u "7")) by (by vm_compute).
  change (given_numeral _) with
    (given_numeral
       {| metadata_text :=
            u "Question Type : NAT Question ID : 103 Status : Not Answered";
          content_text := u " Chosen Option : A Q2 Given Answer : 7 " |}) in H.
  rewrite Hn in H. destruct H as (x & Hx & Hg).
  vm_compute in Hx. injection Hx as <-. exact Hg.
Defined.

(** ** Declarations in the singular are recognized *)

Section recognition.

Lemma ieq_space c x : ieq c x = true → isspace x = true → isspace c = true.
Proof.
  intros Hi Hx. pose proof (space_cases x Hx) as Hv. simpl in Hv.
  assert (Hl : ascii_lower x = x ∧ (x =? 8490) = false ∧ (x =? 383) = false
               ∧ (x =? 304) = false ∧ (x =? 305) = false).
  { repeat (destruct Hv as [<-|Hv]; [by vm_compute|]). done. }
  destruct Hl as (Hl & H1 & H2 & H3 & H4).
  unfold ieq in Hi. rewrite Hl, H1, H2, H3, H4, !andb_false_r, !orb_false_r in Hi.
  apply N.eqb_eq in Hi. unfold ascii_lower, is_ascii_upper, in_range in Hi.
  destruct (N.leb_spec 65 c), (N.leb_spec c 90); simpl in Hi; try by subst.
  exfalso. lia.
Qed.

Lemma folds_head word w c cs :
  folds_to word w → u word = c :: cs →
  ∃ x t, w = x :: t ∧ ieq c x = true.
Proof.
  unfold folds_to. intros H E. rewrite E in H.
  apply Forall2_cons_inv_l in H as (x & t & Hx & _ & ->). eauto.
Qed.

(** A word that starts with a letter does not start with whitespace, nor
    with a digit. *)
Lemma folds_stops word w c cs t :
  folds_to word w → u word = c :: cs → isspace c = false →
  stops isspace (w ++ t).
Proof.
  intros H E Hc. destruct (folds_head _ _ _ _ H E) as (x & t' & -> & Hx).
  simpl. destruct (isspace x) eqn:Hs; [|done].
  apply (ieq_space c x Hx) in Hs. congruence.
Qed.

Lemma stops_blank (p : char → bool) s t :
  (∀ c, isspace c = true → p c = false) → blank s → stops p t →
  stops p (s ++ t).
Proof.
  intros Hp Hs Ht. destruct Hs as [|c s Hc _]; [exact Ht|]. simpl. by apply Hp.
Qed.

Lemma decimals_stops w t : decimals w → stops isspace (w ++ t).
Proof.
  intros [Hne Hw]. destruct w as [|c w]; [done|].
  apply Forall_cons in Hw as [Hc _]. simpl. by apply decimal_not_space.
Qed.

Lemma letter_stops (p : char → bool) word w c cs t :
  folds_to word w → u word = c :: cs →
  (∀ x, ieq c x = true → p x = false) →
  stops p (w ++ t).
Proof.
  intros H E Hp. destruct (folds_head _ _ _ _ H E) as (x & t' & -> & Hx).
  simpl. by apply Hp.
Qed.

Lemma slice_middle (pre w post : str) :
  slice (length pre) (length pre + length w) (pre ++ w ++ post) = w.
Proof.
  unfold slice. rewrite drop_app_length.
  replace (length pre + length w - length pre)%nat with (length w) by lia.
  apply take_app_length.
Qed.

(** After a match that runs to the end of the text there is no other. *)
Lemma scan_skip r s :
  ∀ p, scan r p s (length s)
       = match match_at r (p + length s) [] with
         | Some m => [m]
         | None => []
         end.
Proof.
  induction s as [|c s IH]; intros p; simpl.
  - rewrite Nat.add_0_r. by destruct (match_at r p []).
  - rewrite IH. by replace (S p + length s)%nat with (p + S (length s))%nat by lia.
Qed.

Lemma band_pattern_not_empty p : match_at band_pattern p [] = None.
Proof.
  unfold match_at, band_pattern. cbn [cats].
  change (ilit "Q") with (Chr (ieq 81)).
  by rewrite (fails_cat _ _ _
                (fails_chr (ieq 81) {| pos := p; rest := []; caps := [] |} I)).
Qed.

Lemma cap_eq (i a b a' b' : nat) :
  a = a' → b = b' → (i, (a, b)) = (i, (a', b')).
Proof. by intros -> ->. Qed.

(** The attempt at the start of a declaration takes it whole. *)
Lemma band_takes (d : band_text) :
  band_text_ok d →
  ∃ qf, takes band_pattern
          {| pos := 0;
             rest := q_start d ++ u "." ++ gap1 d ++ start_txt d ++ gap2 d
                     ++ dash d :: gap3 d ++ q_end d ++ u "." ++ gap4 d
                     ++ end_txt d ++ gap5 d ++ carry d ++ gap6 d
                     ++ mark_word d ++ gap7 d ++ mark d ++ gap8 d
                     ++ each d ++ [];
             caps := [] |} qf
        ∧ caps qf
          = [(3, (length (before_word d),
                  length (before_word d) + length (mark_word d)));
             (2, (length (before_end d),
                  length (before_end d) + length (end_txt d)));
             (1, (length (before_start d),
                  length (before_start d) + length (start_txt d)))]%nat
        ∧ pos qf = length (band_text_str d).
Proof.
  intros (Hq1 & Hq2 & Hcarry & Hmark & Heach & Hword & Hdash & Ha & Hb & Hgaps).
  repeat (apply Forall_cons in Hgaps as [? Hgaps]).
  destruct Ha as [Hane Ha], Hb as [Hbne Hb].
  assert (Hsd : ∀ c, isspace c = true → isdecimal c = false).
  { intros c Hc. by apply space_plain in Hc as (? & _). }
  assert (Hdd : isdecimal (dash d) = false ∧ isspace (dash d) = false
                ∧ (dash d =? en_dash) || (dash d =? hyphen) = true).
  { destruct Hdash as [-> | ->]; by vm_compute. }
  destruct Hdd as (Hdd & Hds & Hdp).
  eexists. split.
  { unfold band_pattern. cbn [cats].
    eapply takes_cat; [eapply takes_ilit; [exact Hq1 | reflexivity]|].
    eapply takes_cat; [eapply takes_lit; reflexivity|].
    eapply takes_cat; [eapply takes_star_chr; [ | | reflexivity]|].
    { assumption. }
    { by apply decimals_stops. }
    eapply takes_cat;
      [eapply takes_grp; eapply takes_plus_chr; [ | | | reflexivity]|].
    { assumption. }
    { assumption. }
    { apply stops_blank; [exact Hsd | assumption | exact Hdd]. }
    eapply takes_cat; [eapply takes_star_chr; [ | | reflexivity]|].
    { assumption. }
    { exact Hds. }
    eapply takes_cat; [eapply takes_one; [reflexivity | exact Hdp]|].
    eapply takes_cat; [eapply takes_star_chr; [ | | reflexivity]|].
    { assumption. }
    { by apply (folds_stops "Q" _ _ _ _ Hq2 eq_refl). }
    eapply takes_cat; [eapply takes_ilit; [exact Hq2 | reflexivity]|].
    eapply takes_cat; [eapply takes_lit; reflexivity|].
    eapply takes_cat; [eapply takes_star_chr; [ | | reflexivity]|].
    { assumption. }
    { by apply decimals_stops. }
    eapply takes_cat;
      [eapply takes_grp; eapply takes_plus_chr; [ | | | reflexivity]|].
    { assumption. }
    { assumption. }
    { apply stops_blank; [exact Hsd | assumption |].
      apply (letter_stops isdecimal "Carry" _ _ _ _ Hcarry eq_refl).
      intros x Hx. ieq_split Hx; by vm_compute. }
    eapply takes_cat; [eapply takes_star_chr; [ | | reflexivity]|].
    { assumption. }
    { by apply (folds_stops "Carry" _ _ _ _ Hcarry eq_refl). }
    eapply takes_cat; [eapply takes_ilit; [exact Hcarry | reflexivity]|].
    eapply takes_cat; [eapply takes_star_chr; [ | | reflexivity]|].
    { assumption. }
    { destruct Hword as [Hw|Hw].
      - by apply (folds_stops "ONE" _ _ _ _ Hw eq_refl).
      - by apply (folds_stops "TWO" _ _ _ _ Hw eq_refl). }
    eapply takes_cat.
    { eapply takes_grp. destruct Hword as [Hw|Hw].
      - apply takes_alt_l. eapply takes_ilit; [exact Hw | reflexivity].
      - apply takes_alt_r; [|eapply takes_ilit; [exact Hw | reflexivity]].
        change (ilit "ONE") with (Cat (ilit1 79) (Cat (ilit1 78) (ilit1 69))).
        apply fails_cat, fails_chr. cbn [rest after set_cap].
        apply (letter_stops (ieq 79) "TWO" _ _ _ _ Hw eq_refl).
        intros x Hx. ieq_split Hx; by vm_compute. }
    eapply takes_cat; [eapply takes_star_chr; [ | | reflexivity]|].
    { assumption. }
    { by apply (folds_stops "mark" _ _ _ _ Hmark eq_refl). }
    eapply takes_cat; [eapply takes_ilit; [exact Hmark | reflexivity]|].
    eapply takes_cat; [eapply takes_star_chr; [ | | reflexivity]|].
    { assumption. }
    { by apply (folds_stops "Each" _ _ _ _ Heach eq_refl). }
    eapply takes_ilit; [exact Heach | reflexivity]. }
  cbn [caps pos after set_cap].
  unfold before_word, before_end, before_start, band_text_str.
  rewrite !length_app. cbn [length]. rewrite !length_app. cbn [length].
  split; [|lia].
  f_equal; [apply cap_eq; lia | f_equal; [apply cap_eq; lia | f_equal]].
  apply cap_eq; lia.
Qed.

(** The only match in a declaration is the declaration. *)
Lemma band_finditer (d : band_text) :
  band_text_ok d →
  finditer band_pattern (band_text_str d)
  = [{| m_start := 0; m_end := length (band_text_str d);
        m_caps :=
          [(3, (length (before_word d),
                length (before_word d) + length (mark_word d)));
           (2, (length (before_end d),
                length (before_end d) + length (end_txt d)));
           (1, (length (before_start d),
                length (before_start d) + length (start_txt d)))]%nat |}].
Proof.
  intros Hd. destruct (band_takes d Hd) as (qf & Htakes & Hcaps & Hpos).
  apply takes_match_at in Htakes. rewrite Hcaps, Hpos in Htakes.
  assert (E : band_text_str d
              = q_start d ++ u "." ++ gap1 d ++ start_txt d ++ gap2 d
                ++ dash d :: gap3 d ++ q_end d ++ u "." ++ gap4 d
                ++ end_txt d ++ gap5 d ++ carry d ++ gap6 d
                ++ mark_word d ++ gap7 d ++ mark d ++ gap8 d
                ++ each d ++ []).
  { unfold band_text_str. by rewrite app_nil_r. }
  rewrite <- E in Htakes. unfold finditer.
  destruct (band_text_str d) as [|c t] eqn:Et.
  - destruct Hd as (Hq & _). unfold band_text_str in Et.
    destruct (folds_head "Q" _ _ _ Hq eq_refl) as (x & t' & Hx & _).
    rewrite Hx in Et. discriminate.
  - cbn [scan]. rewrite Htakes. cbn [m_end length].
    replace (S (length t) - 0 - 1)%nat with (length t) by lia.
    by rewrite scan_skip, band_pattern_not_empty.
Qed.

End recognition.

(** X25. A declaration in the singular that fills a page is recognized whatever
    its numbers, the whitespace between its parts, the case of its words
    and the dash: the pattern finds it, with its two numerals and its mark
    word, and every question of its range gets 1.0 for ONE and 2.0 for
    TWO. *)
Theorem singular_band_recognized (d : band_text) total_questions :
  band_text_ok d →
  findall3 band_pattern (band_text_str d)
  = [(start_txt d, end_txt d, mark_word d)]
  ∧ (folds_to "ONE" (mark_word d)
     → _mark_word_to_value (mark_word d) = Some 1%float)
  ∧ (folds_to "TWO" (mark_word d)
     → _mark_word_to_value (mark_word d) = Some 2%float)
  ∧ ∀ start_q end_q,
      int (start_txt d) = Some start_q → int (end_txt d) = Some end_q →
      ∃ marks,
        parse_mark_scheme [Some (band_text_str d)] total_questions = Ok marks
        ∧ ∀ q_no, (start_q ≤ q_no ≤ end_q)%Z →
                  marks !! q_no = _mark_word_to_value (mark_word d).
Proof.
  intros Hd.
  assert (Hfind : findall3 band_pattern (band_text_str d)
                  = [(start_txt d, end_txt d, mark_word d)]).
  { unfold findall3. rewrite (band_finditer d Hd).
    cbn [map]. unfold group_or_empty, group.
    cbn [m_caps List.find fst Nat.eqb default from_option id].
    assert (G1 : slice (length (before_start d))
                       (length (before_start d) + length (start_txt d))
                       (band_text_str d) = start_txt d).
    { assert (E : band_text_str d
                  = before_start d ++ start_txt d
                    ++ (gap2 d ++ dash d :: gap3 d ++ q_end d ++ u "."
                        ++ gap4 d ++ end_txt d ++ gap5 d ++ carry d ++ gap6 d
                        ++ mark_word d ++ gap7 d ++ mark d ++ gap8 d
                        ++ each d)).
      { unfold band_text_str, before_start. by rewrite <- !app_assoc. }
      rewrite E. apply slice_middle. }
    assert (G2 : slice (length (before_end d))
                       (length (before_end d) + length (end_txt d))
                       (band_text_str d) = end_txt d).
    { assert (E : band_text_str d
                  = before_end d ++ end_txt d
                    ++ (gap5 d ++ carry d ++ gap6 d ++ mark_word d ++ gap7 d
                        ++ mark d ++ gap8 d ++ each d)).
      { unfold band_text_str, before_end, before_start.
        repeat (rewrite <- app_assoc || rewrite <- app_comm_cons). done. }
      rewrite E. apply slice_middle. }
    assert (G3 : slice (length (before_word d))
                       (length (before_word d) + length (mark_word d))
                       (band_text_str d) = mark_word d).
    { assert (E : band_text_str d
                  = before_word d ++ mark_word d
                    ++ (gap7 d ++ mark d ++ gap8 d ++ each d)).
      { unfold band_text_str, before_word, before_end, before_start.
        repeat (rewrite <- app_assoc || rewrite <- app_comm_cons). done. }
      rewrite E. apply slice_middle. }
    by rewrite G1, G2, G3. }
  assert (Hone : folds_to "ONE" (mark_word d)
                 → _mark_word_to_value (mark_word d) = Some 1%float).
  { intros Hw. unfold folds_to in Hw.
    apply Forall2_cons_inv_l in Hw as (x & w1 & Hx & Hw & ->).
    apply Forall2_cons_inv_l in Hw as (y & w2 & Hy & Hw & ->).
    apply Forall2_cons_inv_l in Hw as (z & w3 & Hz & Hw & ->).
    apply Forall2_nil_inv_l in Hw as ->.
    ieq_split Hx; ieq_split Hy; ieq_split Hz; by vm_compute. }
  assert (Htwo : folds_to "TWO" (mark_word d)
                 → _mark_word_to_value (mark_word d) = Some 2%float).
  { intros Hw. unfold folds_to in Hw.
    apply Forall2_cons_inv_l in Hw as (x & w1 & Hx & Hw & ->).
    apply Forall2_cons_inv_l in Hw as (y & w2 & Hy & Hw & ->).
    apply Forall2_cons_inv_l in Hw as (z & w3 & Hz & Hw & ->).
    apply Forall2_nil_inv_l in Hw as ->.
    ieq_split Hx; ieq_split Hy; ieq_split Hz; by vm_compute. }
  split; [exact Hfind|]. split; [exact Hone|]. split; [exact Htwo|].
  intros start_q end_q Hs He.
  assert (Hv : ∃ v, _mark_word_to_value (mark_word d) = Some v).
  { destruct Hd as (_ & _ & _ & _ & _ & [Hw|Hw] & _); eauto. }
  destruct Hv as [v Hv].
  unfold parse_mark_scheme. cbn [for_each]. unfold scan_page. cbn [default from_option id].
  rewrite Hfind. cbn [for_each]. unfold scan_band, py_int.
  rewrite Hs, He, Hv. cbn [bind].
  destruct (_ <? _)%Z; eexists; (split; [done|]); intros q_no Hq.
  - by rewrite fill_missing_spec, assign_range_spec, decide_True.
  - by rewrite assign_range_spec, decide_True.
Qed.

Lemma singular_band_recognized_witness :
  findall3 band_pattern (band_text_str sample_band) = [(u "4", u "6", u "two")]
  ∧ ∃ marks,
      parse_mark_scheme [Some (band_text_str sample_band)] 10 = Ok marks
      ∧ marks !! 5%Z = Some 2%float.
Proof.
  destruct (singular_band_recognized sample_band 10)
    as (Hfind & _ & Htwo & Hmarks).
  - unfold band_text_ok, folds_to, decimals, blank.
    repeat split; try (by repeat constructor); done.
  - split; [exact Hfind|].
    destruct (Hmarks 4%Z 6%Z eq_refl eq_refl) as (marks & Hp & Hrange).
    exists marks. split; [exact Hp|].
    rewrite (Hrange 5%Z) by lia. apply Htwo. by repeat constructor.
Defined.

(** ** The fields of the key entries *)

Section key_fields.

Lemma int_nonneg s n : int s = Some n → (0 ≤ n)%Z.
Proof.
  unfold int. destruct s as [|c t]; [discriminate|].
  destruct (mapM decimal_value (c :: t)) as [ds|]; [|discriminate].
  simpl. case_decide; [|discriminate]. intros [= <-]. lia.
Qed.

Lemma row_result_fields r :
  Forall (λ res, ∀ e, res = Ok e → entry_ok e) (row_result r).
Proof.
  unfold row_result. destruct (length r <? 4)%nat; [constructor|].
  destruct (isdigit _); [|constructor].
  constructor; [|constructor]. intros e. unfold py_int.
  destruct (int _) as [n|] eqn:Hn; [|discriminate]. simpl.
  intros [= <-]. unfold entry_ok, cell_text. simpl.
  split; [by apply int_nonneg in Hn|].
  split; [eexists; split; [apply normalize_space_is_normalized | done]|].
  split; apply normalize_space_is_normalized.
Qed.

Lemma Forall_flat_map_intro {X A : Type} (P : A → Prop) (f : X → list A) xs :
  (∀ x, Forall P (f x)) → Forall P (flat_map f xs).
Proof.
  intros H. induction xs as [|x xs IH]; simpl; [constructor|].
  by apply Forall_app.
Qed.

Lemma document_results_fields pdf :
  Forall (λ res, ∀ e, res = Ok e → entry_ok e) (document_results pdf).
Proof.
  apply Forall_flat_map_intro. intros page.
  apply Forall_flat_map_intro. intros tb. unfold table_results.
  destruct tb as [|head [|r rows]]; try constructor.
  destruct (header_ok _); [|constructor].
  apply Forall_flat_map_intro, row_result_fields.
Qed.

Lemma sequence_Forall {A : Type} (P : A → Prop) (rs : list (result A)) l :
  Forall (λ res, ∀ a, res = Ok a → P a) rs → sequence rs = Ok l → Forall P l.
Proof.
  intros H. revert l. induction H as [|res rs Hres _ IH]; intros l; simpl.
  - intros [= <-]. constructor.
  - destruct res as [a|e]; [|discriminate].
    destruct (sequence rs) as [l'|]; [|discriminate]. simpl.
    intros [= <-]. constructor; [by apply Hres | by apply IH].
Qed.

End key_fields.

(** X26. Every entry that [parse_answer_key] returns has a question number that
    is not negative and fields without surplus whitespace: the section and
    the key are normalized texts, and the type is the upper-case form of
    one. *)
Theorem answer_key_fields pdf entries :
  parse_answer_key pdf = Ok entries → Forall entry_ok entries.
Proof.
  rewrite parse_answer_key_results.
  destruct (sequence (document_results pdf)) as [l|e'] eqn:Hs; simpl;
    [|discriminate].
  intros [= <-]. rewrite sort_by_perm.
  apply (sequence_Forall entry_ok (document_results pdf)); [|done].
  apply document_results_fields.
Qed.

Lemma answer_key_fields_witness : Forall entry_ok Samples.answer_key.
Proof.
  apply (answer_key_fields Samples.key_pdf). by vm_compute.
Defined.
